(** * Claude-to-OpenAI proxy (main.ts): shallow embedding and verified properties

    The development follows the layout of [main.ts]:
    - a small layer for the JavaScript values the program manipulates
      (JSON data, truthiness, property reads, thrown errors);
    - [ApiKeyManager]: the credential pool with its failure map and cursor;
    - [convertClaudeToOpenAI], [makeRequestWithRetry],
      [convertOpenAIToClaude], [convertOpenAIStreamToClaude];
    - the stream loop of [handleRequest];
    - the key list of the configuration, [validateBearerToken] and the
      routes of [handleRequest].

    Conventions.  Numbers are exact rationals ([Q]); every test the program
    performs on a number is a comparison with an integer.  Strings are
    sequences of one-byte code units.  The wall clock, the upstream service
    and the consumer of the output stream are the environment: each function
    that consults one of them receives its answers as arguments. *)

From Stdlib Require Import ZArith QArith Lia String Ascii List DecimalString.
From stdpp Require Import base list strings.

Local Open Scope Z_scope.
Set Warnings "-register-all".

(** ** JavaScript values *)

Inductive jsval : Type :=
| JUndefined
| JNull
| JBool (b : bool)
| JNum (q : Q)
| JStr (s : string)
| JArr (items : list jsval)
| JObj (props : list (string * jsval))
| JNative (name : string).
(* [JObj] lists own properties in insertion order, one entry per name.
   [JNative] stands for a built-in function object reached through a
   prototype; it is truthy and carries no data of the program. *)

Record js_error := { err_name : string; err_message : string }.

(** Completion of an evaluation: a value, or a thrown error. *)
Inductive completion (A : Type) : Type :=
| Normal (a : A)
| Throw (e : js_error).
Arguments Normal {A} a.
Arguments Throw {A} e.

Definition cbind {A B} (c : completion A) (k : A -> completion B) : completion B :=
  match c with
  | Normal a => k a
  | Throw e => Throw e
  end.

Declare Scope js_scope.
Delimit Scope js_scope with js.
Notation "x <-! c ;; k" := (cbind c (fun x => k))
  (at level 100, c at next level, right associativity) : js_scope.
Local Open Scope js_scope.

Definition TypeError (message : string) : js_error :=
  {| err_name := "TypeError"; err_message := message |}.

(** ToBoolean. *)
Definition truthy (v : jsval) : bool :=
  match v with
  | JUndefined | JNull => false
  | JBool b => b
  | JNum q => negb (Qnum q =? 0)
  | JStr s => negb (String.eqb s "")
  | JArr _ | JObj _ | JNative _ => true
  end.

(** [a || b] and [a && b] on values already evaluated. *)
Definition js_or (a b : jsval) : jsval := if truthy a then a else b.
Definition js_and (a b : jsval) : jsval := if truthy a then b else a.

Fixpoint own_property (k : string) (props : list (string * jsval)) : jsval :=
  match props with
  | [] => JUndefined
  | (k', v) :: rest => if String.eqb k' k then v else own_property k rest
  end.

(** [v.k] for the property names this program reads ([choices], [delta],
    [tool_calls], [index], [id], [function], [name], [arguments], [content],
    [message], [finish_reason], [usage], [model], [text], ...): none of them
    is defined on a built-in prototype, so only own properties of objects
    answer; reading from [undefined] or [null] throws. *)
Definition get (v : jsval) (k : string) : completion jsval :=
  match v with
  | JUndefined =>
      Throw (TypeError ("Cannot read properties of undefined (reading '" +:+ k +:+ "')"))
  | JNull =>
      Throw (TypeError ("Cannot read properties of null (reading '" +:+ k +:+ "')"))
  | JObj props => Normal (own_property k props)
  | _ => Normal JUndefined
  end.

(** [v[0]]. *)
Definition get0 (v : jsval) : completion jsval :=
  match v with
  | JUndefined => Throw (TypeError "Cannot read properties of undefined (reading '0')")
  | JNull => Throw (TypeError "Cannot read properties of null (reading '0')")
  | JArr items => Normal (nth 0 items JUndefined)
  | JStr (String c _) => Normal (JStr (String c EmptyString))
  | JObj props => Normal (own_property "0" props)
  | _ => Normal JUndefined
  end.

Definition nullish (v : jsval) : bool :=
  match v with JUndefined | JNull => true | _ => false end.

(** [v?.k] and [v?.[0]]: a read guarded by the optional chain never throws. *)
Definition opt_get (v : jsval) (k : string) : jsval :=
  match get v k with Normal x => x | Throw _ => JUndefined end.
Definition opt_get0 (v : jsval) : jsval :=
  match get0 v with Normal x => x | Throw _ => JUndefined end.

(** [v === n] for an integer literal [n], [v === s] for a string literal. *)
Definition strict_eq_int (v : jsval) (n : Z) : bool :=
  match v with
  | JNum q => Qeq_bool q (inject_Z n)
  | _ => false
  end.
Definition strict_eq_str (v : jsval) (s : string) : bool :=
  match v with
  | JStr s' => String.eqb s' s
  | _ => false
  end.

(** [s || d] for an optional string [s]: absent and empty are falsy. *)
Definition str_or (s : option string) (d : string) : string :=
  match s with
  | Some x => if String.eqb x "" then d else x
  | None => d
  end.

(** Decimal rendering of integers inside template literals. *)
Definition dec (n : nat) : string := NilZero.string_of_uint (Nat.to_uint n).
Definition decZ (z : Z) : string := NilZero.string_of_int (Z.to_int z).

(** ** The process: key manager, console and outbound calls *)

(** [Map<string, number>] in insertion order.  The key type admits
    [undefined] ([None]) because [markKeyAsFailed] stores whatever it is
    handed. *)
Definition jskey : Type := option string.
Definition jskey_eqb (a b : jskey) : bool :=
  match a, b with
  | Some x, Some y => String.eqb x y
  | None, None => true
  | _, _ => false
  end.

Definition JsMap : Type := list (jskey * Z).

Definition Map_has (k : jskey) (m : JsMap) : bool :=
  existsb (fun e => jskey_eqb (fst e) k) m.
Definition Map_set (k : jskey) (v : Z) (m : JsMap) : JsMap :=
  if Map_has k m
  then map (fun e => if jskey_eqb (fst e) k then (k, v) else e) m
  else m ++ [(k, v)].
Definition Map_delete (k : jskey) (m : JsMap) : JsMap :=
  List.filter (fun e => negb (jskey_eqb (fst e) k)) m.

(** [currentIndex] is a JavaScript number that only ever grows by one; it
    is exact below 2^53 and is taken here as a natural number. *)
Record ApiKeyManager := {
  keys : list string;
  currentIndex : nat;
  failedKeys : JsMap
}.

Definition FAILURE_TIMEOUT : Z := 60000.

Inductive level := LOG | WARN | ERROR.

(** One outbound call: the Authorization header and the JSON body. *)
Record outbound := { authorization : string; body : jsval }.

Record world := {
  keyManager : ApiKeyManager;
  console : list (level * string);
  network : list outbound;
  timers : list Z
}.

(** State and exceptions: a thrown error keeps the state reached so far. *)
Definition SE (S A : Type) : Type := S -> completion A * S.

Definition ret {S A} (a : A) : SE S A := fun w => (Normal a, w).
Definition throw {S A} (e : js_error) : SE S A := fun w => (Throw e, w).
Definition bind {S A B} (m : SE S A) (k : A -> SE S B) : SE S B :=
  fun w => match m w with
           | (Normal a, w') => k a w'
           | (Throw e, w') => (Throw e, w')
           end.
Definition lift {S A} (c : completion A) : SE S A := fun w => (c, w).
Definition try_catch {S A} (block : SE S A) (handler : js_error -> SE S A) : SE S A :=
  fun w => match block w with
           | (Normal a, w') => (Normal a, w')
           | (Throw e, w') => handler e w'
           end.

Definition M (A : Type) : Type := SE world A.

Definition gets {A} (f : ApiKeyManager -> A) : M A :=
  fun w => (Normal (f (keyManager w)), w).
Definition modify (f : ApiKeyManager -> ApiKeyManager) : M unit :=
  fun w => (Normal tt, {| keyManager := f (keyManager w); console := console w;
                          network := network w; timers := timers w |}).
Definition print (l : level) (text : string) : M unit :=
  fun w => (Normal tt, {| keyManager := keyManager w;
                          console := console w ++ [(l, text)];
                          network := network w; timers := timers w |}).
Definition send (o : outbound) : M unit :=
  fun w => (Normal tt, {| keyManager := keyManager w; console := console w;
                          network := network w ++ [o]; timers := timers w |}).
Definition sleep (ms : Z) : M unit :=
  fun w => (Normal tt, {| keyManager := keyManager w; console := console w;
                          network := network w; timers := timers w ++ [ms] |}).

Notation "x <- m ;; k" := (bind m (fun x => k))
  (at level 100, m at next level, right associativity) : js_scope.
Notation "m ;; k" := (bind m (fun _ => k))
  (at level 100, right associativity) : js_scope.

(** [key.substring(0, 8)]; the receiver may be [undefined]. *)
Definition substring_0_8 (key : jskey) : completion string :=
  match key with
  | Some s => Normal (String.substring 0 8 s)
  | None => Throw (TypeError "Cannot read properties of undefined (reading 'substring')")
  end.

(** [arr[i % arr.length]]: the remainder by 0 is NaN and [arr[NaN]] is
    [undefined]. *)
Definition at_mod {A} (arr : list A) (i : nat) : option A :=
  if (length arr =? 0)%nat then None else arr !! (i mod length arr)%nat.

Module ApiKeyManager.

Definition new (ks : list string) : M unit :=
  modify (fun _ => {| keys := ks; currentIndex := 0; failedKeys := [] |}) ;;
  print LOG ("Initialized API Key Manager with " +:+ dec (length ks) +:+ " keys").

Definition set_failedKeys (f : JsMap -> JsMap) (km : ApiKeyManager) : ApiKeyManager :=
  {| keys := keys km; currentIndex := currentIndex km; failedKeys := f (failedKeys km) |}.
Definition increment (km : ApiKeyManager) : ApiKeyManager :=
  {| keys := keys km; currentIndex := S (currentIndex km); failedKeys := failedKeys km |}.

(** The loop over [failedKeys.entries()]: the entry is deleted before the
    log line is built. *)
Fixpoint restore (now : Z) (entries : list (jskey * Z)) : M unit :=
  match entries with
  | [] => ret tt
  | (key, failTime) :: rest =>
      (if now - failTime >? FAILURE_TIMEOUT then
         modify (set_failedKeys (Map_delete key)) ;;
         prefix <- lift (substring_0_8 key) ;;
         print LOG ("Restored failed key: " +:+ prefix +:+ "...")
       else ret tt) ;;
      restore now rest
  end.

Definition availableKeys (km : ApiKeyManager) : list string :=
  List.filter (fun key => negb (Map_has (Some key) (failedKeys km))) (keys km).

(** [now] is the reading of [Date.now()] taken on entry. *)
Definition getKey (now : Z) : M jskey :=
  entries <- gets failedKeys ;;
  restore now entries ;;
  available <- gets availableKeys ;;
  if (length available =? 0)%nat then
    print WARN "All keys are failed, clearing failure list and retrying" ;;
    modify (set_failedKeys (fun _ => [])) ;;
    selectedKey <- gets (fun km => at_mod (keys km) (currentIndex km)) ;;
    modify increment ;;
    ret selectedKey
  else
    selectedKey <- gets (fun km => at_mod available (currentIndex km)) ;;
    modify increment ;;
    total <- gets (fun km => length (keys km)) ;;
    prefix <- lift (substring_0_8 selectedKey) ;;
    print LOG ("Selected API key: " +:+ prefix +:+ "... (" +:+ dec (length available)
               +:+ "/" +:+ dec total +:+ " available)") ;;
    ret selectedKey.

(** [now] is the reading of [Date.now()] stored in the map; [error] is
    the optional second argument. *)
Definition markKeyAsFailed (now : Z) (key : jskey) (error : option string) : M unit :=
  modify (set_failedKeys (Map_set key now)) ;;
  prefix <- lift (substring_0_8 key) ;;
  print ERROR ("Marked key as failed: " +:+ prefix +:+ "... Error: "
               +:+ str_or error "Unknown").

Record stats := { total : Z; available : Z; failed : Z }.

Definition getStats (km : ApiKeyManager) : stats :=
  {| total := Z.of_nat (length (keys km));
     available := Z.of_nat (length (keys km)) - Z.of_nat (length (failedKeys km));
     failed := Z.of_nat (length (failedKeys km)) |}.

End ApiKeyManager.

(** ** A reader for JSON text

    [Json.parse] follows the JSON grammar on one-byte text; the escape
    [\u] is the one construct it does not read.  It is used to run the
    program on concrete frames; the general results below hold for every
    [JSON.parse]. *)

Module Json.

Definition SyntaxError (message : string) : js_error :=
  {| err_name := "SyntaxError"; err_message := message |}.

Definition is_ws (c : ascii) : bool :=
  let n := nat_of_ascii c in ((n =? 32) || (n =? 9) || (n =? 10) || (n =? 13))%nat.

Fixpoint skip_ws (s : string) : string :=
  match s with
  | String c rest => if is_ws c then skip_ws rest else s
  | EmptyString => EmptyString
  end.

Definition digit (c : ascii) : option Z :=
  let n := nat_of_ascii c in
  if ((48 <=? n) && (n <=? 57))%nat then Some (Z.of_nat n - 48) else None.

(** Digits at the head of [s]: their value, their number, and the rest. *)
Fixpoint digits (acc : Z) (count : nat) (s : string) : Z * nat * string :=
  match s with
  | String c rest =>
      match digit c with
      | Some d => digits (10 * acc + d) (S count) rest
      | None => (acc, count, s)
      end
  | EmptyString => (acc, count, s)
  end.

Definition quote : ascii := ascii_of_nat 34.
Definition backslash : ascii := ascii_of_nat 92.

Definition unescape (c : ascii) : option ascii :=
  let n := nat_of_ascii c in
  if (n =? 34)%nat then Some quote
  else if (n =? 92)%nat then Some backslash
  else if (n =? 47)%nat then Some c
  else if (n =? 98)%nat then Some (ascii_of_nat 8)
  else if (n =? 102)%nat then Some (ascii_of_nat 12)
  else if (n =? 110)%nat then Some (ascii_of_nat 10)
  else if (n =? 114)%nat then Some (ascii_of_nat 13)
  else if (n =? 116)%nat then Some (ascii_of_nat 9)
  else None.

(** The characters of a string literal, after its opening quote. *)
Fixpoint chars (s : string) : option (string * string) :=
  match s with
  | EmptyString => None
  | String c rest =>
      if Ascii.eqb c quote then Some (EmptyString, rest)
      else if Ascii.eqb c backslash then
        match rest with
        | String e rest' =>
            match unescape e, chars rest' with
            | Some c', Some (text, rest'') => Some (String c' text, rest'')
            | _, _ => None
            end
        | EmptyString => None
        end
      else if (nat_of_ascii c <? 32)%nat then None
      else match chars rest with
           | Some (text, rest') => Some (String c text, rest')
           | None => None
           end
  end.

Definition scale (q : Q) (exponent : Z) : Q :=
  if 0 <=? exponent then Qmult q (inject_Z (10 ^ exponent))
  else Qdiv q (inject_Z (10 ^ (- exponent))).

(** A number, after its optional sign. *)
Definition unsigned (s : string) : option (Q * string) :=
  let '(int, n, rest) := digits 0 0 s in
  let leading_zero := match s with
                      | String c _ => Ascii.eqb c "0"%char
                      | EmptyString => false
                      end in
  if (n =? 0)%nat || (leading_zero && (1 <? n)%nat) then None
  else
    let frac :=
      match rest with
      | String "."%char rest1 =>
          let '(f, k, rest2) := digits 0 0 rest1 in
          if (k =? 0)%nat then None
          else Some (Qplus (inject_Z int) (scale (inject_Z f) (- Z.of_nat k)), rest2)
      | _ => Some (inject_Z int, rest)
      end in
    match frac with
    | None => None
    | Some (q, rest3) =>
        match rest3 with
        | String c rest4 =>
            if Ascii.eqb c "e"%char || Ascii.eqb c "E"%char then
              let '(negative, rest5) :=
                match rest4 with
                | String "-"%char r => (true, r)
                | String "+"%char r => (false, r)
                | _ => (false, rest4)
                end in
              let '(x, k, rest6) := digits 0 0 rest5 in
              if (k =? 0)%nat then None
              else Some (scale q (if negative then - x else x), rest6)
            else Some (q, rest3)
        | EmptyString => Some (q, rest3)
        end
    end.

Definition number (s : string) : option (jsval * string) :=
  match s with
  | String "-"%char rest =>
      match unsigned rest with
      | Some (q, rest') => Some (JNum (Qred (Qopp q)), rest')
      | None => None
      end
  | _ =>
      match unsigned s with
      | Some (q, rest') => Some (JNum (Qred q), rest')
      | None => None
      end
  end.

Definition literal (word : string) (v : jsval) (s : string) : option (jsval * string) :=
  if String.prefix word s
  then Some (v, String.substring (String.length word)
                  (String.length s - String.length word) s)
  else None.

(** A repeated name keeps its place and takes the later value. *)
Fixpoint put (k : string) (v : jsval) (props : list (string * jsval))
  : list (string * jsval) :=
  match props with
  | [] => [(k, v)]
  | (k', v') :: rest =>
      if String.eqb k' k then (k, v) :: rest else (k', v') :: put k v rest
  end.

Fixpoint value (fuel : nat) (s : string) {struct fuel} : option (jsval * string) :=
  match fuel with
  | O => None
  | S fuel' =>
      match skip_ws s with
      | String c rest =>
          if Ascii.eqb c "{"%char then
            match skip_ws rest with
            | String "}"%char rest' => Some (JObj [], rest')
            | _ => members fuel' [] rest
            end
          else if Ascii.eqb c "["%char then
            match skip_ws rest with
            | String "]"%char rest' => Some (JArr [], rest')
            | _ => elements fuel' [] rest
            end
          else if Ascii.eqb c quote then
            match chars rest with
            | Some (text, rest') => Some (JStr text, rest')
            | None => None
            end
          else if Ascii.eqb c "t"%char then literal "true" (JBool true) (String c rest)
          else if Ascii.eqb c "f"%char then literal "false" (JBool false) (String c rest)
          else if Ascii.eqb c "n"%char then literal "null" JNull (String c rest)
          else number (String c rest)
      | EmptyString => None
      end
  end
with elements (fuel : nat) (acc : list jsval) (s : string) {struct fuel}
  : option (jsval * string) :=
  match fuel with
  | O => None
  | S fuel' =>
      match value fuel' s with
      | Some (v, rest) =>
          match skip_ws rest with
          | String ","%char rest' => elements fuel' (acc ++ [v]) rest'
          | String "]"%char rest' => Some (JArr (acc ++ [v]), rest')
          | _ => None
          end
      | None => None
      end
  end
with members (fuel : nat) (acc : list (string * jsval)) (s : string) {struct fuel}
  : option (jsval * string) :=
  match fuel with
  | O => None
  | S fuel' =>
      match skip_ws s with
      | String c rest =>
          if Ascii.eqb c quote then
            match chars rest with
            | Some (k, rest1) =>
                match skip_ws rest1 with
                | String ":"%char rest2 =>
                    match value fuel' rest2 with
                    | Some (v, rest3) =>
                        match skip_ws rest3 with
                        | String ","%char rest4 => members fuel' (put k v acc) rest4
                        | String "}"%char rest4 => Some (JObj (put k v acc), rest4)
                        | _ => None
                        end
                    | None => None
                    end
                | _ => None
                end
            | None => None
            end
          else None
      | EmptyString => None
      end
  end.

Definition parse (text : string) : completion jsval :=
  match value (S (String.length text)) text with
  | Some (v, rest) =>
      match skip_ws rest with
      | EmptyString => Normal v
      | _ => Throw (SyntaxError "Unexpected non-whitespace character after JSON")
      end
  | None => Throw (SyntaxError "Unexpected token in JSON")
  end.

End Json.

(** ** convertClaudeToOpenAI *)

Definition LF : string := String (ascii_of_nat 10) EmptyString.

Definition MODEL_MAPPING : list (string * string) :=
  [ ("claude-3-5-haiku-20241022", "anthropic/claude-3.5-haiku");
    ("claude-sonnet-4-20250514", "anthropic/claude-sonnet-4");
    ("claude-opus-4-20250514", "anthropic/claude-opus-4") ].

(** Names that an object literal inherits from [Object.prototype] in the
    Deno runtime. *)
Definition Object_prototype : list string :=
  [ "constructor"; "hasOwnProperty"; "isPrototypeOf"; "propertyIsEnumerable";
    "toLocaleString"; "toString"; "valueOf"; "__defineGetter__";
    "__defineSetter__"; "__lookupGetter__"; "__lookupSetter__" ].

Definition MODEL_MAPPING_at (k : string) : jsval :=
  match List.find (fun e => String.eqb (fst e) k) MODEL_MAPPING with
  | Some (_, target) => JStr target
  | None => if existsb (String.eqb k) Object_prototype then JNative k else JUndefined
  end.

Definition not_a_function (what : string) : js_error :=
  TypeError (what +:+ " is not a function").

Fixpoint mapM {A B} (f : A -> completion B) (l : list A) : completion (list B) :=
  match l with
  | [] => Normal []
  | x :: rest =>
      y <-! f x ;;
      ys <-! mapM f rest ;;
      Normal (y :: ys)
  end.

(** [v.map(f)] where [v] has been read from JSON data: only arrays have a
    [map] method. *)
Definition js_map (what : string) (v : jsval) (f : jsval -> completion jsval)
  : completion jsval :=
  match v with
  | JUndefined =>
      Throw (TypeError "Cannot read properties of undefined (reading 'map')")
  | JNull => Throw (TypeError "Cannot read properties of null (reading 'map')")
  | JArr items => items' <-! mapM f items ;; Normal (JArr items')
  | _ => Throw (not_a_function what)
  end.

Section Translators.

(** Services of the runtime: [JSON.stringify] on a value that is not
    [undefined], [JSON.parse] on a string, and the string conversion
    ToString of a value that is not a string. *)
Variable JSON_stringify : jsval -> string.
Variable JSON_parse : string -> completion jsval.
Variable ToString : jsval -> string.

Definition to_text (v : jsval) : string :=
  match v with
  | JStr s => s
  | _ => ToString v
  end.

(** [parts.join('\n')]; no part is [undefined] or [null] here. *)
Definition join_LF (parts : list jsval) : string :=
  String.concat LF (map to_text parts).

Definition convert_content (content : jsval) : completion jsval :=
  match content with
  | JArr blocks =>
      parts <-! mapM (fun c => text <-! get c "text" ;;
                               Normal (js_or text (JStr (JSON_stringify c)))) blocks ;;
      Normal (JStr (join_LF parts))
  | _ => Normal content
  end.

Definition convert_message (msg : jsval) : completion jsval :=
  role <-! get msg "role" ;;
  content <-! get msg "content" ;;
  content' <-! convert_content content ;;
  Normal (JObj [("role", role); ("content", content')]).

Definition convert_tool (tool : jsval) : completion jsval :=
  name <-! get tool "name" ;;
  description <-! get tool "description" ;;
  input_schema <-! get tool "input_schema" ;;
  Normal (JObj [("type", JStr "function");
                ("function", JObj [("name", name);
                                   ("description", description);
                                   ("parameters", input_schema)])]).

(** Spread of [cond && { key: v }] into an object literal. *)
Definition spread_if (cond : jsval) (key : string) (v : jsval) : list (string * jsval) :=
  if truthy cond then [(key, v)] else [].

Definition convertClaudeToOpenAI (claudeRequest : jsval) : completion jsval :=
  (* 1. messages *)
  messages <-! get claudeRequest "messages" ;;
  openaiMessages <-! js_map "claudeRequest.messages.map" messages convert_message ;;
  (* 2. model *)
  model <-! get claudeRequest "model" ;;
  let openaiModel :=
    js_or (MODEL_MAPPING_at (to_text model)) (JStr "anthropic/claude-4-sonnet") in
  (* 3. tools *)
  tools <-! get claudeRequest "tools" ;;
  openaiTools <-! (if nullish tools then Normal JUndefined
                   else js_map "claudeRequest.tools?.map" tools convert_tool) ;;
  (* 4. the request object *)
  max_tokens <-! get claudeRequest "max_tokens" ;;
  temperature <-! get claudeRequest "temperature" ;;
  stream <-! get claudeRequest "stream" ;;
  tool_choice <-! get claudeRequest "tool_choice" ;;
  Normal (JObj ([ ("model", openaiModel);
                  ("messages", openaiMessages);
                  ("max_tokens", js_or max_tokens (JNum 4096));
                  ("temperature", js_or temperature (JNum 0.7));
                  ("stream", js_or stream (JBool false)) ]
                ++ spread_if openaiTools "tools" openaiTools
                ++ spread_if tool_choice "tool_choice" tool_choice)).

(** *** makeRequestWithRetry *)

(** What [response.text()] yields: the text, or a rejection. *)
Inductive body_read :=
| BodyText (text : string)
| BodyFails (e : js_error).

Record response := {
  status : Z;
  payload : body_read;
  headers : list (string * string)
}.

(** [response.ok] *)
Definition ok (r : response) : bool := (200 <=? status r) && (status r <=? 299).

(** Outcome of [fetch]: resolved with a response, or rejected. *)
Inductive fetch_result :=
| Resolves (r : response)
| Rejects (e : js_error).

Definition null_body_status (s : Z) : bool :=
  (s =? 101) || (s =? 103) || (s =? 204) || (s =? 205) || (s =? 304).

(** [new Response(text, { status, headers })] as the Fetch standard
    initialises a response: the status must be 101 or lie in 200..599,
    and a status that forbids a body rejects the (non-null) text. *)
Definition new_Response (text : string) (s : Z) (hs : list (string * string))
  : completion response :=
  if ((s <? 200) || (599 <? s)) && negb (s =? 101) then
    Throw {| err_name := "RangeError";
             err_message := "The status provided (" +:+ decZ s
                            +:+ ") is not equal to 101 and outside the range [200, 599]" |}
  else if null_body_status s then
    Throw (TypeError "Response with null body status cannot have body")
  else Normal {| status := s; payload := BodyText text; headers := hs |}.

(** The environment of one attempt: the clock reading inside [getKey],
    the behaviour of the upstream on the call issued, and the clock
    reading inside [markKeyAsFailed] when the attempt calls it. *)
Record attempt_env := {
  t_select : Z;
  reply : outbound -> fetch_result;
  t_mark : Z
}.

Definition fetch (e : attempt_env) (call : outbound) : M response :=
  send call ;;
  match reply e call with
  | Resolves r => ret r
  | Rejects err => throw err
  end.

Definition response_text (r : response) : M string :=
  match payload r with
  | BodyText text => ret text
  | BodyFails err => throw err
  end.

(** [`${selectedKey}`] *)
Definition key_text (key : jskey) : string :=
  match key with
  | Some s => s
  | None => "undefined"
  end.

Section Attempt.

Variable e : attempt_env.
Variable openaiRequest : jsval.
Variables attempt maxRetries : nat.
Variable selectedKey : jskey.

(** The [try] block.  It ends the function with a response ([Some]),
    or falls through to the delay with the new value of [lastError]. *)
Definition try_block : M (option response * string) :=
  prefix <- lift (substring_0_8 selectedKey) ;;
  print LOG ("Attempt " +:+ dec attempt +:+ "/" +:+ dec maxRetries
             +:+ " with key: " +:+ prefix +:+ "...") ;;
  response <- fetch e {| authorization := "Bearer " +:+ key_text selectedKey;
                         body := openaiRequest |} ;;
  if ok response then
    print LOG ("Request successful on attempt " +:+ dec attempt) ;;
    ret (Some response, "")
  else
    errorText <- response_text response ;;
    let lastError := "HTTP " +:+ decZ (status response) +:+ ": " +:+ errorText in
    (if (status response =? 401) || (status response =? 403) then
       ApiKeyManager.markKeyAsFailed (t_mark e) selectedKey
         (Some ("HTTP " +:+ decZ (status response)))
     else ret tt) ;;
    print ERROR ("Attempt " +:+ dec attempt +:+ " failed: " +:+ lastError) ;;
    if (attempt =? maxRetries)%nat then
      r <- lift (new_Response errorText (status response)
                   [("Access-Control-Allow-Origin", "*");
                    ("Content-Type", "application/json")]) ;;
      ret (Some r, lastError)
    else ret (None, lastError).

(** The [catch] block. *)
Definition catch_block (error : js_error) : M (option response * string) :=
  let lastError := err_message error in
  ApiKeyManager.markKeyAsFailed (t_mark e) selectedKey (Some (err_message error)) ;;
  print ERROR ("Attempt " +:+ dec attempt +:+ " failed with exception: " +:+ lastError) ;;
  if (attempt =? maxRetries)%nat then throw error
  else ret (None, lastError).

Definition try_attempt : M (option response * string) :=
  try_catch try_block catch_block.

End Attempt.

(** The [for] loop; [remaining] counts the iterations left, so that
    [attempt <= maxRetries] holds exactly when [remaining] is not 0. *)
Fixpoint retry_loop (env : nat -> attempt_env) (openaiRequest : jsval)
    (maxRetries remaining attempt : nat) (lastError : string) : M response :=
  match remaining with
  | O =>
      throw {| err_name := "Error";
               err_message := "All " +:+ dec maxRetries
                              +:+ " attempts failed. Last error: " +:+ lastError |}
  | S remaining' =>
      selectedKey <- ApiKeyManager.getKey (t_select (env attempt)) ;;
      outcome <- try_attempt (env attempt) openaiRequest attempt maxRetries selectedKey ;;
      match outcome with
      | (Some response, _) => ret response
      | (None, lastError') =>
          sleep (1000 * Z.of_nat attempt) ;;
          retry_loop env openaiRequest maxRetries remaining' (S attempt) lastError'
      end
  end.

(** [env n] is the environment met by attempt number [n]. *)
Definition makeRequestWithRetry (env : nat -> attempt_env) (openaiRequest : jsval)
    (maxRetries : nat) : M response :=
  retry_loop env openaiRequest maxRetries maxRetries 1 "".

(** *** convertOpenAIToClaude *)

(** [openaiResponse.id || `msg_${Date.now()}`] *)
Definition message_id (now : Z) (openaiResponse : jsval) : completion jsval :=
  id <-! get openaiResponse "id" ;;
  Normal (js_or id (JStr ("msg_" +:+ decZ now))).

Definition convert_usage (openaiResponse : jsval) : completion jsval :=
  usage <-! get openaiResponse "usage" ;;
  if truthy usage then
    prompt_tokens <-! get usage "prompt_tokens" ;;
    completion_tokens <-! get usage "completion_tokens" ;;
    Normal (JObj [("input_tokens", prompt_tokens);
                  ("output_tokens", completion_tokens)])
  else Normal JUndefined.

Definition convert_call (call : jsval) : completion jsval :=
  id <-! get call "id" ;;
  fn <-! get call "function" ;;
  name <-! get fn "name" ;;
  arguments <-! get fn "arguments" ;;
  input <-! JSON_parse (to_text arguments) ;;
  Normal (JObj [("type", JStr "tool_use"); ("id", id); ("name", name);
                ("input", input)]).

(** [x.choices && x.choices[0]] *)
Definition first_choice (x : jsval) : completion jsval :=
  choices <-! get x "choices" ;;
  if truthy choices then get0 choices else Normal choices.

(** [now] is the reading of [Date.now()], used when the response has no id. *)
Definition convertOpenAIToClaude (now : Z) (openaiResponse : jsval) : completion jsval :=
  choice <-! first_choice openaiResponse ;;
  if truthy choice then
    message <-! get choice "message" ;;
    if truthy (opt_get message "tool_calls") then
      id <-! message_id now openaiResponse ;;
      tool_calls <-! get message "tool_calls" ;;
      content <-! js_map "choice.message.tool_calls.map" tool_calls convert_call ;;
      model <-! get openaiResponse "model" ;;
      usage <-! convert_usage openaiResponse ;;
      Normal (JObj [("id", id); ("type", JStr "message"); ("role", JStr "assistant");
                    ("content", content); ("model", model);
                    ("stop_reason", JStr "tool_use"); ("stop_sequence", JNull);
                    ("usage", usage)])
    else
      id <-! message_id now openaiResponse ;;
      let text := js_or (opt_get message "content") (JStr "") in
      model <-! get openaiResponse "model" ;;
      finish_reason <-! get choice "finish_reason" ;;
      let stop_reason :=
        if strict_eq_str finish_reason "stop" then JStr "end_turn" else finish_reason in
      usage <-! convert_usage openaiResponse ;;
      Normal (JObj [("id", id); ("type", JStr "message"); ("role", JStr "assistant");
                    ("content", JArr [JObj [("type", JStr "text"); ("text", text)]]);
                    ("model", model);
                    ("stop_reason", stop_reason); ("stop_sequence", JNull);
                    ("usage", usage)])
  else Normal openaiResponse.

(** *** convertOpenAIStreamToClaude *)

Definition convertOpenAIStreamToClaude (openaiChunk : jsval) : completion jsval :=
  choice <-! first_choice openaiChunk ;;
  if truthy choice then
    delta <-! get choice "delta" ;;
    start <-! (if truthy (opt_get delta "tool_calls") then
                 tool_calls <-! get delta "tool_calls" ;;
                 toolCall <-! get0 tool_calls ;;
                 index <-! get toolCall "index" ;;
                 id <-! get toolCall "id" ;;
                 if strict_eq_int index 0 && truthy id then
                   fn <-! get toolCall "function" ;;
                   name <-! get fn "name" ;;
                   Normal (Some (JObj [("type", JStr "content_block_start");
                                       ("index", index);
                                       ("content_block",
                                        JObj [("type", JStr "tool_use"); ("id", id);
                                              ("name", name); ("input", JObj [])])]))
                 else Normal None
               else Normal None) ;;
    match start with
    | Some event => Normal event
    | None =>
        let arguments :=
          opt_get (opt_get (opt_get0 (opt_get delta "tool_calls")) "function") "arguments" in
        if truthy arguments then
          tool_calls <-! get delta "tool_calls" ;;
          toolCall <-! get0 tool_calls ;;
          index <-! get toolCall "index" ;;
          Normal (JObj [("type", JStr "content_block_delta");
                        ("index", index);
                        ("delta", JObj [("type", JStr "input_json_delta");
                                        ("partial_json", arguments)])])
        else if truthy (opt_get delta "content") then
          content <-! get delta "content" ;;
          Normal (JObj [("type", JStr "content_block_delta");
                        ("index", JNum 0);
                        ("delta", JObj [("type", JStr "text_delta");
                                        ("text", content)])])
        else Normal JNull
    end
  else Normal JNull.

(** *** The stream loop of handleRequest *)

(** White space removed by [trim], among one-byte code units. *)
Definition is_space (c : ascii) : bool :=
  let n := nat_of_ascii c in
  ((9 <=? n) && (n <=? 13) || (n =? 32) || (n =? 160))%nat.

Fixpoint trimStart (s : string) : string :=
  match s with
  | String c rest => if is_space c then trimStart rest else s
  | EmptyString => EmptyString
  end.

Fixpoint trimEnd (s : string) : string :=
  match s with
  | String c rest =>
      match trimEnd rest with
      | EmptyString => if is_space c then EmptyString else String c EmptyString
      | rest' => String c rest'
      end
  | EmptyString => EmptyString
  end.

Definition trim (s : string) : string := trimEnd (trimStart s).

(** [s.substring(n)] *)
Fixpoint substring_from (n : nat) (s : string) : string :=
  match n, s with
  | S n', String _ rest => substring_from n' rest
  | _, _ => s
  end.

(** [s.split('\n')]: never empty. *)
Fixpoint split_LF (s : string) : list string :=
  match s with
  | EmptyString => [EmptyString]
  | String c rest =>
      if Ascii.eqb c (ascii_of_nat 10) then EmptyString :: split_LF rest
      else match split_LF rest with
           | first :: others => String c first :: others
           | [] => [String c EmptyString]
           end
  end.

(** One SSE frame written to the output:
    [`event: ${event}\ndata: ${JSON.stringify(data)}\n\n`]. *)
Record frame := { event : string; data : jsval }.

Record stream_state := {
  buffer : string;
  toolCallStarted : bool;
  streamClosed : bool;
  (* the controller: frames handed to [enqueue], frames accepted, how
     many more [enqueue] calls succeed before the consumer cancels
     ([None]: it never does), and how the producer finished the stream *)
  offered : list frame;
  enqueued : list frame;
  demand : option nat;
  finished : option (option js_error);
  stream_console : list (level * string)
}.

Definition Stream (A : Type) : Type := SE stream_state A.

Definition update (f : stream_state -> stream_state) : Stream unit :=
  fun s => (Normal tt, f s).
Definition read {A} (f : stream_state -> A) : Stream A :=
  fun s => (Normal (f s), s).

Definition set_buffer (b : string) (s : stream_state) : stream_state :=
  {| buffer := b; toolCallStarted := toolCallStarted s; streamClosed := streamClosed s;
     offered := offered s; enqueued := enqueued s; demand := demand s;
     finished := finished s;
     stream_console := stream_console s |}.
Definition set_toolCallStarted (b : bool) (s : stream_state) : stream_state :=
  {| buffer := buffer s; toolCallStarted := b; streamClosed := streamClosed s;
     offered := offered s; enqueued := enqueued s; demand := demand s;
     finished := finished s;
     stream_console := stream_console s |}.
Definition set_streamClosed (b : bool) (s : stream_state) : stream_state :=
  {| buffer := buffer s; toolCallStarted := toolCallStarted s; streamClosed := b;
     offered := offered s; enqueued := enqueued s; demand := demand s;
     finished := finished s;
     stream_console := stream_console s |}.
Definition set_finished (f : option js_error) (s : stream_state) : stream_state :=
  {| buffer := buffer s; toolCallStarted := toolCallStarted s;
     streamClosed := streamClosed s;
     offered := offered s; enqueued := enqueued s; demand := demand s;
     finished := Some f;
     stream_console := stream_console s |}.
Definition stream_print (l : level) (text : string) : Stream unit :=
  update (fun s =>
    {| buffer := buffer s; toolCallStarted := toolCallStarted s;
       streamClosed := streamClosed s;
       offered := offered s; enqueued := enqueued s; demand := demand s;
     finished := finished s;
       stream_console := stream_console s ++ [(l, text)] |}).

Definition invalid_state (what : string) : js_error :=
  TypeError ("Invalid state: " +:+ what).

(** The output can no longer be written to: the consumer has cancelled,
    or the producer has closed or errored the stream. *)
Definition cancelled (s : stream_state) : bool :=
  match demand s, finished s with
  | Some O, _ | _, Some _ => true
  | _, None => false
  end.

(** [controller.enqueue(data)] throws once the consumer has cancelled. *)
Definition controller_enqueue (chunk : frame) : Stream unit :=
  fun s =>
    if cancelled s then
      (Throw (invalid_state "Controller is already closed"),
       {| buffer := buffer s; toolCallStarted := toolCallStarted s;
          streamClosed := streamClosed s;
          offered := offered s ++ [chunk]; enqueued := enqueued s;
          demand := demand s; finished := finished s;
          stream_console := stream_console s |})
    else
      (Normal tt,
       {| buffer := buffer s; toolCallStarted := toolCallStarted s;
          streamClosed := streamClosed s;
          offered := offered s ++ [chunk]; enqueued := enqueued s ++ [chunk];
          demand := match demand s with
                    | Some n => Some (Nat.pred n)
                    | None => None
                    end;
          finished := finished s; stream_console := stream_console s |}).

(** [controller.close()] throws on a stream that is no longer open. *)
Definition controller_close : Stream unit :=
  fun s =>
    if cancelled s then (Throw (invalid_state "Controller is already closed"), s)
    else (Normal tt, set_finished None s).

(** [controller.error(e)] is silent on a stream that is no longer open. *)
Definition controller_error (e : js_error) : Stream unit :=
  fun s =>
    if cancelled s then (Normal tt, s)
    else (Normal tt, set_finished (Some e) s).

Definition safeEnqueue (chunk : frame) : Stream unit :=
  try_catch
    (closed <- read streamClosed ;;
     if negb closed then controller_enqueue chunk else ret tt)
    (fun error =>
       stream_print ERROR ("Error enqueueing data: " +:+ err_message error) ;;
       update (set_streamClosed true)).

Definition message_start (openaiChunk : jsval) : completion frame :=
  id <-! get openaiChunk "id" ;;
  model <-! get openaiChunk "model" ;;
  Normal {| event := "message_start";
            data := JObj [("type", JStr "message");
                          ("message",
                           JObj [("id", id); ("type", JStr "message");
                                 ("role", JStr "assistant"); ("content", JArr []);
                                 ("model", model); ("stop_reason", JNull);
                                 ("stop_sequence", JNull);
                                 ("usage", JObj [("input_tokens", JNum 0);
                                                 ("output_tokens", JNum 0)])])] |}.

Definition event_frame (claudeEvent : jsval) : completion frame :=
  type <-! get claudeEvent "type" ;;
  Normal {| event := if strict_eq_str type "content_block_start"
                        || strict_eq_str type "content_block_delta"
                     then "content_block_delta" else "message_delta";
            data := claudeEvent |}.

(** The body of the inner [try], for one [data: ] line. *)
Definition forward (dataStr : string) : Stream unit :=
  openaiChunk <- lift (JSON_parse dataStr) ;;
  claudeEvent <- lift (convertOpenAIStreamToClaude openaiChunk) ;;
  closed <- read streamClosed ;;
  if truthy claudeEvent && negb closed then
    type <- lift (get claudeEvent "type") ;;
    started <- read toolCallStarted ;;
    (if strict_eq_str type "content_block_start" && negb started then
       start <- lift (message_start openaiChunk) ;;
       safeEnqueue start ;;
       update (set_toolCallStarted true)
     else ret tt) ;;
    closed' <- read streamClosed ;;
    if negb closed' then
      chunk <- lift (event_frame claudeEvent) ;;
      safeEnqueue chunk
    else ret tt
  else ret tt.

Definition on_line (line : string) : Stream unit :=
  if String.prefix "data: " (trim line) then
    let dataStr := trim (substring_from 5 (trim line)) in
    if String.eqb dataStr "[DONE]" then ret tt
    else
      try_catch (forward dataStr)
        (fun e => stream_print ERROR ("Error parsing stream chunk: " +:+ dataStr
                                      +:+ " " +:+ err_message e))
  else ret tt.

(** [for (const line of lines)], left by [break] once the stream is closed. *)
Fixpoint for_lines (lines : list string) : Stream unit :=
  match lines with
  | [] => ret tt
  | line :: rest =>
      closed <- read streamClosed ;;
      if closed then ret tt
      else on_line line ;; for_lines rest
  end.

(** One turn of [while (true)] after a successful read of [value]
    (the text that the streaming decoder yields for the bytes read). *)
Definition on_chunk (value : string) : Stream unit :=
  b <- read buffer ;;
  let lines := split_LF (b +:+ value) in
  update (set_buffer (List.last lines EmptyString)) ;;
  for_lines (removelast lines).

(** The upstream body: the chunks read, then [done] or a failed read. *)
Record upstream := { chunks : list string; failure : option js_error }.

(** How [while (true)] is left: the reader reported [done], or the
    stream was found closed after a chunk. *)
Inductive loop_exit := Done | Closed.

Fixpoint read_loop (values : list string) (failure : option js_error)
  : Stream loop_exit :=
  match values with
  | [] =>
      match failure with
      | None => ret Done
      | Some e => throw e
      end
  | value :: rest =>
      on_chunk value ;;
      closed <- read streamClosed ;;
      if closed then ret Closed else read_loop rest failure
  end.

Definition message_stop (toolCallStarted : bool) : frame :=
  {| event := "message_stop";
     data := JObj [("type", JStr "message_stop");
                   ("anthropic-internal-tool-use-end", JBool toolCallStarted)] |}.

(** The [start(controller)] callback of the output stream: its [try],
    [catch] and [finally] blocks. *)
Definition start_try (up : upstream) : Stream unit :=
  read_loop (chunks up) (failure up) ;;
  closed <- read streamClosed ;;
  if negb closed then
    started <- read toolCallStarted ;;
    safeEnqueue (message_stop started)
  else ret tt.

Definition start_catch (error : js_error) : Stream unit :=
  stream_print ERROR ("Stream processing error: " +:+ err_message error) ;;
  closed <- read streamClosed ;;
  if negb closed then
    try_catch (controller_error error)
      (fun e => stream_print ERROR ("Error setting controller error: "
                                    +:+ err_message e)) ;;
    update (set_streamClosed true)
  else ret tt.

Definition start_finally : Stream unit :=
  closed <- read streamClosed ;;
  if negb closed then
    try_catch controller_close
      (fun e => stream_print ERROR ("Error closing controller: " +:+ err_message e))
  else ret tt.

Definition start (up : upstream) : Stream unit :=
  try_catch (start_try up) start_catch ;;
  start_finally.

(** A fresh exchange whose consumer accepts [d] frames before cancelling. *)
Definition initial (d : option nat) : stream_state :=
  {| buffer := EmptyString; toolCallStarted := false; streamClosed := false;
     offered := []; enqueued := []; demand := d; finished := None;
     stream_console := [] |}.

(** The frames delivered by one streamed exchange. *)
Definition emitted (up : upstream) (d : option nat) : list frame :=
  enqueued (snd (start up (initial d))).

End Translators.

(** [handleRequest] calls [makeRequestWithRetry] with its default. *)
Definition default_maxRetries : nat := 3.

(** ** Configuration read from the environment *)

(** [s.split(",")]: never empty. *)
Fixpoint split_comma (s : string) : list string :=
  match s with
  | EmptyString => [EmptyString]
  | String c rest =>
      if Ascii.eqb c ","%char then EmptyString :: split_comma rest
      else match split_comma rest with
           | first :: others => String c first :: others
           | [] => [String c EmptyString]
           end
  end.

(** The constant [VERCEL_API_KEYS], from the value of the environment
    variable of that name ([None]: not set). *)
Definition VERCEL_API_KEYS (VERCEL_API_KEYS_ENV : option string) : list string :=
  match VERCEL_API_KEYS_ENV with
  | Some text =>
      if String.eqb text "" then []
      else List.filter (fun key => (0 <? String.length key)%nat)
             (map trim (split_comma text))
  | None => []
  end.

(** ** handleRequest *)

(** What the handler reads of a request: the method, the path of its
    URL, the [Authorization] header ([None]: [headers.get] answers
    [null]) and the body as [request.json()] reads it before parsing. *)
Record request := {
  method : string;
  pathname : string;
  header_Authorization : option string;
  request_body : body_read
}.

(** The body handed to [new Response]: [null], a text, the text
    [JSON.stringify(value)], or the [ReadableStream] whose [start]
    callback reads the upstream body [up]. *)
Inductive reply_body :=
| Null_body
| Text_body (text : string)
| JSON_body (value : jsval)
| Stream_body (up : upstream).

(** What the handler answers: a response it builds (status, the headers
    it sets, body), or the response of [makeRequestWithRetry] itself. *)
Inductive answer :=
| Response (code : Z) (head : list (string * string)) (content : reply_body)
| Relayed (r : response).

(** The environment of one request: what each attempt meets, the reading
    of [Date.now()] and the text of [new Date().toISOString()], and how
    the body of an upstream response is read through
    [response.body?.getReader()] ([None]: the body is [null]). *)
Record request_env := {
  attempts : nat -> attempt_env;
  clock : Z;
  timestamp : string;
  body_reader : response -> option upstream
}.

Definition stats_json (s : ApiKeyManager.stats) : jsval :=
  JObj [("total", JNum (inject_Z (ApiKeyManager.total s)));
        ("available", JNum (inject_Z (ApiKeyManager.available s)));
        ("failed", JNum (inject_Z (ApiKeyManager.failed s)))].

(** The console rendering of the statistics object. *)
Definition stats_text (s : ApiKeyManager.stats) : string :=
  "{ total: " +:+ decZ (ApiKeyManager.total s)
  +:+ ", available: " +:+ decZ (ApiKeyManager.available s)
  +:+ ", failed: " +:+ decZ (ApiKeyManager.failed s) +:+ " }".

Definition JSON_CORS : list (string * string) :=
  [("Content-Type", "application/json"); ("Access-Control-Allow-Origin", "*")].

Section Gateway.

Variable JSON_stringify : jsval -> string.
Variable JSON_parse : string -> completion jsval.
Variable ToString : jsval -> string.
(** [JSON.stringify(v, null, 2)], used for the log lines. *)
Variable JSON_pretty : jsval -> string.
(** The constant [CUSTOM_AUTH_KEY] ([None]: the variable is not set). *)
Variable CUSTOM_AUTH_KEY : option string.

Definition validateBearerToken (request : request) : bool :=
  match CUSTOM_AUTH_KEY with
  | None => true
  | Some key =>
      if String.eqb key "" then true
      else
        match header_Authorization request with
        | None => false
        | Some authHeader =>
            if String.eqb authHeader "" then false
            else if negb (String.prefix "Bearer " authHeader) then false
            else
              let token := substring_from 7 authHeader in
              String.eqb token key
        end
  end.

Variable env : request_env.

(** The [try] block of the route [/v1/messages]. *)
Definition messages_try (request : request) : M answer :=
  text <- (match request_body request with
           | BodyText text => ret text
           | BodyFails err => throw err
           end) ;;
  claudeRequest <- lift (JSON_parse text) ;;
  print LOG ("Received Claude request: " +:+ JSON_pretty claudeRequest) ;;
  openaiRequest <- lift (convertClaudeToOpenAI JSON_stringify ToString claudeRequest) ;;
  print LOG ("Converted to OpenAI request: " +:+ JSON_pretty openaiRequest) ;;
  response <- makeRequestWithRetry (attempts env) openaiRequest default_maxRetries ;;
  if negb (ok response) then ret (Relayed response)
  else
    stream <- lift (get claudeRequest "stream") ;;
    if truthy stream then
      match body_reader env response with
      | None => throw {| err_name := "Error";
                         err_message := "Response body is not readable" |}
      | Some up =>
          ret (Response 200
                 [("Content-Type", "text/event-stream; charset=utf-8");
                  ("Cache-Control", "no-cache");
                  ("Connection", "keep-alive");
                  ("Access-Control-Allow-Origin", "*")]
                 (Stream_body up))
      end
    else
      text' <- response_text response ;;
      openaiResponse <- lift (JSON_parse text') ;;
      print LOG ("Received OpenAI response: " +:+ JSON_pretty openaiResponse) ;;
      claudeResponse <-
        lift (convertOpenAIToClaude JSON_parse ToString (clock env) openaiResponse) ;;
      print LOG ("Converted to Claude response: " +:+ JSON_pretty claudeResponse) ;;
      ret (Response 200 JSON_CORS (JSON_body claudeResponse)).

(** Its [catch] block. *)
Definition messages_catch (error : js_error) : M answer :=
  print ERROR ("Error: " +:+ err_message error) ;;
  stats <- gets ApiKeyManager.getStats ;;
  print LOG ("Current key stats: " +:+ stats_text stats) ;;
  ret (Response 500 JSON_CORS
         (JSON_body
            (JObj [("error",
                    JObj [("type", JStr "proxy_error");
                          ("message", JStr ("Proxy error: " +:+ err_message error));
                          ("keyStats", stats_json stats)])]))).

Definition handleRequest (request : request) : M answer :=
  if String.eqb (method request) "OPTIONS" then
    ret (Response 204
           [("Access-Control-Allow-Origin", "*");
            ("Access-Control-Allow-Methods", "POST, GET, OPTIONS");
            ("Access-Control-Allow-Headers",
             "Content-Type, Authorization, x-api-key, anthropic-version")]
           Null_body)
  else if String.eqb (pathname request) "/health" then
    stats <- gets ApiKeyManager.getStats ;;
    ret (Response 200 [("Content-Type", "application/json")]
           (JSON_body (JObj [("status", JStr "OK");
                             ("keyStats", stats_json stats);
                             ("timestamp", JStr (timestamp env))])))
  else if String.eqb (pathname request) "/v1/messages"
          && String.eqb (method request) "POST" then
    if negb (validateBearerToken request) then
      ret (Response 401 JSON_CORS
             (JSON_body
                (JObj [("error",
                        JObj [("type", JStr "authentication_error");
                              ("message", JStr "Invalid or missing Bearer token")])])))
    else try_catch (messages_try request) messages_catch
  else
    ret (Response 404 [] (Text_body "Not Found. Use /v1/messages for API calls.")).

End Gateway.

(** ** Vocabulary of the properties *)

(** *** Histories of the key manager *)

Definition no_undefined (m : JsMap) : Prop := Map_has None m = false.

(** The failure map left by the loop over [failedKeys.entries()]. *)
Fixpoint purged (now : Z) (entries : list (jskey * Z)) (m : JsMap) : JsMap :=
  match entries with
  | [] => m
  | (key, failTime) :: rest =>
      purged now rest (if now - failTime >? FAILURE_TIMEOUT then Map_delete key m else m)
  end.

(** [availableKeys] as [getKey] computes it at time [now]. *)
Definition eligible (now : Z) (km : ApiKeyManager) : list string :=
  ApiKeyManager.availableKeys
    (ApiKeyManager.set_failedKeys (purged now (failedKeys km)) km).

(** The calls a client makes on the manager, with the clock reading each
    one takes. *)
Inductive pool_call :=
| CallGetKey (now : Z)
| CallMarkFailed (now : Z) (key : string) (error : option string).

Definition time_of (c : pool_call) : Z :=
  match c with
  | CallGetKey now => now
  | CallMarkFailed now _ _ => now
  end.

(** What a [getKey] call answered, and whether it took the branch that
    clears the failure map ([availableKeys.length === 0]). *)
Record selection := { selected : jskey; forced : bool }.

Fixpoint run_calls (calls : list pool_call) : M (list selection) :=
  match calls with
  | [] => ret []
  | CallGetKey now :: rest =>
      empty <- gets (fun km => (length (eligible now km) =? 0)%nat) ;;
      key <- ApiKeyManager.getKey now ;;
      answers <- run_calls rest ;;
      ret ({| selected := key; forced := empty |} :: answers)
  | CallMarkFailed now key error :: rest =>
      ApiKeyManager.markKeyAsFailed now (Some key) error ;;
      run_calls rest
  end.

(** Consecutive [getKey] calls at the given clock readings. *)
Fixpoint getKeys (times : list Z) : M (list jskey) :=
  match times with
  | [] => ret []
  | now :: rest =>
      key <- ApiKeyManager.getKey now ;;
      others <- getKeys rest ;;
      ret (key :: others)
  end.

(** The process right after [new ApiKeyManager(ks)]. *)
Definition boot (ks : list string) : world :=
  snd (ApiKeyManager.new ks
         {| keyManager := {| keys := []; currentIndex := 0; failedKeys := [] |};
            console := []; network := []; timers := [] |}).

(** *** Frames of a streamed exchange *)

Definition is_message_start (f : frame) : bool := String.eqb (event f) "message_start".
Definition is_message_stop (f : frame) : bool := String.eqb (event f) "message_stop".
Definition payload_type (f : frame) : jsval := opt_get (data f) "type".
Definition is_block_start (f : frame) : bool :=
  strict_eq_str (payload_type f) "content_block_start".
Definition is_block_delta (f : frame) : bool :=
  strict_eq_str (payload_type f) "content_block_delta".
Definition is_content (f : frame) : bool := is_block_start f || is_block_delta f.
Definition block_index (f : frame) : jsval := opt_get (data f) "index".

(** The ordering invariant as the specification words it: a [message_start]
    precedes every content event, and a delta for block [i] comes after a
    start event for block [i]. *)
Definition ordering_invariant (l : list frame) : Prop :=
  forall before f after, l = before ++ f :: after ->
    (is_content f = true -> existsb is_message_start before = true) /\
    (is_block_delta f = true ->
     exists g, In g before /\ is_block_start g = true /\ block_index g = block_index f).

(** JSON text written with apostrophes in place of double quotes. *)
Fixpoint dq (s : string) : string :=
  match s with
  | String c rest => String (if Ascii.eqb c "'"%char then Json.quote else c) (dq rest)
  | EmptyString => EmptyString
  end.

(** *** Worlds and failure records *)

(** The manager replaced and lines added to the console. *)
Definition evolve (km : ApiKeyManager) (lines : list (level * string)) (w : world) : world :=
  {| keyManager := km; console := console w ++ lines;
     network := network w; timers := timers w |}.

(** [c] carries a failure record, and every record of [c] dates from [t]
    or later. *)
Definition quarantined (c : string) (t : Z) (m : JsMap) : Prop :=
  (exists t', In (Some c, t') m) /\ (forall t', In (Some c, t') m -> t <= t').

Definition is_mark (c : pool_call) : bool :=
  match c with
  | CallMarkFailed _ _ _ => true
  | CallGetKey _ => false
  end.

(** *** Attempts of makeRequestWithRetry *)

(** Statuses with which [new_Response] accepts a body text. *)
Definition accepts_body (s : Z) : bool :=
  negb ((s <? 200) || (599 <? s)) && negb (null_body_status s).

(** The call that an attempt holding the key [k] sends. *)
Definition call_with (k : string) (openaiRequest : jsval) : outbound :=
  {| authorization := "Bearer " +:+ k; body := openaiRequest |}.

Definition CORS_JSON : list (string * string) :=
  [("Access-Control-Allow-Origin", "*"); ("Content-Type", "application/json")].

Definition attempt_line (attempt maxRetries : nat) (k : string) : level * string :=
  (LOG, "Attempt " +:+ dec attempt +:+ "/" +:+ dec maxRetries
        +:+ " with key: " +:+ String.substring 0 8 k +:+ "...").

(** The state left by the [catch] block entered with [error] after the
    call was sent. *)
Definition caught (e : attempt_env) (openaiRequest : jsval) (attempt maxRetries : nat)
    (k : string) (w : world) (error : js_error) : world :=
  {| keyManager :=
       ApiKeyManager.set_failedKeys (Map_set (Some k) (t_mark e)) (keyManager w);
     console := console w ++
       [attempt_line attempt maxRetries k;
        (ERROR, "Marked key as failed: " +:+ String.substring 0 8 k +:+ "... Error: "
                +:+ str_or (Some (err_message error)) "Unknown");
        (ERROR, "Attempt " +:+ dec attempt +:+ " failed with exception: "
                +:+ err_message error)];
     network := network w ++ [call_with k openaiRequest]; timers := timers w |}.

(** An outcome of [fetch] that makes the attempt fail. *)
Definition fails (f : fetch_result) : bool :=
  match f with
  | Resolves r => negb (ok r)
  | Rejects _ => true
  end.

(** What follows the last attempt. *)
Definition finish (env : nat -> attempt_env) (openaiRequest : jsval) (maxRetries : nat)
    (outcome : option response * string) : M response :=
  match outcome with
  | (Some response, _) => ret response
  | (None, lastError) =>
      sleep (1000 * Z.of_nat maxRetries) ;;
      retry_loop env openaiRequest maxRetries 0 (S maxRetries) lastError
  end.

(** An upstream that gives the same answer to every call, met at time [t]. *)
Definition answering (f : fetch_result) (t : Z) : attempt_env :=
  {| t_select := t; reply := fun _ => f; t_mark := t + 1 |}.

Definition http (s : Z) (text : string) : fetch_result :=
  Resolves {| status := s; payload := BodyText text; headers := [] |}.

Definition undefined_substring : js_error :=
  TypeError "Cannot read properties of undefined (reading 'substring')".

(** *** Streamed exchanges *)

(** Reading the frames from left to right while remembering whether a
    [message_start] has passed: [None] when a second [message_start] or a
    block start without [message_start] is met. *)
Fixpoint scan (seen : bool) (l : list frame) : option bool :=
  match l with
  | [] => Some seen
  | f :: rest =>
      if is_message_start f then
        (if seen || is_block_start f then None else scan true rest)
      else if is_block_start f then (if seen then scan seen rest else None)
      else scan seen rest
  end.

(** A state reached while the read loop runs. *)
Record tracked (s : stream_state) : Prop := {
  tr_scan : exists b,
      scan false (offered s) = Some b /\
      (toolCallStarted s = false -> b = false) /\
      (streamClosed s = false -> b = toolCallStarted s);
  tr_open : streamClosed s = false ->
            enqueued s = offered s /\
            existsb is_block_start (offered s) = toolCallStarted s;
  tr_stop : existsb is_message_stop (offered s) = false;
  tr_prefix : exists rest, offered s = enqueued s ++ rest;
}.

(** The outcome [res] of a step taken from [s] is tracked; the step has
    not finished the stream, and a consumer that never cancels still never
    cancels. *)
Definition keeps {A} (s : stream_state) (res : completion A * stream_state) : Prop :=
  tracked (snd res) /\
  (finished (snd res) = finished s /\ (demand s = None -> demand (snd res) = None)).

(** What the read loop leaves behind, by the way it ends. *)
Definition loop_outcome (failure : option js_error) (s : stream_state)
    (res : completion loop_exit * stream_state) : Prop :=
  keeps s res /\
  match fst res with
  | Normal Done => failure = None /\ streamClosed (snd res) = false
  | Normal Closed => streamClosed (snd res) = true
  | Throw e => failure = Some e /\ streamClosed (snd res) = false
  end.

(** The frames of a finished exchange, given the outcome of its read loop:
    after [done] the stop frame is handed over and either accepted or met
    by a cancelled consumer; otherwise nothing is added. *)
Definition exchange_frames (loop : completion loop_exit * stream_state)
    (s : stream_state) : Prop :=
  let s1 := snd loop in
  let stop := message_stop (toolCallStarted s1) in
  match fst loop with
  | Normal Done =>
      offered s = offered s1 ++ [stop] /\
      ((enqueued s = enqueued s1 ++ [stop] /\ streamClosed s = false /\
        cancelled s1 = false) \/
       (enqueued s = enqueued s1 /\ streamClosed s = true /\ cancelled s1 = true))
  | _ => offered s = offered s1 /\ enqueued s = enqueued s1
  end.

(** *** Sample data *)

(** A stream that carries one text fragment. *)
Definition text_stream : upstream :=
  {| chunks := [dq "data: {'choices':[{'delta':{'content':'hi'}}]}" +:+ LF];
     failure := None |}.

Definition text_delta (text : string) : frame :=
  {| event := "content_block_delta";
     data := JObj [("type", JStr "content_block_delta"); ("index", JNum 0);
                   ("delta", JObj [("type", JStr "text_delta"); ("text", JStr text)])] |}.

(** A stream that carries one tool call: its start, an argument fragment
    split over two chunks, and the termination marker. *)
Definition tool_call_stream : upstream :=
  {| chunks :=
       [ dq "data: {'id':'X','model':'m','choices':[{'delta':{'tool_calls':[{'index':0,'id':'call_1','function':{'name':'f','arguments':''}}]}}]}"
         +:+ LF +:+ "da";
         dq "ta: {'choices':[{'delta':{'tool_calls':[{'index':0,'function':{'arguments':'{\'a\':1}'}}]}}]}"
         +:+ LF +:+ "data: [DONE]" +:+ LF ];
     failure := None |}.

Definition tool_message_start : frame :=
  {| event := "message_start";
     data := JObj [("type", JStr "message");
                   ("message",
                    JObj [("id", JStr "X"); ("type", JStr "message");
                          ("role", JStr "assistant"); ("content", JArr []);
                          ("model", JStr "m"); ("stop_reason", JNull);
                          ("stop_sequence", JNull);
                          ("usage", JObj [("input_tokens", JNum 0);
                                          ("output_tokens", JNum 0)])])] |}.

Definition tool_block_start : frame :=
  {| event := "content_block_delta";
     data := JObj [("type", JStr "content_block_start"); ("index", JNum 0);
                   ("content_block",
                    JObj [("type", JStr "tool_use"); ("id", JStr "call_1");
                          ("name", JStr "f"); ("input", JObj [])])] |}.

Definition tool_arguments : frame :=
  {| event := "content_block_delta";
     data := JObj [("type", JStr "content_block_delta"); ("index", JNum 0);
                   ("delta", JObj [("type", JStr "input_json_delta");
                                   ("partial_json", JStr (dq "{'a':1}"))])] |}.

(** A non-streaming response that ends with [finish_reason: stop]. *)
Definition stop_response : jsval :=
  JObj [("id", JStr "chatcmpl-1"); ("model", JStr "m");
        ("choices", JArr [JObj [("message", JObj [("role", JStr "assistant");
                                                  ("content", JStr "Hello")]);
                                ("finish_reason", JStr "stop")]])].

(** A request that asks for temperature 0. *)
Definition zero_temperature_request : jsval :=
  JObj [("model", JStr "claude-sonnet-4-20250514");
        ("messages", JArr [JObj [("role", JStr "user"); ("content", JStr "hi")]]);
        ("temperature", JNum 0)].


(** *** Vocabulary of the further properties *)

(** A [Map] holds one record per key. *)
Definition unique_keys (m : JsMap) : Prop := NoDup (map fst m).

(** A failure record that [getKey] keeps at time [now]. *)
Definition unexpired (now : Z) (e : jskey * Z) : bool :=
  negb (now - snd e >? FAILURE_TIMEOUT).

(** The keys a call of the history marks as failed belong to [ks]. *)
Definition marks_within (ks : list string) (c : pool_call) : Prop :=
  match c with
  | CallMarkFailed _ key _ => In key ks
  | CallGetKey _ => True
  end.

(** What holds of a manager built over [ks] as long as only keys of
    [ks] are marked as failed. *)
Definition pool_invariant (ks : list string) (km : ApiKeyManager) : Prop :=
  keys km = ks /\ unique_keys (failedKeys km) /\
  forall e, In e (failedKeys km) -> exists k, fst e = Some k /\ In k ks.

(** The delays of the attempts numbered [first], [first + 1], ... *)
Definition delays (first count : nat) : list Z :=
  map (fun attempt => 1000 * Z.of_nat attempt) (seq first count).

(** The content of a translated message: a list of blocks becomes the
    texts of the blocks, one per line; a block without text is written
    as JSON. *)
Definition flattened (JSON_stringify : jsval -> string) (ToString : jsval -> string)
    (content : jsval) : jsval :=
  match content with
  | JArr blocks =>
      JStr (join_LF ToString
              (map (fun c => js_or (opt_get c "text") (JStr (JSON_stringify c))) blocks))
  | _ => content
  end.

Definition translated_message (JSON_stringify : jsval -> string)
    (ToString : jsval -> string) (msg out : jsval) : Prop :=
  out = JObj [("role", opt_get msg "role");
              ("content", flattened JSON_stringify ToString (opt_get msg "content"))].

Definition translated_tool (tool out : jsval) : Prop :=
  out = JObj [("type", JStr "function");
              ("function", JObj [("name", opt_get tool "name");
                                 ("description", opt_get tool "description");
                                 ("parameters", opt_get tool "input_schema")])].

(** The block that stands for one tool call of a response. *)
Definition tool_use_block (JSON_parse : string -> completion jsval)
    (ToString : jsval -> string) (call block : jsval) : Prop :=
  nullish call = false /\ nullish (opt_get call "function") = false /\
  exists input,
    JSON_parse (to_text ToString (opt_get (opt_get call "function") "arguments"))
    = Normal input /\
    block = JObj [("type", JStr "tool_use"); ("id", opt_get call "id");
                  ("name", opt_get (opt_get call "function") "name");
                  ("input", input)].

(** The usage object of a translated response. *)
Definition translated_usage (openaiResponse : jsval) : jsval :=
  let usage := opt_get openaiResponse "usage" in
  if truthy usage then
    JObj [("input_tokens", opt_get usage "prompt_tokens");
          ("output_tokens", opt_get usage "completion_tokens")]
  else JUndefined.

(** The names of the own properties of an object, in order. *)
Definition keys_of (v : jsval) : list string :=
  match v with
  | JObj props => map fst props
  | _ => []
  end.

(** A request as the inbound dialect types it, as far as the translation
    reads it. *)
Definition readable_content (content : jsval) : Prop :=
  match content with
  | JArr blocks => Forall (fun c => nullish c = false) blocks
  | _ => True
  end.
Definition readable_request (claudeRequest : jsval) : Prop :=
  exists messages,
    opt_get claudeRequest "messages" = JArr messages /\
    Forall (fun msg => nullish msg = false /\ readable_content (opt_get msg "content"))
      messages /\
    (nullish (opt_get claudeRequest "tools") = true \/
     exists tools, opt_get claudeRequest "tools" = JArr tools /\
                   Forall (fun tool => nullish tool = false) tools).

(** Two states of the stream loop with the same flags and the same
    controller: they may differ in the buffer and in the console. *)
Definition same_output (s1 s2 : stream_state) : Prop :=
  toolCallStarted s1 = toolCallStarted s2 /\ streamClosed s1 = streamClosed s2 /\
  offered s1 = offered s2 /\ enqueued s1 = enqueued s2 /\
  demand s1 = demand s2 /\ finished s1 = finished s2.

(** A step whose result and whose effect on flags and controller depend
    on nothing else. *)
Definition respects {A} (m : Stream A) : Prop :=
  forall s1 s2, same_output s1 s2 ->
    fst (m s1) = fst (m s2) /\ same_output (snd (m s1)) (snd (m s2)).

(** A step that keeps the property [I] of the state. *)
Definition stable (I : stream_state -> Prop) {A} (m : Stream A) : Prop :=
  forall s, I s -> I (snd (m s)).

(** The frames the reframer writes: [message_start] around a message
    envelope, [message_stop], and [content_block_delta] around a block
    start or a block delta. *)
Definition known_frame (f : frame) : bool :=
  (String.eqb (event f) "message_start" && strict_eq_str (payload_type f) "message")
  || (String.eqb (event f) "message_stop" && strict_eq_str (payload_type f) "message_stop")
  || (String.eqb (event f) "content_block_delta" && is_content f).

(** The three events [convertOpenAIStreamToClaude] builds. *)
Definition block_start_event (index id name : jsval) : jsval :=
  JObj [("type", JStr "content_block_start"); ("index", index);
        ("content_block",
         JObj [("type", JStr "tool_use"); ("id", id); ("name", name); ("input", JObj [])])].
Definition arguments_event (index arguments : jsval) : jsval :=
  JObj [("type", JStr "content_block_delta"); ("index", index);
        ("delta", JObj [("type", JStr "input_json_delta"); ("partial_json", arguments)])].
Definition text_event (content : jsval) : jsval :=
  JObj [("type", JStr "content_block_delta"); ("index", JNum 0);
        ("delta", JObj [("type", JStr "text_delta"); ("text", content)])].

(** Two runs of the stream loop on the same upstream, the first for a
    consumer that accepts [n] frames, the second for a consumer that
    never cancels.  Before the first refusal they move in step. *)
Definition in_step (n : nat) (s1 s2 : stream_state) : Prop :=
  buffer s1 = buffer s2 /\
  streamClosed s1 = false /\ streamClosed s2 = false /\
  toolCallStarted s1 = toolCallStarted s2 /\
  enqueued s1 = enqueued s2 /\
  (exists m, demand s1 = Some m /\ (m + length (enqueued s1) = n)%nat) /\
  demand s2 = None /\ finished s1 = None /\ finished s2 = None.

(** After the refusal the first run has delivered the [n] frames [E]
    and stays closed; the second run goes on from [E]. *)
Definition cut_short (E : list frame) (s : stream_state) : Prop :=
  streamClosed s = true /\ enqueued s = E.
Definition going_on (E : list frame) (s : stream_state) : Prop :=
  exists rest, enqueued s = E ++ rest.
Definition parted (n : nat) (s1 s2 : stream_state) : Prop :=
  exists E, length E = n /\ cut_short E s1 /\ going_on E s2.

(** A step taken by both runs keeps them in step with the same result,
    or parts them. *)
Definition in_pair {A} (n : nat) (m : Stream A) : Prop :=
  forall s1 s2, in_step n s1 s2 ->
    (fst (m s1) = fst (m s2) /\ in_step n (snd (m s1)) (snd (m s2))) \/
    parted n (snd (m s1)) (snd (m s2)).

(** A step that changes neither outcome once the runs have parted. *)
Definition aside {A} (m : Stream A) : Prop :=
  forall E, stable (cut_short E) m /\ stable (going_on E) m.

Definition all_known (s : stream_state) : Prop :=
  Forall (fun f => known_frame f = true) (offered s) /\
  Forall (fun f => known_frame f = true) (enqueued s).

(** At most one frame has been handed over without being accepted. *)
Definition one_refused (s : stream_state) : Prop :=
  (streamClosed s = false -> offered s = enqueued s) /\
  (offered s = enqueued s \/ exists f, offered s = enqueued s ++ [f]).

(** The loop closes its side only after the controller refused a frame. *)
Definition closed_by_cancel (s : stream_state) : Prop :=
  streamClosed s = true -> cancelled s = true.

(** The text made of the given lines, each ended by a line feed. *)
Definition lines_text (lines : list string) : string :=
  String.concat EmptyString (map (fun line => line +:+ LF) lines).

(** A text without line feed. *)
Definition one_line (text : string) : Prop := split_LF text = [text].

(** A line for which the loop writes no frame: it is not a [data: ]
    line, it is the [[DONE]] marker, its data fails to parse or to
    convert, or it converts to [null]. *)
Definition silent (JSON_parse : string -> completion jsval) (line : string) : bool :=
  if String.prefix "data: " (trim line) then
    let dataStr := trim (substring_from 5 (trim line)) in
    String.eqb dataStr "[DONE]" ||
    match (openaiChunk <-! JSON_parse dataStr ;;
           convertOpenAIStreamToClaude openaiChunk) with
    | Normal claudeEvent => negb (truthy claudeEvent)
    | Throw _ => true
    end
  else true.

(** A key as the configuration keeps it: not empty, without white space
    around it, without comma. *)
Definition clean_key (key : string) : Prop :=
  key <> EmptyString /\ trim key = key /\ split_comma key = [key].

(** No comma in a text. *)
Fixpoint comma_free (s : string) : bool :=
  match s with
  | String c rest => negb (Ascii.eqb c ","%char) && comma_free rest
  | EmptyString => true
  end.

(** The bodies of the responses the handler builds for failures. *)
Definition authentication_error : jsval :=
  JObj [("error", JObj [("type", JStr "authentication_error");
                        ("message", JStr "Invalid or missing Bearer token")])].

Definition proxy_error (error : js_error) (s : ApiKeyManager.stats) : jsval :=
  JObj [("error", JObj [("type", JStr "proxy_error");
                        ("message", JStr ("Proxy error: " +:+ err_message error));
                        ("keyStats", stats_json s)])].

Definition event_stream_headers : list (string * string) :=
  [("Content-Type", "text/event-stream; charset=utf-8");
   ("Cache-Control", "no-cache");
   ("Connection", "keep-alive");
   ("Access-Control-Allow-Origin", "*")].

(** The messages route for a request that carries a valid token. *)
Definition accepted (CUSTOM_AUTH_KEY : option string) (r : request) : Prop :=
  String.eqb (method r) "OPTIONS" = false /\
  pathname r = "/v1/messages" /\ method r = "POST" /\
  validateBearerToken CUSTOM_AUTH_KEY r = true.

(** The state in which the retry starts: two lines have been logged. *)
Definition logged (JSON_pretty : jsval -> string) (claudeRequest openaiRequest : jsval)
    (w : world) : world :=
  evolve (keyManager w)
    [(LOG, "Received Claude request: " +:+ JSON_pretty claudeRequest);
     (LOG, "Converted to OpenAI request: " +:+ JSON_pretty openaiRequest)] w.

Definition not_readable : js_error :=
  {| err_name := "Error"; err_message := "Response body is not readable" |}.

(** Renderings that write nothing, for runs whose log lines do not
    matter. *)
Definition blank : jsval -> string := fun _ => EmptyString.

(** A request on the messages route with the token [secret]. *)
Definition sample_request (token body : string) : request :=
  {| method := "POST"; pathname := "/v1/messages";
     header_Authorization := Some ("Bearer " +:+ token);
     request_body := BodyText body |}.

Definition sample_body : string :=
  dq "{'messages':[{'role':'user','content':'hi'}]}".

Definition sample_claude : jsval :=
  JObj [("messages", JArr [JObj [("role", JStr "user"); ("content", JStr "hi")]])].

Definition sample_openai : jsval :=
  JObj [("model", JStr "anthropic/claude-4-sonnet");
        ("messages", JArr [JObj [("role", JStr "user"); ("content", JStr "hi")]]);
        ("max_tokens", JNum 4096); ("temperature", JNum 0.7);
        ("stream", JBool false)].

(** An upstream that gives the same answer to every attempt. *)
Definition sample_env (f : fetch_result) : request_env :=
  {| attempts := fun n => answering f (Z.of_nat n);
     clock := 0;
     timestamp := "2025-01-01T00:00:00.000Z";
     body_reader := fun _ => Some text_stream |}.

(** The first fragment of a tool call. *)
Definition start_chunk : jsval :=
  JObj [("choices",
         JArr [JObj [("delta",
                      JObj [("tool_calls",
                             JArr [JObj [("index", JNum 0); ("id", JStr "call_1");
                                         ("function", JObj [("name", JStr "f")])]])])]])].

(** A fragment with an empty list of tool calls beside its text. *)
Definition empty_calls_choice : jsval :=
  JObj [("delta", JObj [("tool_calls", JArr []); ("content", JStr "hi")])].
Definition empty_calls_chunk : jsval := JObj [("choices", JArr [empty_calls_choice])].
Definition empty_calls_line : string :=
  dq "data: {'choices':[{'delta':{'tool_calls':[],'content':'hi'}}]}".

(** A response that carries one tool call. *)
Definition tool_call : jsval :=
  JObj [("id", JStr "call_1");
        ("function", JObj [("name", JStr "f"); ("arguments", JStr (dq "{'a':1}"))])].
Definition tool_choice_sample : jsval :=
  JObj [("message", JObj [("tool_calls", JArr [tool_call])]);
        ("finish_reason", JStr "tool_calls")].
Definition tool_response : jsval :=
  JObj [("id", JStr "r1"); ("model", JStr "m"); ("choices", JArr [tool_choice_sample])].

(** The translation of [stop_response]. *)
Definition stop_translated : jsval :=
  JObj [("id", JStr "chatcmpl-1"); ("type", JStr "message"); ("role", JStr "assistant");
        ("content", JArr [JObj [("type", JStr "text"); ("text", JStr "Hello")]]);
        ("model", JStr "m");
        ("stop_reason", JStr "end_turn"); ("stop_sequence", JNull);
        ("usage", JUndefined)].

(** *** Tool calls in the upstream text *)

(** The complete lines of the text read: what follows the last line feed
    is not one of them. *)
Definition complete_lines (chunks : list string) : list string :=
  removelast (split_LF (String.concat EmptyString chunks)).

(** The fragment of a line: the parsed data of a [data: ] line that is
    not the [[DONE]] marker. *)
Definition line_fragment (JSON_parse : string -> completion jsval) (line : string)
  : option jsval :=
  if String.prefix "data: " (trim line) then
    let dataStr := trim (substring_from 5 (trim line)) in
    if String.eqb dataStr "[DONE]" then None
    else match JSON_parse dataStr with
         | Normal openaiChunk => Some openaiChunk
         | Throw _ => None
         end
  else None.

(** A fragment that announces the tool call at index 0: the first entry
    of [delta.tool_calls] in its first choice has [index] 0, a truthy
    [id] and a [function]. *)
Definition announces_tool_call (openaiChunk : jsval) : bool :=
  match first_choice openaiChunk with
  | Normal choice =>
      let tool_calls := opt_get (opt_get choice "delta") "tool_calls" in
      let toolCall := opt_get0 tool_calls in
      truthy choice && truthy tool_calls
      && strict_eq_int (opt_get toolCall "index") 0 && truthy (opt_get toolCall "id")
      && negb (nullish (opt_get toolCall "function"))
  | Throw _ => false
  end.

(** A fragment that carries a tool call, whatever its index: the list
    [delta.tool_calls] of its first choice has an entry. *)
Definition carries_tool_call (openaiChunk : jsval) : bool :=
  match first_choice openaiChunk with
  | Normal choice =>
      match opt_get (opt_get choice "delta") "tool_calls" with
      | JArr (_ :: _) => true
      | _ => false
      end
  | Throw _ => false
  end.

Definition some_fragment (JSON_parse : string -> completion jsval)
    (test : jsval -> bool) (lines : list string) : bool :=
  existsb (fun line => match line_fragment JSON_parse line with
                       | Some openaiChunk => test openaiChunk
                       | None => false
                       end) lines.

(** The tool call at index 0 is announced on a complete line of the
    upstream text. *)
Definition tool_call_announced (JSON_parse : string -> completion jsval)
    (up : upstream) : bool :=
  some_fragment JSON_parse announces_tool_call (complete_lines (chunks up)).

(** A tool call occurs on a complete line of the upstream text. *)
Definition tool_call_occurred (JSON_parse : string -> completion jsval)
    (up : upstream) : bool :=
  some_fragment JSON_parse carries_tool_call (complete_lines (chunks up)).

(** The stop frame tells whether a tool call occurred during the
    exchange. *)
Definition stop_flag_reports_tool_calls (JSON_parse : string -> completion jsval)
    (up : upstream) : Prop :=
  forall body flag,
    emitted JSON_parse up None = body ++ [message_stop flag] ->
    flag = tool_call_occurred JSON_parse up.

(** A stream whose only tool call has index 1. *)
Definition second_call_stream : upstream :=
  {| chunks :=
       [ dq "data: {'id':'X','model':'m','choices':[{'delta':{'tool_calls':[{'index':1,'id':'call_2','function':{'name':'g','arguments':'{}'}}]}}]}"
         +:+ LF ];
     failure := None |}.

Definition second_call_arguments : frame :=
  {| event := "content_block_delta"; data := arguments_event (JNum 1) (JStr "{}") |}.

(** *** Responses that are not 2xx *)

(** A response that is neither 2xx nor 401 nor 403 leaves the failure
    map of the attempt as it was. *)
Definition other_status_keeps_map (e : attempt_env) (openaiRequest : jsval)
    (attempt maxRetries : nat) (k : string) (w : world) : Prop :=
  forall r,
    reply e (call_with k openaiRequest) = Resolves r ->
    ok r = false -> status r <> 401 -> status r <> 403 ->
    failedKeys (keyManager (snd (try_attempt e openaiRequest attempt maxRetries (Some k) w)))
    = failedKeys (keyManager w).

(** A 500 response whose body cannot be read. *)
Definition connection_lost : js_error := TypeError "error reading a body from connection".
Definition unread_500 : fetch_result :=
  Resolves {| status := 500; payload := BodyFails connection_lost; headers := [] |}.

(** *** Responses without tool calls *)

(** A response whose message carries its text beside an empty list of
    tool calls. *)
Definition no_calls_response : jsval :=
  JObj [("id", JStr "chatcmpl-2"); ("model", JStr "m");
        ("choices", JArr [JObj [("message", JObj [("role", JStr "assistant");
                                                  ("content", JStr "Hello");
                                                  ("tool_calls", JArr [])]);
                                ("finish_reason", JStr "stop")]])].

(** *** Values with a string conversion *)

(** ToString returns on [v]: an object converts through
    [Object.prototype.toString] unless a member of its own hides it (a
    member read from JSON is never a function), an array converts its
    elements. *)
Fixpoint printable (v : jsval) : bool :=
  match v with
  | JArr items => forallb printable items
  | JObj props => negb (existsb (fun p => String.eqb (fst p) "toString") props)
  | _ => true
  end.

Definition printable_content (content : jsval) : bool :=
  match content with
  | JArr blocks => forallb (fun c => printable (opt_get c "text")) blocks
  | _ => true
  end.

(** The values that [convertClaudeToOpenAI] converts to strings, the
    model name and the texts of the blocks, have a string conversion. *)
Definition printable_request (claudeRequest : jsval) : bool :=
  printable (opt_get claudeRequest "model") &&
  match opt_get claudeRequest "messages" with
  | JArr messages => forallb (fun msg => printable_content (opt_get msg "content")) messages
  | _ => true
  end.

(** A request whose message is a list of blocks, one of them without
    text. *)
Definition blocks_request : jsval :=
  JObj [("model", JStr "claude-opus-4-20250514");
        ("messages",
         JArr [JObj [("role", JStr "user");
                     ("content", JArr [JObj [("type", JStr "text"); ("text", JStr "look")];
                                       JObj [("type", JStr "image")]])]])].

(** * Properties *)

Import ApiKeyManager.

(** ** The failure map *)

Lemma jskey_eqb_eq a b : jskey_eqb a b = true <-> a = b.
Proof.
  destruct a as [x|], b as [y|]; simpl; try (split; congruence).
  rewrite String.eqb_eq. split; congruence.
Qed.

Lemma jskey_eqb_refl a : jskey_eqb a a = true.
Proof. by apply jskey_eqb_eq. Qed.

Lemma jskey_eqb_neq a b : jskey_eqb a b = false <-> a <> b.
Proof.
  rewrite <- jskey_eqb_eq. destruct (jskey_eqb a b); split; congruence.
Qed.

Lemma Map_has_true k (m : JsMap) : Map_has k m = true <-> exists t, In (k, t) m.
Proof.
  unfold Map_has. rewrite existsb_exists. split.
  - intros [[k' t] [Hin Heq]]. apply jskey_eqb_eq in Heq. simpl in Heq. subst. eauto.
  - intros [t Hin]. exists (k, t). split; [done|]. apply jskey_eqb_refl.
Qed.

Lemma In_Map_delete k e (m : JsMap) : In e (Map_delete k m) <-> In e m /\ fst e <> k.
Proof.
  unfold Map_delete. rewrite filter_In, negb_true_iff, jskey_eqb_neq. tauto.
Qed.

Lemma In_Map_set k v e (m : JsMap) :
  In e (Map_set k v m) <-> e = (k, v) \/ (In e m /\ fst e <> k).
Proof.
  unfold Map_set. destruct (Map_has k m) eqn:Hhas.
  - rewrite in_map_iff. split.
    + intros [[k' t] [Heq Hin]]. simpl in Heq.
      destruct (jskey_eqb k' k) eqn:Hk.
      * left. by symmetry.
      * right. subst e. split; [done|]. by apply jskey_eqb_neq.
    + intros [-> | [Hin Hne]].
      * apply Map_has_true in Hhas as [t Hin]. exists (k, t). simpl.
        by rewrite jskey_eqb_refl.
      * exists e. apply jskey_eqb_neq in Hne. by rewrite Hne.
  - rewrite in_app_iff. simpl. split.
    + intros [Hin | [<- | []]]; [right | by left]. split; [done|].
      intros <-. destruct e as [k' t]. simpl in Hhas.
      assert (Map_has k' m = true) by (apply Map_has_true; eauto). congruence.
    + intros [-> | [Hin _]]; auto.
Qed.

Lemma In_purged now entries e (m : JsMap) :
  In e (purged now entries m) -> In e m.
Proof.
  revert m. induction entries as [|[k t] rest IH]; intros m; simpl; [done|].
  intros Hin. apply IH in Hin. destruct (now - t >? FAILURE_TIMEOUT); [|done].
  by apply In_Map_delete in Hin as [? _].
Qed.

(** An entry survives the purge when no entry of its key has expired. *)
Lemma purged_keeps now entries e (m : JsMap) :
  In e m ->
  (forall t, In (fst e, t) entries -> now - t <= FAILURE_TIMEOUT) ->
  In e (purged now entries m).
Proof.
  revert m. induction entries as [|[k t] rest IH]; intros m Hin Hfresh; simpl; [done|].
  apply IH; [|intros t' Ht'; apply Hfresh; by right].
  destruct (now - t >? FAILURE_TIMEOUT) eqn:Hexp; [|done].
  apply In_Map_delete. split; [done|]. intros Heq.
  specialize (Hfresh t). rewrite Heq in Hfresh.
  assert (now - t <= FAILURE_TIMEOUT) by (apply Hfresh; by left). lia.
Qed.

Lemma no_undefined_set now k (m : JsMap) :
  no_undefined m -> no_undefined (Map_set (Some k) now m).
Proof.
  unfold no_undefined. intros Hm.
  destruct (Map_has None (Map_set (Some k) now m)) eqn:Hhas; [|done].
  apply Map_has_true in Hhas as [t Hin]. apply In_Map_set in Hin as [Heq | [Hin _]].
  - done.
  - assert (Map_has None m = true) by (apply Map_has_true; eauto). congruence.
Qed.

Lemma no_undefined_purged now entries (m : JsMap) :
  no_undefined m -> no_undefined (purged now entries m).
Proof.
  unfold no_undefined. intros Hm.
  destruct (Map_has None (purged now entries m)) eqn:Hhas; [|done].
  apply Map_has_true in Hhas as [t Hin]. apply In_purged in Hin.
  assert (Map_has None m = true) by (apply Map_has_true; eauto). congruence.
Qed.

(** ** getKey and markKeyAsFailed as state transformers *)

Lemma evolve_evolve km1 l1 km2 l2 w :
  evolve km2 l2 (evolve km1 l1 w) = evolve km2 (l1 ++ l2) w.
Proof. unfold evolve. simpl. by rewrite <- app_assoc. Qed.

Lemma restore_spec now entries w :
  (forall e, In e entries -> fst e <> None) ->
  exists lines,
    restore now entries w =
    (Normal tt,
     evolve (set_failedKeys (purged now entries) (keyManager w)) lines w).
Proof.
  revert w. induction entries as [|[k t] rest IH]; intros w Hdef.
  - exists []. simpl. unfold ret. f_equal.
    destruct w as [[ks i m] c n tm]. unfold evolve, set_failedKeys. simpl.
    by rewrite app_nil_r.
  - assert (Hk : k <> None) by (apply (Hdef (k, t)); by left).
    destruct k as [k|]; [clear Hk | done].
    assert (Hrest : forall e, In e rest -> fst e <> None)
      by (intros e He; apply Hdef; by right).
    simpl. destruct (now - t >? FAILURE_TIMEOUT) eqn:Hexp.
    + unfold bind at 1. unfold bind at 1. unfold modify at 1. cbn [fst snd].
      unfold bind at 1. unfold lift, substring_0_8. cbn.
      destruct (IH (evolve (set_failedKeys (Map_delete (Some k)) (keyManager w))
                      [(LOG, "Restored failed key: " +:+ String.substring 0 8 k +:+ "...")] w)
                  Hrest) as [lines Hl].
      unfold evolve at 1 in Hl. cbn in Hl. rewrite Hl.
      eexists. f_equal. rewrite evolve_evolve. f_equal.
    + unfold bind at 1. unfold ret at 1.
      destruct (IH w Hrest) as [lines Hl]. rewrite Hl. by exists lines.
Qed.

Lemma at_mod_Some {A} (arr : list A) i :
  arr <> [] -> exists x, at_mod arr i = Some x /\ In x arr.
Proof.
  intros Hne. unfold at_mod.
  destruct arr as [|a arr]; [done|]. cbn [length Nat.eqb].
  assert (Hlt : (i mod length (a :: arr) < length (a :: arr))%nat)
    by (apply Nat.mod_upper_bound; simpl; lia).
  apply lookup_lt_is_Some_2 in Hlt as [x Hx].
  exists x. split; [done|]. apply list_elem_of_In. by eapply list_elem_of_lookup_2.
Qed.

(** What [getKey] does on a failure map without the key [undefined]. *)
Lemma getKey_spec now w :
  no_undefined (failedKeys (keyManager w)) ->
  let km := keyManager w in
  let m := purged now (failedKeys km) (failedKeys km) in
  let available := eligible now km in
  exists lines,
    getKey now w =
    (Normal (if (length available =? 0)%nat then at_mod (keys km) (currentIndex km)
             else at_mod available (currentIndex km)),
     evolve {| keys := keys km; currentIndex := S (currentIndex km);
               failedKeys := if (length available =? 0)%nat then [] else m |}
            lines w).
Proof.
  intros Hwf km m available.
  assert (Hdef : forall e, In e (failedKeys km) -> fst e <> None).
  { intros [k t] Hin Hk. simpl in Hk. subst k.
    assert (Map_has None (failedKeys km) = true) by (apply Map_has_true; eauto).
    unfold no_undefined in Hwf. fold km in Hwf. congruence. }
  destruct (restore_spec now (failedKeys km) w Hdef) as [lines Hl].
  unfold getKey. unfold bind at 1. unfold gets at 1. cbn [fst snd].
  unfold bind at 1. fold km. rewrite Hl.
  unfold bind at 1. unfold gets at 1.
  change (availableKeys (keyManager (evolve (set_failedKeys (purged now (failedKeys km))
                                               (keyManager w)) lines w)))
    with available.
  destruct (length available =? 0)%nat eqn:Hlen.
  - eexists. cbn. unfold evolve. cbn. f_equal. f_equal. rewrite <- app_assoc. reflexivity.
  - assert (Hne : available <> []).
    { intros Heq. rewrite Heq in Hlen. done. }
    destruct (at_mod_Some available (currentIndex km) Hne) as [x [Hx _]].
    eexists. cbn. fold km.
    unfold available, eligible in Hx. cbn in Hx. fold km in Hx. rewrite Hx. cbn.
    unfold evolve. cbn. f_equal. f_equal. rewrite <- !app_assoc. reflexivity.
Qed.

Lemma run_calls_getKey now rest w k w1 :
  getKey now w = (Normal k, w1) ->
  run_calls (CallGetKey now :: rest) w =
  match run_calls rest w1 with
  | (Normal answers, w2) =>
      (Normal ({| selected := k;
                  forced := (length (eligible now (keyManager w)) =? 0)%nat |} :: answers), w2)
  | (Throw e, w2) => (Throw e, w2)
  end.
Proof.
  intros Hk. cbn [run_calls]. unfold bind at 1. unfold gets at 1. cbn [fst snd].
  unfold bind at 1. rewrite Hk. unfold bind at 1.
  destruct (run_calls rest w1) as [[answers|e] w2]; reflexivity.
Qed.

Lemma run_calls_mark now k error rest w :
  run_calls (CallMarkFailed now k error :: rest) w =
  run_calls rest
    (evolve (set_failedKeys (Map_set (Some k) now) (keyManager w))
       [(ERROR, "Marked key as failed: " +:+ String.substring 0 8 k +:+ "... Error: "
                +:+ str_or error "Unknown")] w).
Proof. reflexivity. Qed.

(** A history of calls never throws on a map without [undefined]. *)
Lemma run_calls_total calls w :
  no_undefined (failedKeys (keyManager w)) ->
  exists answers w',
    run_calls calls w = (Normal answers, w') /\
    no_undefined (failedKeys (keyManager w')).
Proof.
  revert w. induction calls as [|[now | now k error] rest IH]; intros w Hwf.
  - by exists [], w.
  - destruct (getKey_spec now w Hwf) as [lines Hk]. cbv zeta in Hk.
    erewrite run_calls_getKey by exact Hk.
    edestruct IH as (answers & w' & Hrun & Hwf'); [|rewrite Hrun; eauto].
    simpl. destruct (length (eligible now (keyManager w)) =? 0)%nat; [done|].
    by apply no_undefined_purged.
  - rewrite run_calls_mark. apply IH. simpl. by apply no_undefined_set.
Qed.

(** ** Quarantine of a failed key *)

Lemma quarantined_set c t now k (m : JsMap) :
  t <= now -> quarantined c t m -> quarantined c t (Map_set (Some k) now m).
Proof.
  intros Hnow [[t0 Hin] Hlow]. split.
  - destruct (decide (k = c)) as [-> | Hne].
    + exists now. apply In_Map_set. by left.
    + exists t0. apply In_Map_set. right. split; [done|]. simpl. congruence.
  - intros t' Hin'. apply In_Map_set in Hin' as [Heq | [Hin' _]].
    + congruence.
    + by apply Hlow.
Qed.

Lemma quarantined_purged c t now (m : JsMap) :
  now <= t + FAILURE_TIMEOUT ->
  quarantined c t m -> quarantined c t (purged now m m).
Proof.
  intros Hnow [[t0 Hin] Hlow]. split.
  - exists t0. apply purged_keeps; [done|]. simpl. intros t' Hin'.
    apply Hlow in Hin'. lia.
  - intros t' Hin'. apply Hlow. by eapply In_purged.
Qed.

Lemma quarantined_not_eligible c t now km :
  now <= t + FAILURE_TIMEOUT ->
  quarantined c t (failedKeys km) -> ~ In c (eligible now km).
Proof.
  intros Hnow Hq Hin. apply (quarantined_purged c t now _ Hnow) in Hq as [[t0 Ht0] _].
  unfold eligible, availableKeys in Hin. apply filter_In in Hin as [_ Hfree].
  apply negb_true_iff in Hfree. simpl in Hfree.
  assert (Map_has (Some c) (purged now (failedKeys km) (failedKeys km)) = true)
    by (apply Map_has_true; eauto).
  congruence.
Qed.

Lemma quarantine_holds c t calls : forall w answers w',
  no_undefined (failedKeys (keyManager w)) ->
  quarantined c t (failedKeys (keyManager w)) ->
  Forall (fun call => t <= time_of call <= t + FAILURE_TIMEOUT) calls ->
  run_calls calls w = (Normal answers, w') ->
  forall before a after,
    answers = before ++ a :: after ->
    Forall (fun x => forced x = false) (before ++ [a]) ->
    selected a <> Some c.
Proof.
  induction calls as [|[now | now k error] rest IH];
    intros w answers w' Hwf Hq Htimes Hrun before a after Hsplit Hfree.
  - simpl in Hrun. injection Hrun as <- <-. by destruct before.
  - apply Forall_cons in Htimes as [[_ Hnow] Htimes]. simpl in Hnow.
    destruct (getKey_spec now w Hwf) as [lines Hk]. cbv zeta in Hk.
    erewrite run_calls_getKey in Hrun by exact Hk.
    destruct (run_calls rest _) as [[answers'|e] w2] eqn:Hrest; [|done].
    injection Hrun as <- <-.
    destruct (length (eligible now (keyManager w)) =? 0)%nat eqn:Hempty.
    + (* the forced branch contradicts the hypothesis on the flags *)
      destruct before as [|b before]; simpl in Hsplit; injection Hsplit as <- Hsplit.
      * apply Forall_cons in Hfree as [Hf _]. simpl in Hf. done.
      * apply Forall_cons in Hfree as [Hf _]. simpl in Hf. done.
    + destruct before as [|b before]; simpl in Hsplit; injection Hsplit as <- Hsplit.
      * simpl. intros Hsel.
        assert (Hne : eligible now (keyManager w) <> [])
          by (intros Heq; rewrite Heq in Hempty; done).
        destruct (at_mod_Some _ (currentIndex (keyManager w)) Hne) as [x [Hx Hin]].
        rewrite Hx in Hsel. injection Hsel as ->.
        by eapply quarantined_not_eligible.
      * apply Forall_cons in Hfree as [_ Hfree].
        eapply (IH _ _ _ _ _ Htimes Hrest); [exact Hsplit | exact Hfree].
  - apply Forall_cons in Htimes as [[Hnow _] Htimes]. simpl in Hnow.
    rewrite run_calls_mark in Hrun.
    eapply (IH _ _ _ _ _ Htimes Hrun); [exact Hsplit | exact Hfree].
    Unshelve.
    + simpl. by apply no_undefined_purged.
    + simpl. by apply quarantined_purged.
    + simpl. by apply no_undefined_set.
    + simpl. by apply quarantined_set.
Qed.

(** C3 (as amended).  After [markKeyAsFailed(c)] at time [t], in every
    history of [getKey] and [markKeyAsFailed] calls made at times within
    [t, t + 60000], a [getKey] call does not answer [c] as long as neither
    it nor an earlier [getKey] call of the history took the forced branch
    that clears the failure map; and the history never throws. *)
Theorem quarantine_until_reset (w : world) (c : string) (t : Z)
    (error : option string) (calls : list pool_call) :
  no_undefined (failedKeys (keyManager w)) ->
  Forall (fun call => t <= time_of call <= t + FAILURE_TIMEOUT) calls ->
  exists answers,
    fst (run_calls (CallMarkFailed t c error :: calls) w) = Normal answers /\
    forall before a after,
      answers = before ++ a :: after ->
      Forall (fun x => forced x = false) (before ++ [a]) ->
      selected a <> Some c.
Proof.
  intros Hwf Htimes. rewrite run_calls_mark.
  set (w1 := evolve _ _ w).
  assert (Hwf1 : no_undefined (failedKeys (keyManager w1)))
    by (simpl; by apply no_undefined_set).
  destruct (run_calls_total calls w1 Hwf1) as (answers & w' & Hrun & _).
  exists answers. rewrite Hrun. split; [done|].
  eapply (quarantine_holds c t calls w1 answers w' Hwf1); [|done..].
  simpl. split.
  - exists t. apply In_Map_set. by left.
  - intros t' Hin. apply In_Map_set in Hin as [Heq | [_ Hne]]; [|done].
    injection Heq as ->. lia.
Qed.

Lemma quarantine_until_reset_witness :
  exists answers,
    fst (run_calls (CallMarkFailed 0 "a" None :: [CallGetKey 10; CallGetKey 60000])
           (boot ["a"; "b"])) = Normal answers /\
    forall before a after,
      answers = before ++ a :: after ->
      Forall (fun x => forced x = false) (before ++ [a]) ->
      selected a <> Some "a".
Proof.
  apply quarantine_until_reset.
  - reflexivity.
  - repeat constructor; simpl; unfold FAILURE_TIMEOUT; lia.
Defined.

(** C3 as stated fails: with keys a and b both marked failed at times 0
    and 1, the selection at time 2 clears every record; the selection at
    time 4 then answers a, four milliseconds after a was marked, while no
    key is marked failed. *)
Lemma quarantine_lost_after_reset :
  fst (run_calls [CallMarkFailed 0 "a" None; CallMarkFailed 1 "b" None;
                  CallGetKey 2; CallGetKey 3; CallGetKey 4]
         (boot ["a"; "b"]))
  = Normal [ {| selected := Some "a"; forced := true |};
             {| selected := Some "b"; forced := false |};
             {| selected := Some "a"; forced := false |} ].
Proof. vm_compute. reflexivity. Qed.

(** ** Consecutive selections *)

(** Marking keys as failed moves neither the cursor nor the key list. *)
Lemma marks_keep_cursor calls w :
  Forall (fun c => is_mark c = true) calls ->
  keys (keyManager (snd (run_calls calls w))) = keys (keyManager w) /\
  currentIndex (keyManager (snd (run_calls calls w))) = currentIndex (keyManager w).
Proof.
  revert w. induction calls as [|[now | now k error] rest IH]; intros w Hmarks.
  - done.
  - apply Forall_cons in Hmarks as [? _]. done.
  - apply Forall_cons in Hmarks as [_ Hmarks]. rewrite run_calls_mark.
    destruct (IH (evolve (set_failedKeys (Map_set (Some k) now) (keyManager w))
                    [(ERROR, "Marked key as failed: " +:+ String.substring 0 8 k
                             +:+ "... Error: " +:+ str_or error "Unknown")] w) Hmarks)
      as [-> ->].
    done.
Qed.

Lemma marks_keep_defined calls w :
  no_undefined (failedKeys (keyManager w)) ->
  no_undefined (failedKeys (keyManager (snd (run_calls calls w)))).
Proof.
  intros Hwf. destruct (run_calls_total calls w Hwf) as (answers & w' & Hrun & Hwf').
  by rewrite Hrun.
Qed.

Lemma mod_succ_ne (i n : nat) : (2 <= n)%nat -> (i mod n)%nat <> (S i mod n)%nat.
Proof.
  intros Hn Heq.
  pose proof (Nat.div_mod_eq i n) as Hi.
  pose proof (Nat.div_mod_eq (S i) n) as Hs.
  pose proof (Nat.mod_upper_bound i n ltac:(lia)) as Hb.
  rewrite <- Heq in Hs.
  assert (Hd : (n * (S i / n) = n * (i / n) + 1)%nat) by lia.
  assert (Hlt : (i / n < S i / n)%nat) by nia.
  nia.
Qed.

Lemma at_mod_distinct (pool : list string) i k1 k2 :
  NoDup pool -> (2 <= length pool)%nat ->
  at_mod pool i = Some k1 -> at_mod pool (S i) = Some k2 -> k1 <> k2.
Proof.
  intros Hnd Hlen H1 H2 <-. unfold at_mod in *.
  destruct (length pool =? 0)%nat; [done|].
  pose proof (NoDup_lookup _ _ _ _ Hnd H1 H2) as Heq.
  by apply (mod_succ_ne i (length pool)).
Qed.

(** C4 (as amended).  When two consecutive [getKey] calls, separated by any
    number of [markKeyAsFailed] calls, see the same list of eligible keys,
    and that list holds at least two keys without repetition, the two calls
    answer different keys. *)
Theorem consecutive_selections_differ (w : world) (now1 now2 : Z)
    (marks : list pool_call) :
  let pool := eligible now1 (keyManager w) in
  let first := getKey now1 w in
  let w1 := snd (run_calls marks (snd first)) in
  no_undefined (failedKeys (keyManager w)) ->
  Forall (fun c => is_mark c = true) marks ->
  eligible now2 (keyManager w1) = pool ->
  NoDup pool ->
  (2 <= length pool)%nat ->
  exists k1 k2,
    fst first = Normal (Some k1) /\
    fst (getKey now2 w1) = Normal (Some k2) /\
    k1 <> k2.
Proof.
  intros pool first w1 Hwf Hmarks Hsame Hnd Hlen.
  destruct (getKey_spec now1 w Hwf) as [lines1 H1]. cbv zeta in H1.
  fold pool in H1.
  assert (Hpool : (length pool =? 0)%nat = false) by (apply Nat.eqb_neq; lia).
  rewrite Hpool in H1.
  assert (Hwf0 : no_undefined (failedKeys (keyManager (snd first)))).
  { subst first. rewrite H1. simpl. by apply no_undefined_purged. }
  assert (Hwf1 : no_undefined (failedKeys (keyManager w1)))
    by (by apply marks_keep_defined).
  destruct (marks_keep_cursor marks (snd first) Hmarks) as [_ Hidx].
  fold w1 in Hidx.
  destruct (getKey_spec now2 w1 Hwf1) as [lines2 H2]. cbv zeta in H2.
  rewrite Hsame, Hpool, Hidx in H2.
  subst first. rewrite H1 in H2 |- *. simpl in H2 |- *. rewrite H2. simpl.
  assert (Hne : pool <> []) by (intros Heq; rewrite Heq in Hlen; simpl in Hlen; lia).
  destruct (at_mod_Some pool (currentIndex (keyManager w)) Hne) as [k1 [Hk1 _]].
  destruct (at_mod_Some pool (S (currentIndex (keyManager w))) Hne) as [k2 [Hk2 _]].
  exists k1, k2. rewrite Hk1, Hk2. repeat split.
  by eapply at_mod_distinct.
Qed.

Lemma consecutive_selections_differ_witness :
  exists k1 k2,
    fst (getKey 1 (boot ["a"; "b"; "c"])) = Normal (Some k1) /\
    fst (getKey 3 (snd (run_calls [CallMarkFailed 2 "x" None]
                          (snd (getKey 1 (boot ["a"; "b"; "c"])))))) = Normal (Some k2) /\
    k1 <> k2.
Proof.
  apply (consecutive_selections_differ (boot ["a"; "b"; "c"]) 1 3
           [CallMarkFailed 2 "x" None]).
  - reflexivity.
  - repeat constructor.
  - reflexivity.
  - vm_compute. apply NoDup_ListNoDup. repeat constructor; simpl; intuition discriminate.
  - vm_compute. lia.
Defined.

(** C4 as stated fails: with keys a, b, c the second selection answers b;
    a is then marked failed, two keys stay eligible, and the third
    selection answers b again. *)
Lemma same_key_twice_after_mark :
  fst (run_calls [CallGetKey 1; CallGetKey 2; CallMarkFailed 3 "a" None; CallGetKey 4]
         (boot ["a"; "b"; "c"]))
  = Normal [ {| selected := Some "a"; forced := false |};
             {| selected := Some "b"; forced := false |};
             {| selected := Some "b"; forced := false |} ].
Proof. vm_compute. reflexivity. Qed.

(** ** Round robin without failures *)

(** With an empty failure map [getKey] answers [keys[currentIndex % n]]
    and moves the cursor by one. *)
Lemma getKey_no_failures now w :
  failedKeys (keyManager w) = [] ->
  exists lines,
    getKey now w =
    (Normal (at_mod (keys (keyManager w)) (currentIndex (keyManager w))),
     evolve {| keys := keys (keyManager w);
               currentIndex := S (currentIndex (keyManager w));
               failedKeys := [] |} lines w).
Proof.
  intros Hm.
  assert (Hwf : no_undefined (failedKeys (keyManager w)))
    by (unfold no_undefined; rewrite Hm; reflexivity).
  destruct (getKey_spec now w Hwf) as [lines Hk]. cbv zeta in Hk.
  exists lines. rewrite Hk.
  assert (He : eligible now (keyManager w) = keys (keyManager w)).
  { unfold eligible, availableKeys. simpl. rewrite Hm. simpl.
    generalize (keys (keyManager w)). intros ks.
    induction ks as [|k ks IH]; simpl; [done|]. by rewrite IH. }
  rewrite He, Hm. simpl.
  destruct (length (keys (keyManager w)) =? 0)%nat; reflexivity.
Qed.

Lemma getKeys_no_failures times : forall w,
  failedKeys (keyManager w) = [] ->
  fst (getKeys times w) =
  Normal (map (fun j => at_mod (keys (keyManager w)) (currentIndex (keyManager w) + j))
            (seq 0 (length times))).
Proof.
  induction times as [|now rest IH]; intros w Hm; [done|].
  destruct (getKey_no_failures now w Hm) as [lines Hk].
  cbn [getKeys]. unfold bind at 1. rewrite Hk.
  set (w1 := evolve _ lines w).
  specialize (IH w1 eq_refl). unfold bind at 1.
  destruct (getKeys rest w1) as [[others|e] w2]; simpl in IH; [|done].
  injection IH as ->. simpl. f_equal. f_equal.
  - by rewrite Nat.add_0_r.
  - rewrite <- seq_shift, map_map. apply map_ext. intros j.
    by rewrite Nat.add_succ_r.
Qed.

Lemma at_mod_rotate {A} (arr : list A) i j :
  (j < length arr)%nat -> at_mod arr (i + j) = rotate i arr !! j.
Proof.
  intros Hj. unfold at_mod.
  destruct (length arr =? 0)%nat eqn:Hlen; [apply Nat.eqb_eq in Hlen; lia|].
  rewrite lookup_rotate_r by done. unfold rotate_nat_add. f_equal.
  rewrite <- Nat2Z.inj_add, <- Nat2Z.inj_mod. by rewrite Nat2Z.id.
Qed.

(** C5.  On a manager whose failure map is empty, as many consecutive
    [getKey] calls as there are keys answer the key list rotated to the
    cursor: every key of the pool is answered exactly once before any key
    is answered again. *)
Theorem round_robin_cycle (w : world) (times : list Z) :
  failedKeys (keyManager w) = [] ->
  length times = length (keys (keyManager w)) ->
  exists answers,
    fst (getKeys times w) = Normal (map Some answers) /\
    answers = rotate (currentIndex (keyManager w)) (keys (keyManager w)) /\
    answers ≡ₚ keys (keyManager w) /\
    (NoDup (keys (keyManager w)) -> NoDup answers).
Proof.
  intros Hm Hlen. eexists. split; [|split; [reflexivity|split]].
  - rewrite getKeys_no_failures by done. f_equal. rewrite Hlen.
    apply list_eq. intros j. rewrite !list_lookup_fmap.
    destruct (decide (j < length (keys (keyManager w)))%nat) as [Hj | Hj].
    + rewrite lookup_seq_lt by done. simpl. rewrite at_mod_rotate by done.
      destruct (lookup_lt_is_Some_2 (rotate (currentIndex (keyManager w))
                                       (keys (keyManager w))) j) as [x Hx].
      { by rewrite length_rotate. }
      by rewrite Hx.
    + rewrite lookup_seq_ge by lia. rewrite lookup_ge_None_2; [done|].
      rewrite length_rotate. lia.
  - unfold rotate. rewrite Permutation_app_comm. by rewrite take_drop.
  - intros Hnd. unfold rotate.
    rewrite <- (take_drop (currentIndex (keyManager w) `mod` length (keys (keyManager w)))
                  (keys (keyManager w))) in Hnd.
    apply NoDup_app in Hnd as (H1 & H2 & H3).
    apply NoDup_app. repeat split; [done| |done].
    intros x Hx1 Hx2. by apply (H2 x).
Qed.

Lemma round_robin_cycle_witness :
  exists answers,
    fst (getKeys [5; 6; 7] (boot ["a"; "b"; "c"])) = Normal (map Some answers) /\
    answers = rotate 0 ["a"; "b"; "c"] /\
    answers ≡ₚ ["a"; "b"; "c"] /\
    (NoDup ["a"; "b"; "c"] -> NoDup answers).
Proof.
  apply (round_robin_cycle (boot ["a"; "b"; "c"]) [5; 6; 7]); reflexivity.
Defined.

(** ** One attempt of makeRequestWithRetry *)

Ltac run_attempt Hr :=
  unfold try_attempt, try_catch, try_block, call_with in *;
  cbn in Hr |- *; unfold bind, fetch, send; cbn; rewrite Hr; cbn.

Lemma attempt_unauthorized e openaiRequest attempt maxRetries k w r text :
  reply e (call_with k openaiRequest) = Resolves r -> payload r = BodyText text ->
  status r = 401 \/ status r = 403 ->
  exists lines,
    try_attempt e openaiRequest attempt maxRetries (Some k) w =
    (Normal (if (attempt =? maxRetries)%nat
             then Some {| status := status r; payload := BodyText text;
                          headers := CORS_JSON |}
             else None,
             "HTTP " +:+ decZ (status r) +:+ ": " +:+ text),
     {| keyManager := set_failedKeys (Map_set (Some k) (t_mark e)) (keyManager w);
        console := console w ++ lines;
        network := network w ++ [call_with k openaiRequest]; timers := timers w |}).
Proof.
  intros Hr Hp Hs. run_attempt Hr.
  assert (Hok : ok r = false) by (unfold ok; destruct Hs as [-> | ->]; reflexivity).
  assert (Hauth : (status r =? 401) || (status r =? 403) = true)
    by (destruct Hs as [-> | ->]; reflexivity).
  assert (Hnew : new_Response text (status r) CORS_JSON =
                 Normal {| status := status r; payload := BodyText text;
                           headers := CORS_JSON |})
    by (unfold new_Response; destruct Hs as [-> | ->]; reflexivity).
  rewrite Hok. unfold response_text. rewrite Hp. cbn. rewrite Hauth. cbn.
  destruct (attempt =? maxRetries)%nat.
  - unfold CORS_JSON in Hnew. cbn. rewrite Hnew. cbn.
    eexists. f_equal. f_equal. rewrite <- !app_assoc. reflexivity.
  - cbn. eexists. f_equal. f_equal. rewrite <- !app_assoc. reflexivity.
Qed.

Lemma attempt_other_status e openaiRequest attempt maxRetries k w r text :
  reply e (call_with k openaiRequest) = Resolves r -> payload r = BodyText text ->
  ok r = false -> status r <> 401 -> status r <> 403 ->
  (attempt = maxRetries -> accepts_body (status r) = true) ->
  exists lines,
    try_attempt e openaiRequest attempt maxRetries (Some k) w =
    (Normal (if (attempt =? maxRetries)%nat
             then Some {| status := status r; payload := BodyText text;
                          headers := CORS_JSON |}
             else None,
             "HTTP " +:+ decZ (status r) +:+ ": " +:+ text),
     {| keyManager := keyManager w;
        console := console w ++ lines;
        network := network w ++ [call_with k openaiRequest]; timers := timers w |}).
Proof.
  intros Hr Hp Hok H401 H403 Hacc. run_attempt Hr.
  assert (Hauth : (status r =? 401) || (status r =? 403) = false).
  { apply orb_false_iff. split; by apply Z.eqb_neq. }
  rewrite Hok. unfold response_text. rewrite Hp. cbn. rewrite Hauth. cbn.
  destruct (attempt =? maxRetries)%nat eqn:Hlast.
  - apply Nat.eqb_eq in Hlast. specialize (Hacc Hlast).
    unfold accepts_body in Hacc. apply andb_true_iff in Hacc as [Hrange Hnull].
    apply negb_true_iff in Hrange, Hnull.
    unfold new_Response. rewrite Hrange, Hnull. cbn.
    eexists. f_equal. f_equal. rewrite <- !app_assoc. reflexivity.
  - cbn. eexists. f_equal. f_equal. rewrite <- !app_assoc. reflexivity.
Qed.

Lemma attempt_rejected e openaiRequest attempt maxRetries k w error :
  reply e (call_with k openaiRequest) = Rejects error ->
  try_attempt e openaiRequest attempt maxRetries (Some k) w =
  (if (attempt =? maxRetries)%nat then Throw error
   else Normal (None, err_message error),
   caught e openaiRequest attempt maxRetries k w error).
Proof.
  intros Hr. unfold caught, attempt_line. run_attempt Hr.
  destruct (attempt =? maxRetries)%nat; cbn; rewrite <- !app_assoc; reflexivity.
Qed.

Lemma attempt_body_fails e openaiRequest attempt maxRetries k w r error :
  reply e (call_with k openaiRequest) = Resolves r ->
  ok r = false -> payload r = BodyFails error ->
  try_attempt e openaiRequest attempt maxRetries (Some k) w =
  (if (attempt =? maxRetries)%nat then Throw error
   else Normal (None, err_message error),
   caught e openaiRequest attempt maxRetries k w error).
Proof.
  intros Hr Hok Hp. unfold caught, attempt_line. run_attempt Hr.
  rewrite Hok. unfold response_text. rewrite Hp. cbn.
  destruct (attempt =? maxRetries)%nat; cbn; rewrite <- !app_assoc; reflexivity.
Qed.

(** C7.  In an attempt made with the key [k]: a 401 or 403 response marks
    [k] failed (whether or not its body can be read); any other response
    that is not 2xx, whose body text is read, leaves the failure map as it
    was (on the last attempt, for a status that a response with a body
    may carry); a rejected [fetch] marks [k] failed and the console line
    of [markKeyAsFailed] carries the error's message as the reason; a
    response that is not 2xx and whose body cannot be read is handled as
    a rejected [fetch] is, with the error of the read. *)
Theorem failure_classification (e : attempt_env) (openaiRequest : jsval)
    (attempt maxRetries : nat) (k : string) (w : world) :
  let call := call_with k openaiRequest in
  let after := snd (try_attempt e openaiRequest attempt maxRetries (Some k) w) in
  (forall r,
      reply e call = Resolves r -> status r = 401 \/ status r = 403 ->
      failedKeys (keyManager after)
      = Map_set (Some k) (t_mark e) (failedKeys (keyManager w))) /\
  (forall r text,
      reply e call = Resolves r -> payload r = BodyText text ->
      ok r = false -> status r <> 401 -> status r <> 403 ->
      (attempt = maxRetries -> accepts_body (status r) = true) ->
      failedKeys (keyManager after) = failedKeys (keyManager w)) /\
  (forall error,
      reply e call = Rejects error ->
      failedKeys (keyManager after)
      = Map_set (Some k) (t_mark e) (failedKeys (keyManager w)) /\
      console after
      = console w ++
        [(LOG, "Attempt " +:+ dec attempt +:+ "/" +:+ dec maxRetries
               +:+ " with key: " +:+ String.substring 0 8 k +:+ "...");
         (ERROR, "Marked key as failed: " +:+ String.substring 0 8 k +:+ "... Error: "
                 +:+ str_or (Some (err_message error)) "Unknown");
         (ERROR, "Attempt " +:+ dec attempt +:+ " failed with exception: "
                 +:+ err_message error)]) /\
  (forall r error,
      reply e call = Resolves r -> ok r = false -> payload r = BodyFails error ->
      after = caught e openaiRequest attempt maxRetries k w error).
Proof.
  intros call after. repeat split.
  - intros r Hr Hs. subst after.
    destruct (payload r) as [text | error] eqn:Hp.
    + destruct (attempt_unauthorized e openaiRequest attempt maxRetries k w r text Hr Hp Hs)
        as (lines & Hres).
      by rewrite Hres.
    + assert (Hok : ok r = false) by (unfold ok; destruct Hs as [-> | ->]; reflexivity).
      by rewrite (attempt_body_fails e openaiRequest attempt maxRetries k w r error).
  - intros r text Hr Hp Hok H401 H403 Hacc.
    destruct (attempt_other_status e openaiRequest attempt maxRetries k w r text
                Hr Hp Hok H401 H403 Hacc) as [lines Hres].
    subst after. by rewrite Hres.
  - subst after. by rewrite (attempt_rejected e openaiRequest attempt maxRetries k w error).
  - subst after. by rewrite (attempt_rejected e openaiRequest attempt maxRetries k w error).
  - intros r error Hr Hok Hp. subst after.
    by rewrite (attempt_body_fails e openaiRequest attempt maxRetries k w r error Hr Hok Hp).
Qed.

Lemma failure_classification_witness :
  failedKeys (keyManager (snd (try_attempt (answering (http 401 "denied") 7) (JObj [])
                                 1 3 (Some "k1") (boot ["k1"; "k2"]))))
  = [(Some "k1", 8)] /\
  failedKeys (keyManager (snd (try_attempt (answering (http 500 "boom") 7) (JObj [])
                                 3 3 (Some "k1") (boot ["k1"; "k2"]))))
  = [] /\
  failedKeys (keyManager (snd (try_attempt
                                 (answering (Rejects (TypeError "connection refused")) 7)
                                 (JObj []) 1 3 (Some "k1") (boot ["k1"; "k2"]))))
  = [(Some "k1", 8)] /\
  snd (try_attempt (answering unread_500 7) (JObj []) 1 3 (Some "k1") (boot ["k1"; "k2"]))
  = caught (answering unread_500 7) (JObj []) 1 3 "k1" (boot ["k1"; "k2"]) connection_lost.
Proof.
  split; [|split; [|split]].
  - apply (proj1 (failure_classification (answering (http 401 "denied") 7) (JObj [])
                    1 3 "k1" (boot ["k1"; "k2"]))
             {| status := 401; payload := BodyText "denied"; headers := [] |});
      [reflexivity | by left].
  - apply (proj1 (proj2 (failure_classification (answering (http 500 "boom") 7) (JObj [])
                           3 3 "k1" (boot ["k1"; "k2"])))
             {| status := 500; payload := BodyText "boom"; headers := [] |} "boom");
      [reflexivity | reflexivity | reflexivity | discriminate | discriminate
      | intros _; reflexivity].
  - apply (proj1 (proj2 (proj2 (failure_classification
                                  (answering (Rejects (TypeError "connection refused")) 7)
                                  (JObj []) 1 3 "k1" (boot ["k1"; "k2"]))))
             (TypeError "connection refused")).
    reflexivity.
  - apply (proj2 (proj2 (proj2 (failure_classification (answering unread_500 7) (JObj [])
                                  1 3 "k1" (boot ["k1"; "k2"]))))
             {| status := 500; payload := BodyFails connection_lost; headers := [] |}
             connection_lost); reflexivity.
Defined.

(** C7 as stated fails: a response that is neither 2xx nor 401 nor 403
    has the key marked as failed when its body cannot be read, on any
    attempt, and when its status is one that the Response constructor
    refuses with a body, on the last attempt; the same status on an
    earlier attempt leaves the failure map alone. *)
Lemma other_status_marks_key :
  let w := boot ["k1"; "k2"] in
  let after e attempt := keyManager (snd (try_attempt e (JObj []) attempt 3 (Some "k1") w)) in
  failedKeys (after (answering unread_500 7) 1%nat) = [(Some "k1", 8)] /\
  failedKeys (after (answering (http 304 "") 7) 3%nat) = [(Some "k1", 8)] /\
  failedKeys (after (answering (http 304 "") 7) 2%nat) = [] /\
  ~ other_status_keeps_map (answering unread_500 7) (JObj []) 1 3 "k1" w /\
  ~ other_status_keeps_map (answering (http 304 "") 7) (JObj []) 3 3 "k1" w.
Proof.
  cbv zeta. split; [by vm_compute|]. split; [by vm_compute|]. split; [by vm_compute|].
  split; intros Hclaim.
  - specialize (Hclaim _ eq_refl eq_refl). by discriminate Hclaim.
  - specialize (Hclaim _ eq_refl eq_refl). by discriminate Hclaim.
Qed.

(** ** The retry loop *)

(** An attempt that fails before the last one falls through to the delay. *)
Lemma attempt_continues e openaiRequest attempt maxRetries k w :
  attempt <> maxRetries ->
  fails (reply e (call_with k openaiRequest)) = true ->
  exists lastError w',
    try_attempt e openaiRequest attempt maxRetries (Some k) w
    = (Normal (None, lastError), w') /\
    keys (keyManager w') = keys (keyManager w) /\
    (no_undefined (failedKeys (keyManager w)) ->
     no_undefined (failedKeys (keyManager w'))).
Proof.
  intros Hlast Hfail. apply Nat.eqb_neq in Hlast.
  destruct (reply e (call_with k openaiRequest)) as [r | error] eqn:Hr.
  - simpl in Hfail. apply negb_true_iff in Hfail.
    destruct (payload r) as [text | error] eqn:Hp.
    + destruct (decide (status r = 401 \/ status r = 403)) as [Hs | Hs].
      * destruct (attempt_unauthorized e openaiRequest attempt maxRetries k w r text
                    Hr Hp Hs) as (lines & Hres).
        rewrite Hlast in Hres. rewrite Hres.
        eexists _, _. split; [reflexivity|]. simpl. split; [done|].
        apply no_undefined_set.
      * destruct (attempt_other_status e openaiRequest attempt maxRetries k w r text
                    Hr Hp Hfail) as [lines Hres].
        { tauto. } { tauto. } { intros ->. by apply Nat.eqb_neq in Hlast. }
        rewrite Hlast in Hres. rewrite Hres. eexists _, _. split; [reflexivity|]. done.
    + rewrite (attempt_body_fails e openaiRequest attempt maxRetries k w r error Hr Hfail Hp).
      rewrite Hlast. eexists _, _. split; [reflexivity|]. simpl. split; [done|].
      apply no_undefined_set.
  - rewrite (attempt_rejected e openaiRequest attempt maxRetries k w error Hr).
    rewrite Hlast. eexists _, _. split; [reflexivity|]. simpl. split; [done|].
    apply no_undefined_set.
Qed.

(** On a pool with at least one key [getKey] answers one of its keys. *)
Lemma getKey_nonempty now w :
  no_undefined (failedKeys (keyManager w)) ->
  keys (keyManager w) <> [] ->
  exists k w',
    getKey now w = (Normal (Some k), w') /\
    keys (keyManager w') = keys (keyManager w) /\
    no_undefined (failedKeys (keyManager w')).
Proof.
  intros Hwf Hne. destruct (getKey_spec now w Hwf) as [lines Hk]. cbv zeta in Hk.
  destruct (length (eligible now (keyManager w)) =? 0)%nat eqn:Hempty.
  - destruct (at_mod_Some (keys (keyManager w)) (currentIndex (keyManager w)) Hne)
      as [k [Hsel _]].
    rewrite Hsel in Hk. eexists _, _. split; [exact Hk|]. done.
  - assert (Hav : eligible now (keyManager w) <> [])
      by (intros Heq; rewrite Heq in Hempty; done).
    destruct (at_mod_Some _ (currentIndex (keyManager w)) Hav) as [k [Hsel _]].
    rewrite Hsel in Hk. eexists _, _. split; [exact Hk|]. simpl. split; [done|].
    by apply no_undefined_purged.
Qed.

(** When every attempt before the last fails, the loop reaches the last
    attempt with some key of the pool. *)
Lemma retry_reaches_last env openaiRequest maxRetries :
  (forall n c, (1 <= n < maxRetries)%nat -> fails (reply (env n) c) = true) ->
  forall remaining attempt lastError w,
    (1 <= attempt)%nat ->
    (attempt + remaining = S maxRetries)%nat -> (1 <= remaining)%nat ->
    no_undefined (failedKeys (keyManager w)) ->
    keys (keyManager w) <> [] ->
    exists k w1,
      retry_loop env openaiRequest maxRetries remaining attempt lastError w
      = bind (try_attempt (env maxRetries) openaiRequest maxRetries maxRetries (Some k))
             (finish env openaiRequest maxRetries) w1.
Proof.
  intros Hfail remaining.
  induction remaining as [|remaining IH]; intros attempt lastError w Hpos Hsum Hrem Hwf Hne;
    [lia|].
  destruct (getKey_nonempty (t_select (env attempt)) w Hwf Hne) as (k & w1 & Hk & Hks & Hwf1).
  cbn [retry_loop]. unfold bind at 1. rewrite Hk.
  destruct remaining as [|remaining].
  - assert (attempt = maxRetries) as -> by lia.
    exists k, w1. reflexivity.
  - assert (Hlast : attempt <> maxRetries) by lia.
    destruct (attempt_continues (env attempt) openaiRequest attempt maxRetries k w1 Hlast)
      as (lastError' & w2 & Hatt & Hks2 & Hwf2).
    { apply Hfail. lia. }
    unfold bind at 1. rewrite Hatt.
    unfold bind at 1. unfold sleep at 1.
    apply IH; simpl; try lia.
    + by apply Hwf2.
    + by rewrite Hks2, Hks.
Qed.


Lemma error_status_accepted s : 400 <= s <= 599 -> accepts_body s = true.
Proof.
  intros Hs. unfold accepts_body, null_body_status.
  repeat (apply andb_true_intro; split); apply negb_true_iff;
    repeat (apply orb_false_intro); lia.
Qed.


(** ** A pool without keys *)

(** The loop over the failure map touches neither the key list nor the
    network, and the only error it can throw is the one of
    [undefined.substring]. *)
Lemma restore_frame now entries : forall w,
  (fst (restore now entries w) = Normal tt \/
   fst (restore now entries w) = Throw undefined_substring) /\
  keys (keyManager (snd (restore now entries w))) = keys (keyManager w) /\
  network (snd (restore now entries w)) = network w.
Proof.
  induction entries as [|[k t] rest IH]; intros w; [by auto|].
  cbn [restore]. destruct (now - t >? FAILURE_TIMEOUT).
  - destruct k as [k|].
    + unfold bind at 1. unfold bind at 1. unfold modify at 1. cbn [fst snd].
      unfold bind at 1. unfold lift, substring_0_8. cbn.
      match goal with |- context [restore now rest ?w1] =>
        destruct (IH w1) as (Hres & Hk & Hn) end.
      rewrite Hk, Hn. done.
    + unfold bind, modify, lift. cbn. auto.
  - unfold bind at 1. unfold ret at 1. apply IH.
Qed.

Lemma getKey_empty_pool now w :
  keys (keyManager w) = [] ->
  exists w1,
    (getKey now w = (Normal None, w1) \/ getKey now w = (Throw undefined_substring, w1)) /\
    network w1 = network w.
Proof.
  intros Hkeys.
  destruct (restore_frame now (failedKeys (keyManager w)) w) as (Hres & Hk & Hn).
  destruct (restore now (failedKeys (keyManager w)) w) as [[[]|err] w1] eqn:Hrest;
    simpl in Hres, Hk, Hn.
  - eexists. split; [left|].
    + unfold getKey. unfold bind at 1. unfold gets at 1. cbn [fst snd].
      unfold bind at 1. rewrite Hrest.
      unfold bind at 1. unfold gets at 1. cbn [fst snd].
      unfold availableKeys. rewrite Hk, Hkeys. cbn. rewrite Hk, Hkeys. reflexivity.
    + exact Hn.
  - destruct Hres as [Hres | Hres]; [done|]. injection Hres as ->.
    exists w1. split; [right | done].
    unfold getKey. unfold bind at 1. unfold gets at 1. cbn [fst snd].
    unfold bind at 1. by rewrite Hrest.
Qed.

(** An attempt made with the key [undefined] throws before it calls the
    upstream. *)
Lemma attempt_undefined e openaiRequest attempt maxRetries w :
  exists w',
    try_attempt e openaiRequest attempt maxRetries None w = (Throw undefined_substring, w') /\
    network w' = network w.
Proof. eexists. split; reflexivity. Qed.

(** C10 (as amended).  On the manager built over an empty key list
    [getKey] answers [undefined] without throwing.  A request made while
    the key list is empty sends nothing to the upstream: [makeRequestWithRetry]
    throws the TypeError of [undefined.substring] on its first attempt. *)
Theorem empty_pool_request (env : nat -> attempt_env) (openaiRequest : jsval)
    (maxRetries : nat) (now : Z) (w : world) :
  keys (keyManager w) = [] ->
  (1 <= maxRetries)%nat ->
  fst (getKey now (boot [])) = Normal None /\
  fst (makeRequestWithRetry env openaiRequest maxRetries w) = Throw undefined_substring /\
  network (snd (makeRequestWithRetry env openaiRequest maxRetries w)) = network w.
Proof.
  intros Hkeys Hmax. split; [reflexivity|].
  assert (Hrun : exists w', makeRequestWithRetry env openaiRequest maxRetries w
                            = (Throw undefined_substring, w') /\ network w' = network w).
  { destruct maxRetries as [|n]; [lia|].
    unfold makeRequestWithRetry. cbn [retry_loop]. unfold bind at 1.
    destruct (getKey_empty_pool (t_select (env 1%nat)) w Hkeys) as (w1 & [Hk | Hk] & Hn);
      rewrite Hk; [|by exists w1].
    unfold bind.
    destruct (attempt_undefined (env 1%nat) openaiRequest 1 (S n) w1) as (w2 & Hatt & Hn2).
    rewrite Hatt. exists w2. split; [done | congruence]. }
  destruct Hrun as (w' & -> & Hn). done.
Qed.

Lemma empty_pool_request_witness :
  fst (getKey 0 (boot [])) = Normal None /\
  fst (makeRequestWithRetry (fun n => answering (http 200 "{}") (Z.of_nat n)) (JObj [])
         3 (boot []))
  = Throw undefined_substring /\
  network (snd (makeRequestWithRetry (fun n => answering (http 200 "{}") (Z.of_nat n))
                  (JObj []) 3 (boot []))) = network (boot []).
Proof.
  apply (empty_pool_request (fun n => answering (http 200 "{}") (Z.of_nat n)) (JObj [])
           3 0 (boot [])).
  - reflexivity.
  - lia.
Defined.

(** C10 as stated fails: with no key configured and an upstream that would
    answer 200, a request sends no outbound call at all; it leaves the key
    [undefined] in the failure map, and a [getKey] call made once that
    record has expired throws. *)
Lemma empty_pool_sends_nothing :
  let env := fun n => answering (http 200 "{}") (Z.of_nat n) in
  let after := snd (makeRequestWithRetry env (JObj []) default_maxRetries (boot [])) in
  network after = [] /\
  failedKeys (keyManager after) = [(None, 2)] /\
  fst (getKey 70000 after) = Throw undefined_substring.
Proof. vm_compute. repeat split. Qed.

(** ** Frames of a streamed exchange *)

Lemma scan_app seen l1 l2 :
  scan seen (l1 ++ l2) = match scan seen l1 with
                         | Some b => scan b l2
                         | None => None
                         end.
Proof.
  revert seen. induction l1 as [|f l1 IH]; intros seen; simpl; [done|].
  destruct (is_message_start f);
    [destruct (seen || is_block_start f); [done | apply IH]|].
  destruct (is_block_start f); [destruct seen; [apply IH | done]|].
  apply IH.
Qed.

Lemma scan_monotone l : forall seen b, scan seen l = Some b -> seen = true -> b = true.
Proof.
  induction l as [|f l IH]; intros seen b; simpl.
  - congruence.
  - destruct (is_message_start f);
      [destruct seen; [done | intros _ ?; done]|].
    destruct (is_block_start f); [destruct seen; [apply IH | done]|]. apply IH.
Qed.

Lemma scan_seen l : forall seen b,
  scan seen l = Some b -> b = seen || existsb is_message_start l.
Proof.
  induction l as [|f l IH]; intros seen b; simpl.
  - intros [= <-]. by rewrite orb_false_r.
  - destruct (is_message_start f) eqn:Hms.
    + destruct seen; [done|]. simpl. destruct (is_block_start f); [done|].
      intros H. apply IH in H. by subst.
    + destruct (is_block_start f); [destruct seen; [|done]|]; apply IH.
Qed.

(** Frames accepted by [scan]: a block start has a [message_start] before
    it, and there is at most one [message_start]. *)
Lemma scan_block_start l : forall seen b,
  scan seen l = Some b ->
  forall before f after,
    l = before ++ f :: after -> is_block_start f = true ->
    seen || existsb is_message_start before = true.
Proof.
  induction l as [|g l IH]; intros seen b Hscan before f after Hsplit Hf.
  - by destruct before.
  - destruct before as [|g' before]; simpl in Hsplit;
      injection Hsplit as Hhead Hsplit; subst g.
    + simpl in Hscan. rewrite Hf in Hscan. rewrite orb_true_r in Hscan.
      destruct (is_message_start f); destruct seen; done.
    + simpl in Hscan. simpl. destruct (is_message_start g') eqn:Hg.
      * by rewrite orb_true_r.
      * simpl. destruct (is_block_start g').
        -- destruct seen; [|done]. done.
        -- by eapply IH.
Qed.

Lemma scan_single_start l : forall seen b,
  scan seen l = Some b ->
  (length (List.filter is_message_start l) <= (if seen then 0 else 1))%nat.
Proof.
  induction l as [|g l IH]; intros seen b Hscan; simpl.
  - destruct seen; lia.
  - simpl in Hscan. destruct (is_message_start g) eqn:Hg.
    + destruct seen; [done|]. simpl in Hscan. destruct (is_block_start g); [done|].
      apply IH in Hscan. simpl in *. lia.
    + destruct (is_block_start g).
      * destruct seen; [|done]. by apply IH in Hscan.
      * by apply IH in Hscan.
Qed.

Lemma scan_prefix l1 l2 seen b :
  scan seen (l1 ++ l2) = Some b -> exists b', scan seen l1 = Some b'.
Proof.
  rewrite scan_app. destruct (scan seen l1); [eauto | done].
Qed.

Lemma keeps_refl {A} s (c : completion A) : tracked s -> keeps s (c, s).
Proof. by split. Qed.

Lemma keeps_trans {A B} s s1 (c : completion A) (res : completion B * stream_state) :
  keeps s (c, s1) -> keeps s1 res -> keeps s res.
Proof.
  intros (_ & Hf1 & Hd1) (Ht & Hf2 & Hd2). simpl in *.
  split; [done|]. split; [congruence | auto].
Qed.

Lemma safeEnqueue_closed chunk s :
  streamClosed s = true -> safeEnqueue chunk s = (Normal tt, s).
Proof.
  intros Hc. unfold safeEnqueue, try_catch, bind, read. cbn. by rewrite Hc.
Qed.

(** On an open stream [safeEnqueue] hands the frame to the controller:
    either it is accepted, or the stream is marked closed. *)
Lemma safeEnqueue_open chunk s :
  streamClosed s = false ->
  exists s',
    safeEnqueue chunk s = (Normal tt, s') /\
    offered s' = offered s ++ [chunk] /\
    toolCallStarted s' = toolCallStarted s /\
    finished s' = finished s /\
    (demand s = None -> demand s' = None) /\
    ((enqueued s' = enqueued s ++ [chunk] /\ streamClosed s' = false /\
      cancelled s = false) \/
     (enqueued s' = enqueued s /\ streamClosed s' = true /\ cancelled s = true)).
Proof.
  intros Hc. unfold safeEnqueue, try_catch, bind, read, controller_enqueue. cbn.
  rewrite Hc. cbn. destruct (cancelled s) eqn:Hcan; cbn.
  - eexists. split; [reflexivity|]. cbn. repeat split; auto.
  - eexists. split; [reflexivity|]. cbn. repeat split; auto. by intros ->.
Qed.

Lemma truthy_get v k : truthy v = true -> exists x, get v k = Normal x.
Proof. destruct v; simpl; try done; eauto. Qed.

Lemma get_opt_get v k x : get v k = Normal x -> opt_get v k = x.
Proof. unfold opt_get. by intros ->. Qed.

Section Reframer.

Variable JSON_parse : string -> completion jsval.

Local Ltac unchanged := by apply keeps_refl.

Lemma forward_tracked dataStr s :
  tracked s -> keeps s (forward JSON_parse dataStr s).
Proof.
  intros Hs. unfold forward. unfold bind at 1. unfold lift at 1.
  destruct (JSON_parse dataStr) as [openaiChunk | err]; [|unchanged].
  unfold bind at 1. unfold lift at 1.
  destruct (convertOpenAIStreamToClaude openaiChunk) as [claudeEvent | err]; [|unchanged].
  unfold bind at 1. unfold read at 1. cbn [fst snd].
  destruct (truthy claudeEvent) eqn:Htruthy; [|unchanged].
  destruct (streamClosed s) eqn:Hclosed; [unchanged|]. cbn [negb andb].
  destruct (truthy_get claudeEvent "type" Htruthy) as [type Htype].
  unfold bind at 1. unfold lift at 1. rewrite Htype.
  unfold bind at 1. unfold read at 1. cbn [fst snd].
  assert (Hframe : event_frame claudeEvent =
                   Normal {| event := if strict_eq_str type "content_block_start"
                                         || strict_eq_str type "content_block_delta"
                                      then "content_block_delta" else "message_delta";
                             data := claudeEvent |})
    by (unfold event_frame; by rewrite Htype).
  set (chunk := {| event := _; data := claudeEvent |}) in Hframe.
  assert (Hnot_start : is_message_start chunk = false)
    by (unfold is_message_start, chunk; simpl;
        by destruct (strict_eq_str type "content_block_start"
                     || strict_eq_str type "content_block_delta")).
  assert (Hnot_stop : is_message_stop chunk = false)
    by (unfold is_message_stop, chunk; simpl;
        by destruct (strict_eq_str type "content_block_start"
                     || strict_eq_str type "content_block_delta")).
  assert (Hblock : is_block_start chunk = strict_eq_str type "content_block_start")
    by (unfold is_block_start, payload_type, chunk; simpl;
        by rewrite (get_opt_get _ _ _ Htype)).
  pose proof Hs as [(b & Hscan & Hb0 & Hb1) Hopen Hstop Hpre].
  specialize (Hb1 Hclosed). destruct (Hopen Hclosed) as [Henq Hex].
  destruct (strict_eq_str type "content_block_start" && negb (toolCallStarted s))
    eqn:Hfirst.
  - (* the first tool-call start: message_start, then the event *)
    apply andb_true_iff in Hfirst as [Hty Hstarted].
    apply negb_true_iff in Hstarted.
    unfold bind at 1. unfold bind at 1. unfold lift at 1.
    destruct (message_start openaiChunk) as [start | err] eqn:Hstart; [|unchanged].
    assert (Hms : is_message_start start = true /\ is_block_start start = false
                  /\ is_message_stop start = false).
    { unfold message_start in Hstart.
      destruct (get openaiChunk "id"); [|done]. simpl in Hstart.
      destruct (get openaiChunk "model"); [|done]. simpl in Hstart.
      injection Hstart as <-. done. }
    destruct Hms as (Hms1 & Hms2 & Hms3).
    unfold bind at 1.
    destruct (safeEnqueue_open start s Hclosed)
      as (s1 & Hrun1 & Hoff1 & Hst1 & Hfin1 & Hdem1 & Hcase1).
    rewrite Hrun1. unfold update at 1. cbn [fst snd].
    unfold bind at 1. unfold read at 1. cbn [fst snd streamClosed set_toolCallStarted].
    assert (Hb : b = false) by (rewrite Hb1; done).
    assert (Hscan1 : scan false (offered s ++ [start]) = Some true).
    { rewrite scan_app, Hscan, Hb. simpl. by rewrite Hms1, Hms2. }
    destruct Hcase1 as [(Henq1 & Hc1 & _) | (Henq1 & Hc1 & _)]; rewrite Hc1; cbn [negb].
    + unfold bind at 1. unfold lift at 1. rewrite Hframe.
      assert (Hc1' : streamClosed (set_toolCallStarted true s1) = false) by done.
      destruct (safeEnqueue_open chunk _ Hc1')
        as (s2 & Hrun2 & Hoff2 & Hst2 & Hfin2 & Hdem2 & Hcase2).
      rewrite Hrun2. simpl in Hoff2, Hst2, Hfin2, Hdem2.
      split; cbn [fst snd]; [|split; [congruence | auto]].
      assert (Hscan2 : scan false (offered s2) = Some true).
      { rewrite Hoff2, Hoff1, scan_app, Hscan1. simpl.
        by rewrite Hnot_start, Hblock, Hty. }
      split.
      * exists true. rewrite Hst2. done.
      * intros Hc2. destruct Hcase2 as [(Henq2 & _ & _) | (_ & Hc2' & _)]; [|congruence].
        simpl in Henq2. split; [congruence|].
        rewrite Hoff2, existsb_app. simpl. rewrite Hblock, Hty, Hst2.
        by rewrite orb_true_r.
      * rewrite Hoff2, Hoff1, !existsb_app. simpl. rewrite Hstop, Hms3, Hnot_stop. done.
      * destruct Hcase2 as [(Henq2 & _ & _) | (Henq2 & _ & _)]; simpl in Henq2.
        -- exists []. rewrite app_nil_r. congruence.
        -- exists [chunk]. congruence.
    + split; cbn [fst snd]; [|simpl; split; [congruence | auto]].
      split; simpl.
      * exists true. rewrite Hoff1. done.
      * congruence.
      * rewrite Hoff1, existsb_app. simpl. by rewrite Hstop, Hms3.
      * exists [start]. congruence.
  - (* any other event *)
    unfold bind at 1. unfold ret at 1. cbn [fst snd].
    unfold bind at 1. unfold read at 1. cbn [fst snd]. rewrite Hclosed. cbn [negb].
    unfold bind at 1. unfold lift at 1. rewrite Hframe.
    destruct (safeEnqueue_open chunk s Hclosed)
      as (s1 & Hrun1 & Hoff1 & Hst1 & Hfin1 & Hdem1 & Hcase1).
    rewrite Hrun1. split; cbn [fst snd]; [|done].
    assert (Hscan1 : scan false (offered s1) = Some b).
    { rewrite Hoff1, scan_app, Hscan. simpl. rewrite Hnot_start, Hblock.
      destruct (strict_eq_str type "content_block_start") eqn:Hty; [|done].
      simpl in Hfirst. apply negb_false_iff in Hfirst. by rewrite Hb1, Hfirst. }
    split.
    + exists b. rewrite Hst1. done.
    + intros Hc1. destruct Hcase1 as [(Henq1 & _ & _) | (_ & Hc1' & _)]; [|congruence].
      split; [congruence|].
      rewrite Hoff1, existsb_app, Hex, Hst1. simpl. rewrite Hblock.
      destruct (strict_eq_str type "content_block_start") eqn:Hty;
        [|by rewrite !orb_false_r].
      simpl in Hfirst. apply negb_false_iff in Hfirst. by rewrite Hfirst.
    + rewrite Hoff1, existsb_app. simpl. by rewrite Hstop, Hnot_stop.
    + destruct Hcase1 as [(Henq1 & _ & _) | (Henq1 & _ & _)].
      * exists []. rewrite app_nil_r. congruence.
      * exists [chunk]. congruence.
Qed.

End Reframer.

Lemma keeps_print {A} l text s s0 (c : completion A) :
  keeps s0 (c, s) -> keeps s0 (stream_print l text s).
Proof.
  unfold keeps. cbn. intros ([H1 H2 H3 H4] & Hf & Hd). split; [|by split].
  by split.
Qed.

Lemma keeps_buffer b s : tracked s -> keeps s (Normal tt, set_buffer b s).
Proof. unfold keeps. cbn. intros [H1 H2 H3 H4]. split; [|by split]. by split. Qed.

Lemma tracked_initial d : tracked (initial d).
Proof.
  split; simpl; try done.
  - exists false. done.
  - by exists [].
Qed.

Section ReadLoop.

Variable JSON_parse : string -> completion jsval.

Lemma on_line_tracked line s :
  tracked s ->
  exists s', on_line JSON_parse line s = (Normal tt, s') /\ keeps s (Normal tt, s').
Proof.
  intros Hs. unfold on_line.
  destruct (String.prefix "data: " (trim line));
    [|exists s; split; [done | by apply keeps_refl]].
  destruct (String.eqb _ "[DONE]"); [exists s; split; [done | by apply keeps_refl]|].
  unfold try_catch.
  pose proof (forward_tracked JSON_parse (trim (substring_from 5 (trim line))) s Hs)
    as Hf.
  destruct (forward JSON_parse _ s) as [[[]|err] s1].
  - by exists s1.
  - eexists. split; [reflexivity|]. eapply (keeps_print (A := unit)). exact Hf.
Qed.

Lemma for_lines_tracked lines : forall s,
  tracked s ->
  exists s', for_lines JSON_parse lines s = (Normal tt, s') /\ keeps s (Normal tt, s').
Proof.
  induction lines as [|line rest IH]; intros s Hs;
    [exists s; split; [done | by apply keeps_refl]|].
  cbn [for_lines]. unfold bind at 1. unfold read at 1. cbn [fst snd].
  destruct (streamClosed s); [exists s; split; [done | by apply keeps_refl]|].
  unfold bind at 1.
  destruct (on_line_tracked line s Hs) as (s1 & -> & Hs1).
  destruct (IH s1 (proj1 Hs1)) as (s2 & -> & Hs2).
  exists s2. split; [done|]. exact (keeps_trans _ _ _ _ Hs1 Hs2).
Qed.

Lemma on_chunk_tracked value s :
  tracked s ->
  exists s', on_chunk JSON_parse value s = (Normal tt, s') /\ keeps s (Normal tt, s').
Proof.
  intros Hs. unfold on_chunk. unfold bind at 1. unfold read at 1. cbn [fst snd].
  unfold bind at 1. unfold update at 1. cbn [fst snd].
  pose proof (keeps_buffer (List.last (split_LF (buffer s +:+ value)) EmptyString) s Hs)
    as Hb.
  destruct (for_lines_tracked (removelast (split_LF (buffer s +:+ value))) _ (proj1 Hb))
    as (s1 & Hrun & Hs1).
  cbn [snd] in Hrun, Hs1. rewrite Hrun.
  exists s1. split; [done|]. exact (keeps_trans _ _ _ _ Hb Hs1).
Qed.

(** The read loop keeps the state tracked; when it is left through
    [done], no read failed and the stream is still open. *)
Lemma read_loop_tracked values failure : forall s,
  tracked s -> streamClosed s = false ->
  loop_outcome failure s (read_loop JSON_parse values failure s).
Proof.
  induction values as [|value rest IH]; intros s Hs Hopen.
  - simpl. destruct failure as [e|]; (split; [by apply keeps_refl | done]).
  - cbn [read_loop]. unfold bind at 1.
    destruct (on_chunk_tracked value s Hs) as (s1 & -> & Hs1).
    unfold bind at 1. unfold read at 1. cbn [fst snd].
    destruct (streamClosed s1) eqn:Hc1.
    + by split.
    + destruct (IH s1 (proj1 Hs1) Hc1) as [Hk Hend]. split; [|done].
      exact (keeps_trans _ _ _ _ Hs1 Hk).
Qed.

(** The [finally] block touches neither the frames nor the flags. *)
Lemma finally_frame s :
  offered (snd (start_finally s)) = offered s /\
  enqueued (snd (start_finally s)) = enqueued s /\
  streamClosed (snd (start_finally s)) = streamClosed s.
Proof.
  unfold start_finally, bind, read, try_catch, controller_close. cbn.
  destruct (streamClosed s) eqn:Hc; cbn; [by rewrite Hc|].
  destruct (cancelled s); cbn; by rewrite Hc.
Qed.

Lemma catch_frame error s :
  exists s',
    start_catch error s = (Normal tt, s') /\
    offered s' = offered s /\ enqueued s' = enqueued s.
Proof.
  unfold start_catch, bind, stream_print, update, read, try_catch, controller_error. cbn.
  destruct (streamClosed s); cbn; [by eexists|].
  match goal with |- context [cancelled ?x] => destruct (cancelled x) end;
    cbn; by eexists.
Qed.

(** [start] runs the [finally] block from the state left by the stop
    frame, by the early exit, or by the [catch] block. *)
Lemma start_unfold up s0 :
  start JSON_parse up s0 =
  start_finally
    (match read_loop JSON_parse (chunks up) (failure up) s0 with
     | (Normal Done, s1) | (Normal Closed, s1) =>
         if streamClosed s1 then s1
         else snd (safeEnqueue (message_stop (toolCallStarted s1)) s1)
     | (Throw e, s1) => snd (start_catch e s1)
     end).
Proof.
  unfold start. unfold bind at 1. unfold try_catch at 1. unfold start_try at 1.
  unfold bind at 1.
  destruct (read_loop JSON_parse (chunks up) (failure up) s0) as [[ex|e] s1].
  - unfold bind at 1. unfold read at 1. cbn [fst snd].
    destruct (streamClosed s1) eqn:Hc; cbn [negb].
    + unfold ret at 1. by destruct ex.
    + unfold bind at 1. unfold read at 1. cbn [fst snd].
      destruct (safeEnqueue_open (message_stop (toolCallStarted s1)) s1 Hc)
        as (s2 & Hrun & _).
      rewrite Hrun. by destruct ex.
  - destruct (catch_frame e s1) as (s2 & Hrun & _). by rewrite Hrun.
Qed.

(** The frames of a whole exchange, from the state in which the read
    loop ended. *)
Lemma start_frames up d :
  exchange_frames (read_loop JSON_parse (chunks up) (failure up) (initial d))
    (snd (start JSON_parse up (initial d))).
Proof.
  destruct (read_loop_tracked (chunks up) (failure up) (initial d)
              (tracked_initial d) eq_refl) as [Hk Hend].
  rewrite start_unfold.
  destruct (read_loop JSON_parse (chunks up) (failure up) (initial d))
    as [[[]|e] s1] eqn:Hloop; simpl in Hend.
  - destruct Hend as [_ Hopen]. rewrite Hopen.
    destruct (safeEnqueue_open (message_stop (toolCallStarted s1)) s1 Hopen)
      as (s2 & Hrun & Hoff & Hst & Hfin & Hdem & Hcase).
    rewrite Hrun. cbn [snd]. destruct (finally_frame s2) as (Ho & He & Hc).
    unfold exchange_frames. cbn [fst snd]. rewrite Ho, He, Hc. split; [done|].
    destruct Hcase as [(? & ? & ?) | (? & ? & ?)]; [left | right]; by repeat split.
  - rewrite Hend. destruct (finally_frame s1) as (Ho & He & Hc).
    unfold exchange_frames. cbn [fst snd]. by rewrite Ho, He.
  - destruct (catch_frame e s1) as (s2 & Hrun & Ho2 & He2). rewrite Hrun. cbn [snd].
    destruct (finally_frame s2) as (Ho & He & Hc).
    unfold exchange_frames. cbn [fst snd]. rewrite Ho, He. done.
Qed.

End ReadLoop.

Lemma stop_is_plain b :
  is_message_start (message_stop b) = false /\
  is_block_start (message_stop b) = false /\
  is_message_stop (message_stop b) = true.
Proof. done. Qed.

Lemma emitted_scanned JSON_parse up d :
  exists b, scan false (emitted JSON_parse up d) = Some b.
Proof.
  unfold emitted.
  pose proof (start_frames JSON_parse up d) as Hframes.
  destruct (read_loop_tracked JSON_parse (chunks up) (failure up) (initial d)
              (tracked_initial d) eq_refl) as [[Ht _] Hend].
  destruct Ht as [(b & Hscan & _ & _) Hopen _ [rest Hpre]].
  unfold exchange_frames in Hframes.
  assert (Hs1 : exists b', scan false (enqueued (snd (read_loop JSON_parse (chunks up)
                                                         (failure up) (initial d))))
                           = Some b').
  { rewrite Hpre in Hscan. by eapply scan_prefix. }
  destruct (fst (read_loop JSON_parse (chunks up) (failure up) (initial d)))
    as [[]|e]; cbv zeta in Hframes.
  - destruct Hframes as [_ [(He & _ & _) | (He & _ & _)]]; rewrite He; [|done].
    destruct Hs1 as [b' Hb']. exists b'. rewrite scan_app, Hb'. done.
  - destruct Hframes as [_ He]. by rewrite He.
  - destruct Hframes as [_ He]. by rewrite He.
Qed.

(** C1 (as amended).  In the frames delivered by any streamed exchange,
    whatever the chunks, the end of the upstream and the consumer: every
    frame whose payload is a block start comes after a [message_start]
    frame, and at most one [message_start] frame is delivered.  (Deltas
    are forwarded as they arrive, with or without a start before them.) *)
Theorem message_start_before_block_start (JSON_parse : string -> completion jsval)
    (up : upstream) (d : option nat) :
  let l := emitted JSON_parse up d in
  (forall before f after,
      l = before ++ f :: after -> is_block_start f = true ->
      existsb is_message_start before = true) /\
  (length (List.filter is_message_start l) <= 1)%nat.
Proof.
  intros l. destruct (emitted_scanned JSON_parse up d) as [b Hscan]. fold l in Hscan.
  split.
  - intros before f after Hsplit Hf.
    by apply (scan_block_start l false b Hscan before f after).
  - by apply (scan_single_start l false b).
Qed.

(** When the read loop is left because the reader reported [done], the
    stop frame is handed over after the frames of the loop, with the
    flag of the loop; it is delivered unless the consumer has cancelled. *)
Lemma stop_frame_handed JSON_parse up d :
  fst (read_loop JSON_parse (chunks up) (failure up) (initial d)) = Normal Done ->
  let s1 := snd (read_loop JSON_parse (chunks up) (failure up) (initial d)) in
  let s := snd (start JSON_parse up (initial d)) in
  offered s = offered s1 ++ [message_stop (toolCallStarted s1)] /\
  existsb is_block_start (offered s1) = toolCallStarted s1 /\
  existsb is_message_stop (offered s1) = false /\
  ((enqueued s = offered s /\ streamClosed s = false) \/
   (enqueued s = offered s1 /\ streamClosed s = true)) /\
  (d = None -> enqueued s = offered s).
Proof.
  intros Hdone s1 s. subst s1 s.
  pose proof (start_frames JSON_parse up d) as Hframes.
  destruct (read_loop_tracked JSON_parse (chunks up) (failure up) (initial d)
              (tracked_initial d) eq_refl) as [[Ht [Hfin Hdem]] Hend].
  unfold exchange_frames in Hframes. rewrite Hdone in Hframes, Hend.
  cbv zeta in Hframes. destruct Hend as [_ Hopen].
  destruct Ht as [_ Htr Hstop _]. destruct (Htr Hopen) as [Henq Hflag].
  destruct Hframes as [Hoff Hcase].
  split; [done|]. split; [done|]. split; [done|]. split.
  - destruct Hcase as [(He & Hc & _) | (He & Hc & _)].
    + left. split; [congruence | done].
    + right. split; [congruence | done].
  - intros ->. destruct Hcase as [(He & _ & _) | (_ & _ & Hcan)]; [congruence|].
    unfold cancelled in Hcan. simpl in Hfin. rewrite Hdem, Hfin in Hcan; done.
Qed.

Lemma message_start_before_block_start_witness :
  existsb is_message_start [tool_message_start] = true /\
  (length (List.filter is_message_start (emitted Json.parse tool_call_stream None)) <= 1)%nat.
Proof.
  split.
  - apply (proj1 (message_start_before_block_start Json.parse tool_call_stream None)
             [tool_message_start] tool_block_start [tool_arguments; message_stop true]).
    + vm_compute. reflexivity.
    + reflexivity.
  - apply (proj2 (message_start_before_block_start Json.parse tool_call_stream None)).
Defined.

(** C1 as stated fails: a stream that carries one text fragment delivers a
    content delta and the stop frame, with no [message_start] and no start
    for block 0 before the delta. *)
Lemma text_delta_without_message_start :
  emitted Json.parse text_stream None = [text_delta "hi"; message_stop false] /\
  ~ ordering_invariant (emitted Json.parse text_stream None).
Proof.
  assert (Hrun : emitted Json.parse text_stream None = [text_delta "hi"; message_stop false])
    by (vm_compute; reflexivity).
  split; [exact Hrun|]. rewrite Hrun. intros Hinv.
  destruct (Hinv [] (text_delta "hi") [message_stop false] eq_refl) as [Hstart _].
  specialize (Hstart eq_refl). discriminate.
Qed.

(** ** The translators *)

Lemma get_total v k x k' : get v k = Normal x -> get v k' = Normal (opt_get v k').
Proof. destruct v; simpl; try done; intros _; unfold opt_get; simpl; done. Qed.

Lemma truthy_get_total v k : truthy v = true -> get v k = Normal (opt_get v k).
Proof. destruct v; simpl; try done; intros _; unfold opt_get; simpl; done. Qed.

Lemma first_choice_defined x choice :
  first_choice x = Normal choice -> forall k, get x k = Normal (opt_get x k).
Proof.
  unfold first_choice. intros H k.
  destruct (get x "choices") as [choices|] eqn:Hc; [|done].
  by eapply get_total.
Qed.

Lemma convert_usage_total x :
  (forall k, get x k = Normal (opt_get x k)) -> exists usage, convert_usage x = Normal usage.
Proof.
  intros Hx. unfold convert_usage. rewrite Hx. simpl.
  destruct (truthy (opt_get x "usage")) eqn:Hu; [|eauto].
  rewrite !(truthy_get_total _ _ Hu). simpl. eauto.
Qed.

(** For a response whose first choice exists and whose message has no
    [tool_calls] value, [convertOpenAIToClaude] returns a message whose
    content is exactly one text block; the block holds the message's text
    when the content is a string and the empty string when the content is
    absent or null; [stop_reason] is "end_turn" when [finish_reason] is
    "stop" and is [finish_reason] itself otherwise. *)
Theorem text_response (JSON_parse : string -> completion jsval) (ToString : jsval -> string)
    (now : Z) (openaiResponse choice : jsval) :
  let message := opt_get choice "message" in
  let content := opt_get message "content" in
  let finish_reason := opt_get choice "finish_reason" in
  first_choice openaiResponse = Normal choice ->
  truthy choice = true ->
  truthy (opt_get message "tool_calls") = false ->
  exists id model usage text stop_reason,
    convertOpenAIToClaude JSON_parse ToString now openaiResponse
    = Normal (JObj [("id", id); ("type", JStr "message"); ("role", JStr "assistant");
                    ("content", JArr [JObj [("type", JStr "text"); ("text", text)]]);
                    ("model", model);
                    ("stop_reason", stop_reason); ("stop_sequence", JNull);
                    ("usage", usage)]) /\
    (forall t, content = JStr t -> text = JStr t) /\
    (nullish content = true -> text = JStr "") /\
    (finish_reason = JStr "stop" -> stop_reason = JStr "end_turn") /\
    (finish_reason <> JStr "stop" -> stop_reason = finish_reason).
Proof.
  intros message content finish_reason Hchoice Htruthy Htools.
  pose proof (first_choice_defined _ _ Hchoice) as Hx.
  destruct (convert_usage_total openaiResponse Hx) as [usage Husage].
  unfold convertOpenAIToClaude. rewrite Hchoice. simpl. rewrite Htruthy.
  rewrite (truthy_get_total choice "message" Htruthy). simpl.
  fold message. rewrite Htools.
  unfold message_id. rewrite !Hx. simpl.
  rewrite (truthy_get_total choice "finish_reason" Htruthy). simpl.
  rewrite Husage. simpl. fold content finish_reason.
  eexists _, _, _, _, _. split; [reflexivity|]. repeat split.
  - intros t ->. unfold js_or. simpl. by destruct (negb (t =? "")%string) eqn:Ht;
      [|apply negb_false_iff, String.eqb_eq in Ht; subst].
  - intros Hnull. by destruct content.
  - by intros ->.
  - intros Hne. destruct finish_reason as [| | | |s| | |]; try done.
    simpl. destruct (String.eqb_spec s "stop"); [congruence | done].
Qed.

Lemma text_response_witness :
  exists id model usage text stop_reason,
    convertOpenAIToClaude Json.parse (fun _ => "") 0 stop_response
    = Normal (JObj [("id", id); ("type", JStr "message"); ("role", JStr "assistant");
                    ("content", JArr [JObj [("type", JStr "text"); ("text", text)]]);
                    ("model", model);
                    ("stop_reason", stop_reason); ("stop_sequence", JNull);
                    ("usage", usage)]) /\
    (forall t, JStr "Hello" = JStr t -> text = JStr t) /\
    (nullish (JStr "Hello") = true -> text = JStr "") /\
    (JStr "stop" = JStr "stop" -> stop_reason = JStr "end_turn") /\
    (JStr "stop" <> JStr "stop" -> stop_reason = JStr "stop").
Proof.
  apply (text_response Json.parse (fun _ => "") 0 stop_response
           (JObj [("message", JObj [("role", JStr "assistant"); ("content", JStr "Hello")]);
                  ("finish_reason", JStr "stop")]));
    reflexivity.
Defined.

Lemma no_calls_text :
  Json.parse (dq "{'id':'chatcmpl-2','model':'m','choices':[{'message':{'role':'assistant','content':'Hello','tool_calls':[]},'finish_reason':'stop'}]}")
  = Normal no_calls_response.
Proof. vm_compute. reflexivity. Qed.

(** C9, at the input on which the code departs from it: a response whose
    message carries the text "Hello" beside an empty list of tool calls
    is translated to a message without content block and with
    [stop_reason] "tool_use", because an empty array is truthy and takes
    the branch of the tool calls; the text and [finish_reason: stop] are
    dropped. *)
Theorem empty_tool_calls_drop_text (JSON_parse : string -> completion jsval)
    (ToString : jsval -> string) (now : Z) :
  convertOpenAIToClaude JSON_parse ToString now no_calls_response
  = Normal (JObj [("id", JStr "chatcmpl-2"); ("type", JStr "message");
                  ("role", JStr "assistant");
                  ("content", JArr []);
                  ("model", JStr "m");
                  ("stop_reason", JStr "tool_use"); ("stop_sequence", JNull);
                  ("usage", JUndefined)]).
Proof. reflexivity. Qed.

(** The three generation parameters are [input || default]. *)
Lemma generation_parameters JSON_stringify ToString claudeRequest openaiRequest :
  convertClaudeToOpenAI JSON_stringify ToString claudeRequest = Normal openaiRequest ->
  opt_get openaiRequest "max_tokens" = js_or (opt_get claudeRequest "max_tokens") (JNum 4096) /\
  opt_get openaiRequest "temperature"
  = js_or (opt_get claudeRequest "temperature") (JNum 0.7) /\
  opt_get openaiRequest "stream" = js_or (opt_get claudeRequest "stream") (JBool false).
Proof.
  unfold convertClaudeToOpenAI. intros H.
  destruct (get claudeRequest "messages") as [messages|] eqn:Hm; [|done].
  assert (Hx : forall k, get claudeRequest k = Normal (opt_get claudeRequest k))
    by (intros k; by eapply get_total).
  simpl in H. destruct (js_map _ messages _) as [openaiMessages|]; [|done].
  simpl in H. rewrite !Hx in H. simpl in H.
  destruct (if nullish (opt_get claudeRequest "tools") then _ else _) as [openaiTools|];
    [|done].
  simpl in H. injection H as <-. done.
Qed.

Lemma zero_temperature_text :
  Json.parse (dq "{'model':'claude-sonnet-4-20250514','messages':[{'role':'user','content':'hi'}],'temperature':0}")
  = Normal zero_temperature_request.
Proof. vm_compute. reflexivity. Qed.

(** C6, at the input on which the code departs from it: a request that
    carries [temperature: 0] is translated to a request with temperature
    0.7, because [||] replaces every falsy value and not only an absent
    one. *)
Theorem zero_temperature_replaced (JSON_stringify : jsval -> string)
    (ToString : jsval -> string) :
  convertClaudeToOpenAI JSON_stringify ToString zero_temperature_request
  = Normal (JObj [("model", JStr "anthropic/claude-sonnet-4");
                  ("messages", JArr [JObj [("role", JStr "user"); ("content", JStr "hi")]]);
                  ("max_tokens", JNum 4096);
                  ("temperature", JNum 0.7);
                  ("stream", JBool false)]).
Proof. reflexivity. Qed.

(** ** Worked examples *)

(** A tool call: start at index 0 with an id, one argument fragment, end. *)
Example tool_call_exchange :
  emitted Json.parse tool_call_stream None
  = [tool_message_start; tool_block_start; tool_arguments; message_stop true].
Proof. vm_compute. reflexivity. Qed.

(** The consumer leaves after two frames: nothing more is handed over, and
    no stop frame is written. *)
Example cancelled_exchange :
  emitted Json.parse tool_call_stream (Some 2%nat) = [tool_message_start; tool_block_start] /\
  offered (snd (start Json.parse tool_call_stream (initial (Some 2%nat))))
  = [tool_message_start; tool_block_start; tool_arguments].
Proof. vm_compute. split; reflexivity. Qed.

(** Three keys, the first two marked failed: the call goes out with the
    third key and the remapped model name. *)
Example third_credential_used :
  let request :=
    JObj [("model", JStr "claude-3-5-haiku-20241022");
          ("messages", JArr [JObj [("role", JStr "user"); ("content", JStr "hi")]]);
          ("stream", JBool false)] in
  let translated :=
    JObj [("model", JStr "anthropic/claude-3.5-haiku");
          ("messages", JArr [JObj [("role", JStr "user"); ("content", JStr "hi")]]);
          ("max_tokens", JNum 4096); ("temperature", JNum 0.7);
          ("stream", JBool false)] in
  let w := snd (run_calls [CallMarkFailed 1 "k1" None; CallMarkFailed 2 "k2" None]
                  (boot ["k1"; "k2"; "k3"])) in
  convertClaudeToOpenAI (fun _ => "") (fun _ => "") request = Normal translated /\
  network (snd (makeRequestWithRetry (fun n => answering (http 200 "{}") (Z.of_nat n + 2))
                  translated default_maxRetries w))
  = [{| authorization := "Bearer k3"; body := translated |}].
Proof. vm_compute. split; reflexivity. Qed.

(** A response to a POST that the Response constructor cannot rebuild: the
    last attempt ends in the [catch] block. *)
Example not_modified_on_last_attempt :
  fst (makeRequestWithRetry (fun n => answering (http 304 "") (Z.of_nat n)) (JObj [])
         1 (boot ["k1"]))
  = Throw (TypeError "Response with null body status cannot have body").
Proof. vm_compute. reflexivity. Qed.

(** * Further properties *)

(** ** The failure map and the statistics *)

(** ** More on the failure map *)

Lemma Map_has_false k (m : JsMap) : Map_has k m = false <-> forall t, ~ In (k, t) m.
Proof.
  split.
  - intros H t Hin. assert (Map_has k m = true) as H' by (apply Map_has_true; eauto).
    congruence.
  - intros H. destruct (Map_has k m) eqn:E; [|done].
    apply Map_has_true in E as [t Ht]. by destruct (H t).
Qed.

Lemma Map_set_keys k v (m : JsMap) :
  map fst (Map_set k v m) = if Map_has k m then map fst m else map fst m ++ [k].
Proof.
  unfold Map_set. destruct (Map_has k m).
  - induction m as [|[k' v'] m IH]; [done|]. cbn. rewrite IH. f_equal.
    destruct (jskey_eqb k' k) eqn:E; [|done]. by apply jskey_eqb_eq in E.
  - by rewrite map_app.
Qed.

Lemma unique_keys_set k v (m : JsMap) : unique_keys m -> unique_keys (Map_set k v m).
Proof.
  unfold unique_keys. rewrite Map_set_keys. destruct (Map_has k m) eqn:E; [done|].
  intros H. apply NoDup_app. split; [done|]. split; [|apply NoDup_singleton].
  intros x Hx ->%list_elem_of_singleton.
  apply list_elem_of_fmap in Hx as [[k' t] [-> Hin]].
  apply list_elem_of_In in Hin. cbn in *.
  by apply (proj1 (Map_has_false k' m) E t).
Qed.

Lemma unique_keys_filter f (m : JsMap) : unique_keys m -> unique_keys (List.filter f m).
Proof.
  unfold unique_keys. induction m as [|e m IH]; [done|].
  cbn. intros H. apply NoDup_cons in H as [Hx H]. destruct (f e); [|by apply IH].
  cbn. apply NoDup_cons. split; [|by apply IH].
  intros Hin. apply Hx. apply list_elem_of_fmap in Hin as [y [-> Hy]].
  apply list_elem_of_fmap. exists y. split; [done|].
  apply list_elem_of_In. apply list_elem_of_In in Hy. by apply filter_In in Hy as [? _].
Qed.

Lemma unique_keys_purged now entries : forall m,
  unique_keys m -> unique_keys (purged now entries m).
Proof.
  induction entries as [|[k t] rest IH]; intros m H; [done|].
  cbn. apply IH. destruct (_ >? _); [by apply unique_keys_filter | done].
Qed.

(** Setting a key twice leaves what setting it the second time leaves. *)
Lemma Map_set_twice k v1 v2 (m : JsMap) :
  Map_set k v2 (Map_set k v1 m) = Map_set k v2 m.
Proof.
  assert (Map_has k (Map_set k v1 m) = true) as Hhas.
  { apply Map_has_true. exists v1. apply In_Map_set. by left. }
  unfold Map_set at 1. rewrite Hhas. unfold Map_set.
  destruct (Map_has k m) eqn:E.
  - rewrite map_map. apply map_ext. intros [k' t]. cbn.
    destruct (jskey_eqb k' k) eqn:E'; cbn; [by rewrite jskey_eqb_refl | by rewrite E'].
  - rewrite map_app. cbn. rewrite jskey_eqb_refl. f_equal.
    rewrite <- (map_id m) at 2. apply map_ext_in. intros [k' t] Hin. cbn.
    destruct (jskey_eqb k' k) eqn:E'; [|done].
    apply jskey_eqb_eq in E' as ->. by destruct (proj1 (Map_has_false k m) E t).
Qed.

(** The purge deletes the records whose key has an expired record among
    the entries visited. *)
Lemma purged_filter now entries : forall m,
  purged now entries m
  = List.filter (fun e => negb (existsb (fun x => jskey_eqb (fst x) (fst e)
                                                   && negb (unexpired now x)) entries)) m.
Proof.
  induction entries as [|[k t] rest IH]; intros m.
  - cbn. induction m as [|e m IHm]; [done|]. cbn. by rewrite <- IHm.
  - cbn [purged existsb]. rewrite IH. unfold unexpired at 2. cbn [fst snd].
    destruct (now - t >? FAILURE_TIMEOUT) eqn:E; cbn [negb].
    + unfold Map_delete. induction m as [|e m IHm]; [done|]. cbn [List.filter].
      rewrite (andb_true_r (jskey_eqb k (fst e))).
      assert (jskey_eqb (fst e) k = jskey_eqb k (fst e)) as ->.
      { destruct (jskey_eqb k (fst e)) eqn:E1.
        - apply jskey_eqb_eq in E1 as ->. apply jskey_eqb_refl.
        - apply jskey_eqb_neq. apply jskey_eqb_neq in E1. congruence. }
      destruct (jskey_eqb k (fst e)); cbn [negb orb]; [exact IHm|].
      cbn [List.filter]. by rewrite IHm.
    + apply filter_ext. intros e. by rewrite andb_false_r.
Qed.

Lemma unique_record k t t' (m : JsMap) :
  unique_keys m -> In (k, t) m -> In (k, t') m -> t = t'.
Proof.
  unfold unique_keys. induction m as [|[k0 t0] m IH]; [done|].
  cbn [map fst]. intros [Hx Hu]%NoDup_cons [H1|H1] [H2|H2].
  - congruence.
  - injection H1 as -> ->. destruct Hx. apply list_elem_of_fmap. exists (k, t').
    split; [done | by apply list_elem_of_In].
  - injection H2 as -> ->. destruct Hx. apply list_elem_of_fmap. exists (k, t).
    split; [done | by apply list_elem_of_In].
  - by apply IH.
Qed.

Lemma purged_unexpired now (m : JsMap) :
  unique_keys m -> purged now m m = List.filter (unexpired now) m.
Proof.
  intros Hu. rewrite purged_filter. apply filter_ext_in. intros [k t] Hin.
  destruct (unexpired now (k, t)) eqn:E.
  - apply negb_true_iff. apply not_true_iff_false. intros Hex.
    apply existsb_exists in Hex as [[k' t'] [Hin' Hx]].
    apply andb_true_iff in Hx as [Hk Hexp]. cbn in Hk. apply jskey_eqb_eq in Hk as ->.
    rewrite (unique_record k t' t m Hu Hin' Hin) in Hexp. by rewrite E in Hexp.
  - apply negb_false_iff. apply existsb_exists. exists (k, t). split; [done|].
    cbn. by rewrite jskey_eqb_refl, E.
Qed.

Lemma eligible_In now km k :
  In k (eligible now km) <->
  In k (keys km) /\ Map_has (Some k) (purged now (failedKeys km) (failedKeys km)) = false.
Proof.
  unfold eligible, availableKeys. cbn. rewrite filter_In.
  by rewrite negb_true_iff.
Qed.

Lemma getKey_member (now : Z) (w : world) :
  no_undefined (failedKeys (keyManager w)) ->
  keys (keyManager w) <> [] ->
  exists k w',
    getKey now w = (Normal (Some k), w') /\
    In k (keys (keyManager w)) /\
    Map_has (Some k) (failedKeys (keyManager w')) = false /\
    keys (keyManager w') = keys (keyManager w) /\
    currentIndex (keyManager w') = S (currentIndex (keyManager w)) /\
    network w' = network w /\ timers w' = timers w.
Proof.
  intros Hm Hks. destruct (getKey_spec now w Hm) as [lines Hrun]. cbn zeta in Hrun.
  destruct (length (eligible now (keyManager w)) =? 0)%nat eqn:E.
  - destruct (at_mod_Some (keys (keyManager w)) (currentIndex (keyManager w)) Hks)
      as (k & Hk & Hin).
    rewrite Hk in Hrun. eexists k, _. split; [exact Hrun|]. by repeat split.
  - assert (eligible now (keyManager w) <> []) as Hne.
    { intros H. rewrite H in E. discriminate E. }
    destruct (at_mod_Some (eligible now (keyManager w)) (currentIndex (keyManager w)) Hne)
      as (k & Hk & Hin).
    rewrite Hk in Hrun. eexists k, _. split; [exact Hrun|].
    apply eligible_In in Hin as [Hin Hfree]. by repeat split.
Qed.

(** X1.  On a pool that holds a key, [getKey] answers a key of the pool that
    carries no failure record when the call returns; it moves the cursor
    by one and leaves the key list, the network and the timers alone. *)
Theorem getKey_selects_from_pool (now : Z) (w : world) :
  no_undefined (failedKeys (keyManager w)) ->
  keys (keyManager w) <> [] ->
  exists k w',
    getKey now w = (Normal (Some k), w') /\
    In k (keys (keyManager w)) /\
    Map_has (Some k) (failedKeys (keyManager w')) = false /\
    keys (keyManager w') = keys (keyManager w) /\
    currentIndex (keyManager w') = S (currentIndex (keyManager w)) /\
    network w' = network w /\ timers w' = timers w.
Proof. apply getKey_member. Qed.

Lemma getKey_selects_from_pool_witness :
  exists k w',
    getKey 5 (snd (run_calls [CallMarkFailed 1 "a" None] (boot ["a"; "b"])))
    = (Normal (Some k), w') /\
    In k ["a"; "b"] /\
    Map_has (Some k) (failedKeys (keyManager w')) = false /\
    keys (keyManager w') = ["a"; "b"] /\
    currentIndex (keyManager w') = 1%nat /\
    network w' = [] /\ timers w' = [].
Proof.
  apply (getKey_selects_from_pool 5
           (snd (run_calls [CallMarkFailed 1 "a" None] (boot ["a"; "b"])))).
  - reflexivity.
  - discriminate.
Defined.

(** X2.  After [getKey] at [now] the failure map holds the earlier records that
    are not older than the timeout, in their order, and nothing else; it
    is empty when no key was eligible. *)
Theorem getKey_purges_expired (now : Z) (w : world) :
  no_undefined (failedKeys (keyManager w)) ->
  unique_keys (failedKeys (keyManager w)) ->
  failedKeys (keyManager (snd (getKey now w)))
  = if (length (eligible now (keyManager w)) =? 0)%nat then []
    else List.filter (unexpired now) (failedKeys (keyManager w)).
Proof.
  intros Hm Hu. destruct (getKey_spec now w Hm) as [lines Hrun]. cbn zeta in Hrun.
  rewrite Hrun. cbn. destruct (_ =? _)%nat; [done|]. by apply purged_unexpired.
Qed.

Lemma getKey_purges_expired_witness :
  failedKeys (keyManager (snd (getKey 60002
      (snd (run_calls [CallMarkFailed 1 "a" None; CallMarkFailed 2 "b" None]
              (boot ["a"; "b"; "c"]))))))
  = [(Some "b", 2)].
Proof.
  apply (getKey_purges_expired 60002
           (snd (run_calls [CallMarkFailed 1 "a" None; CallMarkFailed 2 "b" None]
                   (boot ["a"; "b"; "c"])))).
  - reflexivity.
  - apply NoDup_ListNoDup. repeat constructor; cbn; intuition discriminate.
Defined.

(** X3.  A key is eligible at [now] exactly when it is in the pool and its
    failure record, if any, is older than the timeout. *)
Theorem eligible_after_timeout (now : Z) (km : ApiKeyManager) (k : string) :
  unique_keys (failedKeys km) ->
  In k (eligible now km) <->
  In k (keys km) /\ forall t, In (Some k, t) (failedKeys km) -> FAILURE_TIMEOUT < now - t.
Proof.
  intros Hu. rewrite eligible_In, purged_unexpired by done.
  rewrite Map_has_false. split; intros [Hin H]; (split; [done|]).
  - intros t Ht. destruct (now - t >? FAILURE_TIMEOUT) eqn:E; [lia|].
    destruct (H t). apply filter_In. split; [done|]. unfold unexpired. cbn. by rewrite E.
  - intros t [Ht Hfresh]%filter_In. specialize (H t Ht).
    unfold unexpired in Hfresh. cbn in Hfresh.
    destruct (now - t >? FAILURE_TIMEOUT) eqn:E; [done | lia].
Qed.

Lemma eligible_after_timeout_witness :
  In "a" (eligible 60002 {| keys := ["a"; "b"]; currentIndex := 0;
                            failedKeys := [(Some "a", 1); (Some "b", 2)] |}) <->
  In "a" ["a"; "b"] /\
  forall t, In (Some "a", t) [(Some "a", 1); (Some "b", 2)] -> FAILURE_TIMEOUT < 60002 - t.
Proof.
  apply (eligible_after_timeout 60002
           {| keys := ["a"; "b"]; currentIndex := 0;
              failedKeys := [(Some "a", 1); (Some "b", 2)] |} "a").
  apply NoDup_ListNoDup. repeat constructor; cbn; intuition discriminate.
Defined.

Lemma markKeyAsFailed_run now k error w :
  markKeyAsFailed now (Some k) error w
  = (Normal tt,
     evolve (set_failedKeys (Map_set (Some k) now) (keyManager w))
       [(ERROR, "Marked key as failed: " +:+ String.substring 0 8 k +:+ "... Error: "
                +:+ str_or error "Unknown")] w).
Proof. done. Qed.

(** X4.  Marking a key stores one record, dated by the call; marking it again
    replaces the date and nothing else. *)
Theorem markKeyAsFailed_refreshes (t1 t2 : Z) (k : string) (error1 error2 : option string)
    (w : world) :
  let once := keyManager (snd (markKeyAsFailed t2 (Some k) error2 w)) in
  let twice := keyManager (snd (markKeyAsFailed t2 (Some k) error2
                                  (snd (markKeyAsFailed t1 (Some k) error1 w)))) in
  failedKeys twice = failedKeys once /\
  (forall t, In (Some k, t) (failedKeys once) <-> t = t2) /\
  (forall k' t, k' <> Some k ->
     (In (k', t) (failedKeys once) <-> In (k', t) (failedKeys (keyManager w)))) /\
  length (failedKeys once)
  = (if Map_has (Some k) (failedKeys (keyManager w))
     then length (failedKeys (keyManager w))
     else S (length (failedKeys (keyManager w)))) /\
  keys once = keys (keyManager w) /\ currentIndex once = currentIndex (keyManager w) /\
  (unique_keys (failedKeys (keyManager w)) -> unique_keys (failedKeys once)).
Proof.
  cbn zeta. rewrite !markKeyAsFailed_run. cbn.
  split; [apply Map_set_twice|]. split; [|split; [|split; [|split; [|split]]]]; try done.
  - intros t. rewrite In_Map_set. cbn. split.
    + intros [[= ->]|[_ H]]; done.
    + intros ->. by left.
  - intros k' t Hk. rewrite In_Map_set. cbn. split.
    + intros [[= -> _]|[H _]]; done.
    + intros H. by right.
  - unfold Map_set. destruct (Map_has _ _); [by rewrite length_map|].
    rewrite length_app. cbn. lia.
  - apply unique_keys_set.
Qed.

(** *** Histories from a fresh manager *)


Lemma pool_invariant_defined ks km :
  pool_invariant ks km -> no_undefined (failedKeys km).
Proof.
  intros (_ & _ & H). apply Map_has_false. intros t Hin.
  by destruct (H _ Hin) as (k & Hk & _).
Qed.

Lemma pool_invariant_getKey ks now w :
  pool_invariant ks (keyManager w) ->
  exists k w', getKey now w = (Normal k, w') /\ pool_invariant ks (keyManager w').
Proof.
  intros Hinv. pose proof (pool_invariant_defined _ _ Hinv) as Hm.
  destruct (getKey_spec now w Hm) as [lines Hrun]. cbn zeta in Hrun.
  eexists _, _. split; [exact Hrun|]. destruct Hinv as (Hk & Hu & Hin).
  cbn. split; [done|]. destruct (_ =? _)%nat.
  - split; [apply NoDup_nil_2 | done].
  - split; [by apply unique_keys_purged|]. intros e He. apply Hin. by eapply In_purged.
Qed.

Lemma pool_invariant_mark ks now k error w :
  In k ks -> pool_invariant ks (keyManager w) ->
  pool_invariant ks (keyManager (snd (markKeyAsFailed now (Some k) error w))).
Proof.
  intros Hk (Hks & Hu & Hin). rewrite markKeyAsFailed_run. cbn.
  split; [done|]. split; [by apply unique_keys_set|].
  intros e [->|[He _]]%In_Map_set; [by exists k | by apply Hin].
Qed.

Lemma pool_invariant_history ks calls : forall w,
  Forall (marks_within ks) calls ->
  pool_invariant ks (keyManager w) ->
  pool_invariant ks (keyManager (snd (run_calls calls w))).
Proof.
  induction calls as [|call rest IH]; intros w Hcalls Hinv; [done|].
  apply Forall_cons in Hcalls as [Hcall Hrest]. destruct call as [now|now k error].
  - destruct (pool_invariant_getKey ks now w Hinv) as (k & w1 & Hrun & Hinv1).
    rewrite (run_calls_getKey _ _ _ _ _ Hrun). specialize (IH w1 Hrest Hinv1).
    by destruct (run_calls rest w1) as [[answers|e] w2].
  - rewrite run_calls_mark. apply IH; [done|].
    pose proof (pool_invariant_mark ks now k error w Hcall Hinv) as H.
    by rewrite markKeyAsFailed_run in H.
Qed.

Lemma pool_invariant_bounds ks km :
  pool_invariant ks km -> (length (failedKeys km) <= length ks)%nat.
Proof.
  intros (_ & Hu & Hin). rewrite <- (length_map fst (failedKeys km)).
  rewrite <- (length_map Some ks). apply submseteq_length, NoDup_submseteq; [done|].
  intros x [e [-> He]]%list_elem_of_fmap. apply list_elem_of_In in He.
  destruct (Hin e He) as (k & -> & Hk). apply list_elem_of_fmap. exists k.
  split; [done | by apply list_elem_of_In].
Qed.

(** X5.  The statistics stay within the pool as long as the keys marked as
    failed are keys of the pool. *)
Theorem stats_within_pool (ks : list string) (calls : list pool_call) :
  Forall (marks_within ks) calls ->
  let s := getStats (keyManager (snd (run_calls calls (boot ks)))) in
  total s = Z.of_nat (length ks) /\
  0 <= failed s <= total s /\
  0 <= available s <= total s /\
  available s + failed s = total s.
Proof.
  intros Hcalls.
  assert (pool_invariant ks (keyManager (boot ks))) as Hboot.
  { split; [done|]. split; [apply NoDup_nil_2 | done]. }
  pose proof (pool_invariant_history ks calls (boot ks) Hcalls Hboot) as Hinv.
  pose proof (pool_invariant_bounds _ _ Hinv) as Hle.
  destruct Hinv as (Hk & _). cbn zeta. unfold getStats. cbn [total available failed].
  rewrite Hk. lia.
Qed.

Lemma stats_within_pool_witness :
  let s := getStats (keyManager (snd (run_calls
             [CallMarkFailed 1 "a" None; CallMarkFailed 2 "a" None; CallGetKey 3]
             (boot ["a"; "b"])))) in
  total s = Z.of_nat (length ["a"; "b"]) /\
  0 <= failed s <= total s /\
  0 <= available s <= total s /\
  available s + failed s = total s.
Proof.
  apply (stats_within_pool ["a"; "b"]
           [CallMarkFailed 1 "a" None; CallMarkFailed 2 "a" None; CallGetKey 3]).
  repeat constructor; cbn; auto.
Defined.

(** ** Attempts and delays of makeRequestWithRetry *)

(** An attempt that holds a key sends one call and sets no timer; it
    asks for another attempt only when it is not the last. *)
Lemma attempt_sends_one e openaiRequest attempt maxRetries k w :
  let res := try_attempt e openaiRequest attempt maxRetries (Some k) w in
  network (snd res) = network w ++ [call_with k openaiRequest] /\
  timers (snd res) = timers w /\
  keys (keyManager (snd res)) = keys (keyManager w) /\
  (no_undefined (failedKeys (keyManager w)) ->
   no_undefined (failedKeys (keyManager (snd res)))) /\
  (forall lastError, fst res = Normal (None, lastError) -> attempt <> maxRetries).
Proof.
  cbn zeta. unfold try_attempt, try_catch, try_block, catch_block, call_with.
  unfold bind, fetch, send, lift, print, response_text, markKeyAsFailed, modify, ret, throw.
  cbn. destruct (reply e _) as [r|err]; cbn.
  - destruct (ok r); cbn.
    + repeat split; try done. 
    + destruct (payload r) as [text|err]; cbn.
      * destruct ((status r =? 401) || (status r =? 403)); cbn;
          destruct (attempt =? maxRetries)%nat eqn:E; cbn;
          try destruct (new_Response _ _ _) as [r'|err]; cbn;
          repeat split; try done;
          try (intros; by apply no_undefined_set);
          try (intros ? [=]); try (intros _ ->; by rewrite Nat.eqb_refl in E);
          try (intros ->; by rewrite Nat.eqb_refl in E).
        intros. by do 2 apply no_undefined_set.
      * destruct (attempt =? maxRetries)%nat eqn:E; cbn;
          repeat split; try done;
          try (intros; by apply no_undefined_set);
          try (intros ? [=]); try (intros ->; by rewrite Nat.eqb_refl in E).
  - destruct (attempt =? maxRetries)%nat eqn:E; cbn;
      repeat split; try done;
      try (intros; by apply no_undefined_set);
      try (intros ? [=]); try (intros ->; by rewrite Nat.eqb_refl in E).
Qed.

Lemma delays_cons first count :
  delays first (S count) = 1000 * Z.of_nat first :: delays (S first) count.
Proof. done. Qed.

Lemma retry_loop_cons env openaiRequest maxRetries remaining attempt lastError w k w1 :
  getKey (t_select (env attempt)) w = (Normal (Some k), w1) ->
  retry_loop env openaiRequest maxRetries (S remaining) attempt lastError w
  = match try_attempt (env attempt) openaiRequest attempt maxRetries (Some k) w1 with
    | (Normal (Some r, _), w2) => (Normal r, w2)
    | (Normal (None, lastError'), w2) =>
        retry_loop env openaiRequest maxRetries remaining (S attempt) lastError'
          (snd (sleep (1000 * Z.of_nat attempt) w2))
    | (Throw e, w2) => (Throw e, w2)
    end.
Proof.
  intros H. cbn [retry_loop]. unfold bind at 1. rewrite H. unfold bind at 1.
  by destruct (try_attempt _ _ _ _ _ _) as [[[[r|] le]|e] w2].
Qed.

Lemma retry_loop_accounting env openaiRequest maxRetries :
  forall remaining attempt lastError w,
    (attempt + remaining = S maxRetries)%nat ->
    no_undefined (failedKeys (keyManager w)) ->
    keys (keyManager w) <> [] ->
    let w' := snd (retry_loop env openaiRequest maxRetries remaining attempt lastError w) in
    exists used,
      (length used <= remaining)%nat /\
      ((1 <= remaining)%nat -> (1 <= length used)%nat) /\
      Forall (fun k => In k (keys (keyManager w))) used /\
      network w' = network w ++ map (fun k => call_with k openaiRequest) used /\
      timers w' = timers w ++ delays attempt (length used - 1) /\
      keys (keyManager w') = keys (keyManager w).
Proof.
  induction remaining as [|remaining IH]; intros attempt lastError w Hsum Hm Hks; cbn zeta.
  - exists []. cbn. rewrite !app_nil_r. repeat split; try done; try lia.
  - destruct (getKey_member (t_select (env attempt)) w Hm Hks)
      as (k & w1 & Hget & Hin & _ & Hk1 & _ & Hn1 & Ht1).
    destruct (getKey_nonempty (t_select (env attempt)) w Hm Hks)
      as (k' & w1' & Hget' & _ & Hm1).
    rewrite Hget in Hget'. injection Hget' as <- <-.
    rewrite (retry_loop_cons _ _ _ _ _ _ _ _ _ Hget).
    destruct (attempt_sends_one (env attempt) openaiRequest attempt maxRetries k w1)
      as (Hn2 & Ht2 & Hk2 & Hm2 & Hlast).
    destruct (try_attempt (env attempt) openaiRequest attempt maxRetries (Some k) w1)
      as [[[[r|] lastError']|e] w2]; cbn [fst snd] in *.
    + exists [k]. cbn. rewrite Hn2, Ht2, Hn1, Ht1, Hk2, Hk1, app_nil_r.
      repeat split; try done; try lia. by constructor.
    + specialize (Hlast _ eq_refl).
      set (w3 := snd (sleep (1000 * Z.of_nat attempt) w2)).
      destruct (IH (S attempt) lastError' w3) as (used & Hlen & Hone & Hall & Hn & Ht & Hk).
      { lia. } { by apply Hm2. } { cbn. by rewrite Hk2, Hk1. }
      cbn zeta in Hn, Ht, Hk. exists (k :: used).
      assert (1 <= length used)%nat as H1 by (apply Hone; lia).
      cbn [length map]. rewrite Hn, Ht, Hk. unfold w3. cbn [sleep snd network timers keyManager].
      rewrite Hn2, Ht2, Hn1, Ht1, Hk2, Hk1, <- !app_assoc. cbn [app].
      replace (S (length used) - 1)%nat with (S (length used - 1)) by lia.
      rewrite delays_cons.
      repeat split; try done; try lia.
      constructor; [done|]. cbn in Hall. by rewrite Hk2, Hk1 in Hall.
    + exists [k]. cbn. rewrite Hn2, Ht2, Hn1, Ht1, Hk2, Hk1, app_nil_r.
      repeat split; try done; try lia. by constructor.
Qed.

(** X6.  Whatever the upstream answers, a request is sent at most [maxRetries]
    times, each time with a key of the pool and the same body; the delay
    after attempt [i] is [1000 * i], and no delay follows the attempt
    that ends the function. *)
Theorem retry_accounting (env : nat -> attempt_env) (openaiRequest : jsval)
    (maxRetries : nat) (w : world) :
  no_undefined (failedKeys (keyManager w)) ->
  keys (keyManager w) <> [] ->
  let w' := snd (makeRequestWithRetry env openaiRequest maxRetries w) in
  exists used,
    (length used <= maxRetries)%nat /\
    ((1 <= maxRetries)%nat -> (1 <= length used)%nat) /\
    Forall (fun k => In k (keys (keyManager w))) used /\
    network w' = network w ++ map (fun k => call_with k openaiRequest) used /\
    timers w' = timers w ++ delays 1 (length used - 1) /\
    keys (keyManager w') = keys (keyManager w).
Proof.
  intros Hm Hks. apply retry_loop_accounting; [lia | done | done].
Qed.

Lemma retry_accounting_witness :
  let w' := snd (makeRequestWithRetry (fun n => answering (http 500 "boom") (Z.of_nat n))
                   (JObj []) 3 (boot ["k1"; "k2"])) in
  exists used,
    (length used <= 3)%nat /\
    ((1 <= 3)%nat -> (1 <= length used)%nat) /\
    Forall (fun k => In k ["k1"; "k2"]) used /\
    network w' = [] ++ map (fun k => call_with k (JObj [])) used /\
    timers w' = [] ++ delays 1 (length used - 1) /\
    keys (keyManager w') = ["k1"; "k2"].
Proof.
  apply (retry_accounting (fun n => answering (http 500 "boom") (Z.of_nat n))
           (JObj []) 3 (boot ["k1"; "k2"])).
  - reflexivity.
  - discriminate.
Defined.

Lemma attempt_succeeds e openaiRequest attempt maxRetries k w r :
  reply e (call_with k openaiRequest) = Resolves r -> ok r = true ->
  fst (try_attempt e openaiRequest attempt maxRetries (Some k) w) = Normal (Some r, "").
Proof.
  intros Hr Hok. unfold try_attempt, try_catch, try_block.
  unfold bind, fetch, send, lift, print, ret. cbn.
  unfold call_with in Hr. rewrite Hr. cbn. by rewrite Hok.
Qed.

Lemma retry_loop_first_success env openaiRequest maxRetries j r :
  (forall n c, (1 <= n < j)%nat -> fails (reply (env n) c) = true) ->
  (forall c, reply (env j) c = Resolves r) -> ok r = true ->
  forall remaining attempt lastError w,
    (attempt + remaining = S maxRetries)%nat ->
    (1 <= attempt <= j)%nat -> (j <= maxRetries)%nat ->
    no_undefined (failedKeys (keyManager w)) ->
    keys (keyManager w) <> [] ->
    let res := retry_loop env openaiRequest maxRetries remaining attempt lastError w in
    fst res = Normal r /\
    length (network (snd res)) = (length (network w) + (S j - attempt))%nat /\
    timers (snd res) = timers w ++ delays attempt (j - attempt).
Proof.
  intros Hfail Hreply Hok.
  induction remaining as [|remaining IH]; intros attempt lastError w Hsum Hj Hmax Hm Hks;
    cbn zeta; [lia|].
  destruct (getKey_member (t_select (env attempt)) w Hm Hks)
    as (k & w1 & Hget & Hin & _ & Hk1 & _ & Hn1 & Ht1).
  destruct (getKey_nonempty (t_select (env attempt)) w Hm Hks)
    as (k' & w1' & Hget' & _ & Hm1).
  rewrite Hget in Hget'. injection Hget' as <- <-.
  rewrite (retry_loop_cons _ _ _ _ _ _ _ _ _ Hget).
  destruct (attempt_sends_one (env attempt) openaiRequest attempt maxRetries k w1)
    as (Hn2 & Ht2 & Hk2 & Hm2 & Hlast).
  destruct (decide (attempt = j)) as [->|Hne].
  - pose proof (attempt_succeeds (env j) openaiRequest j maxRetries k w1 r
                  (Hreply _) Hok) as Hrun.
    destruct (try_attempt (env j) openaiRequest j maxRetries (Some k) w1) as [c w2].
    cbn [fst snd] in *. subst c. cbn.
    rewrite Hn2, Ht2, Hn1, Ht1, length_app. cbn.
    replace (j - j)%nat with 0%nat by lia. cbn. rewrite app_nil_r.
    repeat split; try done. lia.
  - destruct (attempt_continues (env attempt) openaiRequest attempt maxRetries k w1)
      as (lastError' & w2' & Hrun & _); [lia | apply Hfail; lia |].
    rewrite Hrun in Hn2, Ht2, Hk2, Hm2 |- *. cbn [fst snd] in *.
    set (w3 := snd (sleep (1000 * Z.of_nat attempt) w2')).
    destruct (IH (S attempt) lastError' w3) as (Hres & Hn & Ht).
    { lia. } { lia. } { lia. } { by apply Hm2. } { cbn. by rewrite Hk2, Hk1. }
    cbn zeta in Hres, Hn, Ht. rewrite Hres, Hn, Ht. unfold w3.
    cbn [sleep snd network timers].
    rewrite Hn2, Ht2, Hn1, Ht1, length_app, <- app_assoc. cbn [length app].
    replace (j - attempt)%nat with (S (j - S attempt)) by lia.
    rewrite delays_cons. repeat split; try done. lia.
Qed.

(** X7.  The first attempt that meets a 2xx answer ends the function with
    that very response; the earlier attempts each sent one call and
    waited [1000 * i] milliseconds. *)
Theorem retry_stops_at_first_success (env : nat -> attempt_env) (openaiRequest : jsval)
    (maxRetries j : nat) (r : response) (w : world) :
  no_undefined (failedKeys (keyManager w)) ->
  keys (keyManager w) <> [] ->
  (1 <= j <= maxRetries)%nat ->
  (forall n c, (1 <= n < j)%nat -> fails (reply (env n) c) = true) ->
  (forall c, reply (env j) c = Resolves r) ->
  ok r = true ->
  let res := makeRequestWithRetry env openaiRequest maxRetries w in
  fst res = Normal r /\
  length (network (snd res)) = (length (network w) + j)%nat /\
  timers (snd res) = timers w ++ delays 1 (j - 1).
Proof.
  intros Hm Hks Hj Hfail Hreply Hok.
  destruct (retry_loop_first_success env openaiRequest maxRetries j r Hfail Hreply Hok
              maxRetries 1%nat "" w) as (H1 & H2 & H3); try done; try lia.
  cbn zeta in *. unfold makeRequestWithRetry. rewrite H1, H2, H3.
  repeat split; try done. lia.
Qed.

Lemma retry_stops_at_first_success_witness :
  let env := fun n => if (n <? 2)%nat then answering (http 500 "boom") (Z.of_nat n)
                      else answering (http 200 "{}") (Z.of_nat n) in
  let res := makeRequestWithRetry env (JObj []) 3 (boot ["k1"; "k2"]) in
  fst res = Normal {| status := 200; payload := BodyText "{}"; headers := [] |} /\
  length (network (snd res)) = (length (network (boot ["k1"; "k2"])) + 2)%nat /\
  timers (snd res) = timers (boot ["k1"; "k2"]) ++ delays 1 (2 - 1).
Proof.
  apply (retry_stops_at_first_success
           (fun n => if (n <? 2)%nat then answering (http 500 "boom") (Z.of_nat n)
                     else answering (http 200 "{}") (Z.of_nat n))
           (JObj []) 3 2 {| status := 200; payload := BodyText "{}"; headers := [] |}
           (boot ["k1"; "k2"])).
  - reflexivity.
  - discriminate.
  - lia.
  - intros n c Hn. destruct n as [|[|n]]; [lia | reflexivity | lia].
  - reflexivity.
  - reflexivity.
Defined.

(** ** More on the translators *)

Lemma mapM_Forall2 {A B} (f : A -> completion B) l : forall ys,
  mapM f l = Normal ys -> Forall2 (fun x y => f x = Normal y) l ys.
Proof.
  induction l as [|x l IH]; intros ys H; cbn in H.
  - injection H as <-. constructor.
  - destruct (f x) as [y|e] eqn:E; [|discriminate H]. cbn in H.
    destruct (mapM f l) as [ys'|e]; [|discriminate H]. cbn in H.
    injection H as <-. constructor; [done | by apply IH].
Qed.

Lemma Forall2_mapM {A B} (f : A -> completion B) l ys :
  Forall2 (fun x y => f x = Normal y) l ys -> mapM f l = Normal ys.
Proof. induction 1 as [|x y l ys Hx Hl IH]; cbn; [done|]. by rewrite Hx, IH. Qed.

Lemma mapM_throws {A B} (f : A -> completion B) before x after ys e :
  Forall2 (fun x y => f x = Normal y) before ys -> f x = Throw e ->
  mapM f (before ++ x :: after) = Throw e.
Proof.
  induction 1 as [|x0 y l ys' Hx Hl IH]; intros He; cbn.
  - by rewrite He.
  - by rewrite Hx, IH.
Qed.

Lemma get_defined v k : nullish v = false -> get v k = Normal (opt_get v k).
Proof. by destruct v. Qed.

Lemma get_Normal v k x : get v k = Normal x -> nullish v = false /\ x = opt_get v k.
Proof. destruct v; cbn; intros [= <-]; done. Qed.

Section Requests.

Variable JSON_stringify : jsval -> string.
Variable ToString : jsval -> string.

Local Notation "'translate'" := (convertClaudeToOpenAI JSON_stringify ToString)
  (only parsing).

Lemma blocks_flattened blocks parts :
  mapM (fun c => text <-! get c "text" ;;
                 Normal (js_or text (JStr (JSON_stringify c)))) blocks = Normal parts ->
  parts = map (fun c => js_or (opt_get c "text") (JStr (JSON_stringify c))) blocks /\
  Forall (fun c => nullish c = false) blocks.
Proof.
  intros H. apply mapM_Forall2 in H.
  induction H as [|c part blocks parts Hc Hrest [IH1 IH2]]; [done|].
  destruct (get c "text") as [text|e] eqn:E; [|discriminate Hc]. cbn in Hc.
  injection Hc as <-. apply get_Normal in E as [Hdef ->].
  split; [cbn; by rewrite IH1 | by constructor].
Qed.

Lemma blocks_readable blocks :
  Forall (fun c => nullish c = false) blocks ->
  mapM (fun c => text <-! get c "text" ;;
                 Normal (js_or text (JStr (JSON_stringify c)))) blocks
  = Normal (map (fun c => js_or (opt_get c "text") (JStr (JSON_stringify c))) blocks).
Proof.
  induction 1 as [|c blocks Hc Hrest IH]; [done|].
  cbn. rewrite (get_defined c "text" Hc). cbn. by rewrite IH.
Qed.

Lemma convert_content_flattened content out :
  convert_content JSON_stringify ToString content = Normal out ->
  out = flattened JSON_stringify ToString content /\ readable_content content.
Proof.
  destruct content as [| |b|q|s|blocks|props|name]; cbn; try (by intros [= <-]).
  destruct (mapM _ blocks) as [parts|e] eqn:E; [|done]. cbn. intros [= <-].
  apply blocks_flattened in E as [-> H]. done.
Qed.

Lemma convert_content_readable content :
  readable_content content ->
  convert_content JSON_stringify ToString content
  = Normal (flattened JSON_stringify ToString content).
Proof.
  destruct content as [| |b|q|s|blocks|props|name]; cbn; try done.
  intros H. by rewrite (blocks_readable blocks H).
Qed.

Lemma convert_message_translated msg out :
  convert_message JSON_stringify ToString msg = Normal out <->
  nullish msg = false /\ readable_content (opt_get msg "content") /\
  translated_message JSON_stringify ToString msg out.
Proof.
  unfold convert_message, translated_message. split.
  - intros H. destruct (get msg "role") as [role|e] eqn:E1; [|discriminate H].
    apply get_Normal in E1 as [Hdef ->]. cbn in H.
    rewrite (get_defined msg "content" Hdef) in H. cbn in H.
    destruct (convert_content _ _ _) as [content'|e] eqn:E2; [|discriminate H].
    apply convert_content_flattened in E2 as [-> Hr]. cbn in H. by injection H as <-.
  - intros (Hdef & Hr & ->). rewrite !(get_defined msg _ Hdef). cbn.
    by rewrite (convert_content_readable _ Hr).
Qed.

Lemma convert_tool_translated tool out :
  convert_tool tool = Normal out <-> nullish tool = false /\ translated_tool tool out.
Proof.
  unfold convert_tool, translated_tool. split.
  - intros H. destruct (get tool "name") as [name|e] eqn:E1; [|discriminate H].
    apply get_Normal in E1 as [Hdef ->]. cbn in H.
    rewrite !(get_defined tool _ Hdef) in H. cbn in H. by injection H as <-.
  - intros (Hdef & ->). by rewrite !(get_defined tool _ Hdef).
Qed.

Lemma Forall2_messages msgs outs :
  Forall2 (fun msg out => convert_message JSON_stringify ToString msg = Normal out)
    msgs outs <->
  Forall (fun msg => nullish msg = false /\ readable_content (opt_get msg "content")) msgs /\
  Forall2 (translated_message JSON_stringify ToString) msgs outs.
Proof.
  split.
  - induction 1 as [|msg out msgs outs H Hrest [IH1 IH2]]; [by split|].
    apply convert_message_translated in H as (H1 & H2 & H3).
    split; constructor; done.
  - intros [H1 H2]. induction H2 as [|msg out msgs outs H Hrest IH]; [constructor|].
    apply Forall_cons in H1 as [[Hdef Hr] H1].
    constructor; [by apply convert_message_translated | by apply IH].
Qed.

Lemma Forall2_tools tools outs :
  Forall2 (fun tool out => convert_tool tool = Normal out) tools outs <->
  Forall (fun tool => nullish tool = false) tools /\ Forall2 translated_tool tools outs.
Proof.
  split.
  - induction 1 as [|tool out tools outs H Hrest [IH1 IH2]]; [by split|].
    apply convert_tool_translated in H as (H1 & H2). split; constructor; done.
  - intros [H1 H2]. induction H2 as [|tool out tools outs H Hrest IH]; [constructor|].
    apply Forall_cons in H1 as [Hdef H1].
    constructor; [by apply convert_tool_translated | by apply IH].
Qed.

(** The translated request, field by field. *)
Lemma translate_inversion claudeRequest openaiRequest :
  translate claudeRequest = Normal openaiRequest <->
  exists messages outs tools,
    opt_get claudeRequest "messages" = JArr messages /\
    Forall (fun msg => nullish msg = false /\ readable_content (opt_get msg "content"))
      messages /\
    Forall2 (translated_message JSON_stringify ToString) messages outs /\
    ((nullish (opt_get claudeRequest "tools") = true /\ tools = JUndefined) \/
     (exists ts outs', opt_get claudeRequest "tools" = JArr ts /\
                       Forall (fun tool => nullish tool = false) ts /\
                       Forall2 translated_tool ts outs' /\ tools = JArr outs')) /\
    openaiRequest
    = JObj ([ ("model", js_or (MODEL_MAPPING_at (to_text ToString
                                                   (opt_get claudeRequest "model")))
                          (JStr "anthropic/claude-4-sonnet"));
              ("messages", JArr outs);
              ("max_tokens", js_or (opt_get claudeRequest "max_tokens") (JNum 4096));
              ("temperature", js_or (opt_get claudeRequest "temperature") (JNum 0.7));
              ("stream", js_or (opt_get claudeRequest "stream") (JBool false)) ]
            ++ spread_if tools "tools" tools
            ++ spread_if (opt_get claudeRequest "tool_choice") "tool_choice"
                 (opt_get claudeRequest "tool_choice")).
Proof.
  unfold convertClaudeToOpenAI. split.
  - intros H.
    destruct (get claudeRequest "messages") as [messages|e] eqn:E1; [|discriminate H].
    apply get_Normal in E1 as [Hdef ->]. cbn [cbind] in H.
    rewrite !(get_defined claudeRequest _ Hdef) in H.
    destruct (opt_get claudeRequest "messages") as [| |b|q|s|msgs|props|name] eqn:Em;
      try discriminate H.
    cbn [js_map cbind] in H.
    destruct (mapM _ msgs) as [outs|e] eqn:E2; [|discriminate H]. cbn [cbind] in H.
    apply mapM_Forall2, Forall2_messages in E2 as [Hr Hm].
    destruct (nullish (opt_get claudeRequest "tools")) eqn:Hn.
    + cbn [cbind] in H. injection H as <-.
      exists msgs, outs, JUndefined. split; [done|]. split; [done|]. split; [done|].
      split; [by left | done].
    + destruct (opt_get claudeRequest "tools") as [| |b|q|s|ts|props|name] eqn:Et;
        try discriminate H; try discriminate Hn.
      cbn [js_map cbind] in H.
      destruct (mapM _ ts) as [outs'|e] eqn:E3; [|discriminate H]. cbn [cbind] in H.
      apply mapM_Forall2, Forall2_tools in E3 as [Hr' Hm'].
      injection H as <-.
      exists msgs, outs, (JArr outs'). split; [done|]. split; [done|]. split; [done|].
      split; [|done]. right. by exists ts, outs'.
  - intros (msgs & outs & tools & Hmsgs & Hr & Hm & Htools & ->).
    assert (nullish claudeRequest = false) as Hdef.
    { destruct claudeRequest; try done. }
    rewrite !(get_defined claudeRequest _ Hdef). cbn [cbind]. rewrite Hmsgs.
    cbn [js_map]. rewrite (Forall2_mapM _ msgs outs) by (by apply Forall2_messages).
    cbn [cbind]. destruct Htools as [[Hn ->] | (ts & outs' & Ht & Hr' & Hm' & ->)].
    + by rewrite Hn.
    + rewrite Ht. cbn [nullish js_map].
      by rewrite (Forall2_mapM _ ts outs') by (by apply Forall2_tools).
Qed.

Lemma translation_readable (claudeRequest : jsval) :
  (exists openaiRequest, translate claudeRequest = Normal openaiRequest) <->
  readable_request claudeRequest.
Proof.
  split.
  - intros [openaiRequest H]. apply translate_inversion in H
      as (msgs & outs & tools & Hmsgs & Hr & _ & Htools & _).
    exists msgs. split; [done|]. split; [done|].
    destruct Htools as [[Hn _] | (ts & outs' & Ht & Hr' & _)]; [by left|].
    right. by exists ts.
  - intros (msgs & Hmsgs & Hr & Htools).
    assert (exists outs, Forall2 (translated_message JSON_stringify ToString) msgs outs)
      as [outs Houts].
    { clear. induction msgs as [|msg msgs [outs IH]]; [by exists []|].
      eexists (_ :: outs). constructor; [reflexivity | exact IH]. }
    destruct Htools as [Hn | (ts & Ht & Hr')].
    + eexists. apply translate_inversion. exists msgs, outs, JUndefined.
      repeat split; try done. by left.
    + assert (exists outs', Forall2 translated_tool ts outs') as [outs' Houts'].
      { clear. induction ts as [|tool ts [outs IH]]; [by exists []|].
        eexists (_ :: outs). constructor; [reflexivity | exact IH]. }
      eexists. apply translate_inversion. exists msgs, outs, (JArr outs').
      repeat split; try done. right. by exists ts, outs'.
Qed.

Lemma get_TypeError v k e : get v k = Throw e -> err_name e = "TypeError".
Proof. destruct v; cbn; intros [= <-]; done. Qed.

Lemma mapM_TypeError {A B} (f : A -> completion B) l e :
  (forall x e', f x = Throw e' -> err_name e' = "TypeError") ->
  mapM f l = Throw e -> err_name e = "TypeError".
Proof.
  intros Hf. induction l as [|x l IH]; cbn; [done|].
  destruct (f x) as [y|e'] eqn:E; cbn.
  - destruct (mapM f l) as [ys|e']; cbn; [done|]. intros [= <-]. by apply IH.
  - intros [= <-]. by eapply Hf.
Qed.

Lemma js_map_TypeError what v f e :
  (forall x e', f x = Throw e' -> err_name e' = "TypeError") ->
  js_map what v f = Throw e -> err_name e = "TypeError".
Proof.
  intros Hf. destruct v as [| |b|q|s|items|props|name]; cbn; try (intros [= <-]; done).
  destruct (mapM f items) as [ys|e'] eqn:E; cbn; [done|]. intros [= <-].
  by eapply mapM_TypeError.
Qed.

Lemma translation_errors (claudeRequest : jsval) (e : js_error) :
  translate claudeRequest = Throw e -> err_name e = "TypeError".
Proof.
  unfold convertClaudeToOpenAI. intros H.
  destruct (get claudeRequest "messages") as [messages|e1] eqn:E1; cbn [cbind] in H;
    [|injection H as <-; by eapply get_TypeError].
  destruct (js_map _ messages _) as [outs|e2] eqn:E2; cbn [cbind] in H.
  2:{ injection H as <-. eapply js_map_TypeError; [|exact E2].
      intros msg e' Hmsg. unfold convert_message in Hmsg.
      destruct (get msg "role") eqn:G1; cbn [cbind] in Hmsg;
        [|injection Hmsg as <-; by eapply get_TypeError].
      destruct (get msg "content") as [content|] eqn:G2; cbn [cbind] in Hmsg;
        [|injection Hmsg as <-; by eapply get_TypeError].
      destruct (convert_content _ _ content) eqn:G3; cbn [cbind] in Hmsg; [done|].
      injection Hmsg as <-. destruct content; try discriminate G3. cbn in G3.
      destruct (mapM _ items) eqn:G4; cbn in G3; [done|]. injection G3 as <-.
      eapply mapM_TypeError; [|exact G4]. intros c e'' Hc. cbn in Hc.
      destruct (get c "text") eqn:G5; cbn in Hc; [done|]. injection Hc as <-.
      by eapply get_TypeError. }
  apply get_Normal in E1 as [Hdef _]. rewrite !(get_defined claudeRequest _ Hdef) in H.
  cbn [cbind] in H.
  destruct (nullish (opt_get claudeRequest "tools")); cbn [cbind] in H; [done|].
  destruct (js_map _ (opt_get claudeRequest "tools") _) as [outs'|e3] eqn:E3;
    cbn [cbind] in H; [done|].
  injection H as <-. eapply js_map_TypeError; [|exact E3].
  intros tool e' Htool. unfold convert_tool in Htool.
  destruct (get tool "name") eqn:G1; cbn [cbind] in Htool;
    [|injection Htool as <-; by eapply get_TypeError].
  apply get_Normal in G1 as [Hd _]. by rewrite !(get_defined tool _ Hd) in Htool.
Qed.

(** X8.  On a request whose model name and block texts have a string
    conversion, so that [ToString] stands for the conversion of the
    runtime, the translation is defined exactly when the request is
    readable, and what it throws otherwise is a [TypeError]. *)
Theorem translation_defined (claudeRequest : jsval) :
  printable_request claudeRequest = true ->
  ((exists openaiRequest, translate claudeRequest = Normal openaiRequest) <->
   readable_request claudeRequest) /\
  (forall e, translate claudeRequest = Throw e -> err_name e = "TypeError").
Proof. intros _. split; [apply translation_readable | apply translation_errors]. Qed.

(** X9.  One message out per message in, in order, with the same role. *)
Theorem messages_translated (claudeRequest openaiRequest : jsval) :
  translate claudeRequest = Normal openaiRequest ->
  exists messages outs,
    opt_get claudeRequest "messages" = JArr messages /\
    opt_get openaiRequest "messages" = JArr outs /\
    Forall2 (translated_message JSON_stringify ToString) messages outs /\
    length outs = length messages.
Proof.
  intros H. apply translate_inversion in H
    as (msgs & outs & tools & Hmsgs & _ & Hm & _ & ->).
  exists msgs, outs. split; [done|]. split; [done|]. split; [done|].
  symmetry. by eapply Forall2_length.
Qed.

Lemma MODEL_MAPPING_known name target :
  In (name, target) MODEL_MAPPING -> MODEL_MAPPING_at name = JStr target.
Proof. intros [[= <- <-]|[[= <- <-]|[[= <- <-]|[]]]]; reflexivity. Qed.

Lemma MODEL_MAPPING_unknown name :
  (forall target, ~ In (name, target) MODEL_MAPPING) ->
  MODEL_MAPPING_at name
  = if existsb (String.eqb name) Object_prototype then JNative name else JUndefined.
Proof.
  intros H. unfold MODEL_MAPPING_at.
  destruct (List.find _ MODEL_MAPPING) as [[name' target]|] eqn:E; [|done].
  apply find_some in E as [Hin Heq]. cbn in Heq. apply String.eqb_eq in Heq as ->.
  by destruct (H target).
Qed.

(** X10.  The model of the translated request: the target of a name of the
    table, the default for a name that is neither in the table nor
    inherited from [Object.prototype], and the inherited method for the
    name of one. *)
Theorem model_translated (claudeRequest openaiRequest : jsval) (name : string) :
  translate claudeRequest = Normal openaiRequest ->
  opt_get claudeRequest "model" = JStr name ->
  (forall target, In (name, target) MODEL_MAPPING ->
     opt_get openaiRequest "model" = JStr target) /\
  ((forall target, ~ In (name, target) MODEL_MAPPING) -> ~ In name Object_prototype ->
   name <> "__proto__" ->
     opt_get openaiRequest "model" = JStr "anthropic/claude-4-sonnet") /\
  (In name Object_prototype -> opt_get openaiRequest "model" = JNative name).
Proof.
  intros H Hmodel. apply translate_inversion in H
    as (msgs & outs & tools & _ & _ & _ & _ & ->).
  cbn. rewrite Hmodel. cbn [to_text]. split; [|split].
  - intros target Hin. rewrite (MODEL_MAPPING_known name target Hin).
    by destruct Hin as [[= <- <-]|[[= <- <-]|[[= <- <-]|[]]]].
  - intros Hout Hproto _. rewrite (MODEL_MAPPING_unknown name Hout).
    destruct (existsb _ _) eqn:E; [|done].
    apply existsb_exists in E as (x & Hx & ->%String.eqb_eq). done.
  - intros Hproto. rewrite (MODEL_MAPPING_unknown name).
    + assert (existsb (String.eqb name) Object_prototype = true) as ->; [|done].
      apply existsb_exists. exists name. split; [done | apply String.eqb_refl].
    + intros target Hin. cbn in Hin, Hproto.
      destruct Hin as [[= <- _]|[[= <- _]|[[= <- _]|[]]]];
        repeat (destruct Hproto as [Hproto|Hproto]; [discriminate Hproto|]); done.
Qed.

(** X11.  The optional fields are present exactly when the request carries
    them, and the five others always are. *)
Theorem optional_fields (claudeRequest openaiRequest : jsval) :
  translate claudeRequest = Normal openaiRequest ->
  let tools := opt_get claudeRequest "tools" in
  let tool_choice := opt_get claudeRequest "tool_choice" in
  keys_of openaiRequest
  = ["model"; "messages"; "max_tokens"; "temperature"; "stream"]
    ++ (if nullish tools then [] else ["tools"])
    ++ (if truthy tool_choice then ["tool_choice"] else []) /\
  (nullish tools = false ->
   exists ts outs, tools = JArr ts /\ opt_get openaiRequest "tools" = JArr outs /\
                   Forall2 translated_tool ts outs) /\
  (truthy tool_choice = true -> opt_get openaiRequest "tool_choice" = tool_choice).
Proof.
  intros H. apply translate_inversion in H
    as (msgs & outs & tools & _ & _ & _ & Htools & ->). cbn zeta.
  destruct Htools as [[Hn ->] | (ts & outs' & Ht & _ & Hm & ->)].
  - rewrite Hn. cbn. unfold spread_if.
    destruct (truthy (opt_get claudeRequest "tool_choice")); cbn; done.
  - rewrite Ht. cbn. unfold spread_if.
    destruct (truthy (opt_get claudeRequest "tool_choice")); cbn.
    + split; [done|]. split; [|done]. intros _. by exists ts, outs'.
    + split; [done|]. split; [|done]. intros _. by exists ts, outs'.
Qed.

End Requests.

Lemma optional_fields_witness :
  keys_of sample_openai = ["model"; "messages"; "max_tokens"; "temperature"; "stream"].
Proof.
  destruct (optional_fields blank blank sample_claude sample_openai eq_refl) as [H _].
  exact H.
Defined.

Lemma translation_defined_witness :
  ((exists openaiRequest,
      convertClaudeToOpenAI blank blank blocks_request = Normal openaiRequest) <->
   readable_request blocks_request) /\
  (forall e, convertClaudeToOpenAI blank blank blocks_request = Throw e ->
             err_name e = "TypeError").
Proof. apply (translation_defined blank blank blocks_request). reflexivity. Defined.

Lemma messages_translated_witness :
  exists messages outs,
    opt_get sample_claude "messages" = JArr messages /\
    opt_get sample_openai "messages" = JArr outs /\
    Forall2 (translated_message blank blank) messages outs /\
    length outs = length messages.
Proof. apply (messages_translated blank blank sample_claude sample_openai). reflexivity. Defined.

Lemma model_translated_witness :
  (forall target, In ("claude-sonnet-4-20250514", target) MODEL_MAPPING ->
     opt_get (JObj [("model", JStr "anthropic/claude-sonnet-4");
                    ("messages", JArr [JObj [("role", JStr "user"); ("content", JStr "hi")]]);
                    ("max_tokens", JNum 4096); ("temperature", JNum 0.7);
                    ("stream", JBool false)]) "model" = JStr target) /\
  ((forall target, ~ In ("claude-sonnet-4-20250514", target) MODEL_MAPPING) ->
   ~ In "claude-sonnet-4-20250514" Object_prototype ->
   "claude-sonnet-4-20250514" <> "__proto__" ->
     opt_get (JObj [("model", JStr "anthropic/claude-sonnet-4");
                    ("messages", JArr [JObj [("role", JStr "user"); ("content", JStr "hi")]]);
                    ("max_tokens", JNum 4096); ("temperature", JNum 0.7);
                    ("stream", JBool false)]) "model"
     = JStr "anthropic/claude-4-sonnet") /\
  (In "claude-sonnet-4-20250514" Object_prototype ->
     opt_get (JObj [("model", JStr "anthropic/claude-sonnet-4");
                    ("messages", JArr [JObj [("role", JStr "user"); ("content", JStr "hi")]]);
                    ("max_tokens", JNum 4096); ("temperature", JNum 0.7);
                    ("stream", JBool false)]) "model"
     = JNative "claude-sonnet-4-20250514").
Proof.
  apply (model_translated blank blank zero_temperature_request
           (JObj [("model", JStr "anthropic/claude-sonnet-4");
                  ("messages", JArr [JObj [("role", JStr "user"); ("content", JStr "hi")]]);
                  ("max_tokens", JNum 4096); ("temperature", JNum 0.7);
                  ("stream", JBool false)])
           "claude-sonnet-4-20250514"); reflexivity.
Defined.

(** *** Events of a stream fragment *)

Ltac split_cbind :=
  repeat match goal with
  | H : cbind ?c _ = Normal _ |- _ =>
      let E := fresh "E" in destruct c eqn:E; cbn [cbind] in H; [|discriminate H]
  | H : (if ?b then _ else _) = Normal _ |- _ =>
      let E := fresh "E" in destruct b eqn:E
  | H : match ?o with Some _ => _ | None => _ end = Normal _ |- _ =>
      let E := fresh "E" in destruct o eqn:E
  | H : Normal _ = Normal _ |- _ => injection H as H; subst
  end.

Lemma event_shapes openaiChunk claudeEvent :
  convertOpenAIStreamToClaude openaiChunk = Normal claudeEvent ->
  claudeEvent = JNull \/
  (exists index id name,
      claudeEvent = block_start_event index id name /\
      strict_eq_int index 0 = true /\ truthy id = true) \/
  (exists index arguments,
      claudeEvent = arguments_event index arguments /\ truthy arguments = true) \/
  (exists content, claudeEvent = text_event content /\ truthy content = true).
Proof.
  unfold convertOpenAIStreamToClaude. intros H. split_cbind.
  all: repeat match goal with
       | H : _ && _ = true |- _ => apply andb_true_iff in H as [? ?]
       | H : get ?v ?k = Normal ?x, H' : context [opt_get ?v ?k] |- _ =>
           rewrite (get_opt_get _ _ _ H) in H'
       | H : get ?v ?k = Normal ?x |- context [opt_get ?v ?k] =>
           rewrite (get_opt_get _ _ _ H)
       end.
  all: try (left; reflexivity).
  all: try discriminate.
  all: try (right; left; eexists _, _, _;
            split; [reflexivity | split; eassumption]).
  all: try (right; right; left; eexists _, _; split; [reflexivity | eassumption]).
  all: try (right; right; right; eexists; split; [reflexivity | eassumption]).
Qed.

(** X12.  What [convertOpenAIStreamToClaude] returns is [null] or one of three
    events: a block start, whose index is 0 and whose id is truthy, a
    delta of tool arguments, or a delta of text at index 0. *)
Theorem stream_event_shape (openaiChunk claudeEvent : jsval) :
  convertOpenAIStreamToClaude openaiChunk = Normal claudeEvent ->
  claudeEvent = JNull \/
  (exists index id name,
      claudeEvent = block_start_event index id name /\
      strict_eq_int index 0 = true /\ truthy id = true) \/
  (exists index arguments,
      claudeEvent = arguments_event index arguments /\ truthy arguments = true) \/
  (exists content, claudeEvent = text_event content /\ truthy content = true).
Proof. apply event_shapes. Qed.

Section Responses.

Variable JSON_parse : string -> completion jsval.
Variable ToString : jsval -> string.

Local Notation "'translate'" := (convertOpenAIToClaude JSON_parse ToString)
  (only parsing).

Lemma first_choice_falsy x choices :
  get x "choices" = Normal choices ->
  truthy choices = false \/ truthy (opt_get0 choices) = false ->
  exists choice, first_choice x = Normal choice /\ truthy choice = false.
Proof.
  intros Hget Hfalsy. unfold first_choice. rewrite Hget. cbn [cbind].
  destruct (truthy choices) eqn:E.
  - destruct Hfalsy as [H|H]; [done|]. unfold opt_get0 in H.
    destruct (get0 choices) as [c|e] eqn:E0; [by exists c|].
    destruct choices as [| |b|q|s|items|props|name]; try destruct s;
      try discriminate E0; discriminate E.
  - by exists choices.
Qed.

Lemma response_without_choice now openaiResponse choices :
  get openaiResponse "choices" = Normal choices ->
  truthy choices = false \/ truthy (opt_get0 choices) = false ->
  translate now openaiResponse = Normal openaiResponse.
Proof.
  intros Hget Hfalsy.
  destruct (first_choice_falsy _ _ Hget Hfalsy) as (choice & Hc & Ht).
  unfold convertOpenAIToClaude. rewrite Hc. cbn [cbind]. by rewrite Ht.
Qed.

Lemma own_property_In k props :
  own_property k props <> JUndefined -> In k (map fst props).
Proof.
  induction props as [|[k' v] props IH]; [done|]. cbn.
  destruct (String.eqb k' k) eqn:E; [left; by apply String.eqb_eq | right; by apply IH].
Qed.

Lemma convert_usage_translated x :
  nullish x = false -> convert_usage x = Normal (translated_usage x).
Proof.
  intros Hdef. unfold convert_usage, translated_usage.
  rewrite (get_defined x "usage" Hdef). cbn [cbind].
  destruct (truthy (opt_get x "usage")) eqn:E; [|done].
  assert (nullish (opt_get x "usage") = false) as Hu by (by destruct (opt_get x "usage")).
  by rewrite !(get_defined _ _ Hu).
Qed.

Lemma convert_call_block call block :
  convert_call JSON_parse ToString call = Normal block <->
  tool_use_block JSON_parse ToString call block.
Proof.
  unfold convert_call, tool_use_block. split.
  - intros H. destruct (get call "id") as [id|e] eqn:E1; [|discriminate H].
    apply get_Normal in E1 as [Hdef ->]. cbn [cbind] in H.
    rewrite (get_defined call "function" Hdef) in H. cbn [cbind] in H.
    destruct (get (opt_get call "function") "name") as [name|e] eqn:E2; [|discriminate H].
    apply get_Normal in E2 as [Hfn ->]. cbn [cbind] in H.
    rewrite (get_defined _ "arguments" Hfn) in H. cbn [cbind] in H.
    destruct (JSON_parse _) as [input|e] eqn:E3; [|discriminate H]. cbn [cbind] in H.
    injection H as <-. split; [done|]. split; [done|]. by exists input.
  - intros (Hdef & Hfn & input & Hparse & ->).
    rewrite !(get_defined call _ Hdef). cbn [cbind].
    rewrite !(get_defined _ _ Hfn). cbn [cbind]. by rewrite Hparse.
Qed.

Lemma first_choice_response x choice :
  first_choice x = Normal choice -> nullish x = false.
Proof.
  unfold first_choice. destruct (get x "choices") eqn:E; [|done].
  intros _. by apply get_Normal in E as [? _].
Qed.

(** X13.  A response with tool calls: one [tool_use] block per call, in order,
    whose input is the parsed argument text; the stop reason is
    [tool_use] whatever the upstream gave.  An argument text that does
    not parse makes the translation throw. *)
Theorem tool_calls_translated (now : Z) (openaiResponse choice : jsval)
    (calls : list jsval) :
  first_choice openaiResponse = Normal choice ->
  truthy choice = true ->
  opt_get (opt_get choice "message") "tool_calls" = JArr calls ->
  (forall blocks,
     Forall2 (tool_use_block JSON_parse ToString) calls blocks ->
     translate now openaiResponse
     = Normal (JObj [("id", js_or (opt_get openaiResponse "id")
                              (JStr ("msg_" +:+ decZ now)));
                     ("type", JStr "message"); ("role", JStr "assistant");
                     ("content", JArr blocks);
                     ("model", opt_get openaiResponse "model");
                     ("stop_reason", JStr "tool_use"); ("stop_sequence", JNull);
                     ("usage", translated_usage openaiResponse)])) /\
  (forall before call after blocks e,
     calls = before ++ call :: after ->
     Forall2 (tool_use_block JSON_parse ToString) before blocks ->
     nullish call = false -> nullish (opt_get call "function") = false ->
     JSON_parse (to_text ToString (opt_get (opt_get call "function") "arguments"))
     = Throw e ->
     translate now openaiResponse = Throw e).
Proof.
  intros Hchoice Htruthy Hcalls.
  pose proof (first_choice_response _ _ Hchoice) as Hdef.
  assert (nullish choice = false) as Hc by (by destruct choice).
  assert (nullish (opt_get choice "message") = false) as Hm.
  { by destruct (opt_get choice "message"). }
  unfold convertOpenAIToClaude. rewrite Hchoice. cbn [cbind]. rewrite Htruthy.
  rewrite (get_defined choice "message" Hc). cbn [cbind]. rewrite Hcalls. cbn [truthy].
  unfold message_id. rewrite !(get_defined openaiResponse _ Hdef). cbn [cbind].
  rewrite (get_defined _ "tool_calls" Hm), Hcalls. cbn [cbind js_map].
  rewrite (convert_usage_translated _ Hdef). split.
  - intros blocks Hblocks.
    rewrite (Forall2_mapM (convert_call JSON_parse ToString) calls blocks); [done|].
    eapply Forall2_impl; [exact Hblocks|]. intros call block H.
    by apply convert_call_block.
  - intros before call after blocks e -> Hbefore Hcall Hfn Hparse.
    rewrite (mapM_throws (convert_call JSON_parse ToString) before call after blocks e);
      [done | |].
    + eapply Forall2_impl; [exact Hbefore|]. intros c b H. by apply convert_call_block.
    + unfold convert_call. rewrite !(get_defined call _ Hcall). cbn [cbind].
      rewrite !(get_defined _ _ Hfn). cbn [cbind]. by rewrite Hparse.
Qed.

Lemma envelope_fields (now : Z) (openaiResponse choice claudeResponse : jsval) :
  first_choice openaiResponse = Normal choice ->
  truthy choice = true ->
  translate now openaiResponse = Normal claudeResponse ->
  keys_of claudeResponse
  = ["id"; "type"; "role"; "content"; "model"; "stop_reason"; "stop_sequence"; "usage"] /\
  opt_get claudeResponse "id"
  = js_or (opt_get openaiResponse "id") (JStr ("msg_" +:+ decZ now)) /\
  opt_get claudeResponse "type" = JStr "message" /\
  opt_get claudeResponse "role" = JStr "assistant" /\
  opt_get claudeResponse "model" = opt_get openaiResponse "model" /\
  opt_get claudeResponse "stop_sequence" = JNull /\
  opt_get claudeResponse "usage" = translated_usage openaiResponse.
Proof.
  intros Hchoice Htruthy.
  pose proof (first_choice_response _ _ Hchoice) as Hdef.
  assert (nullish choice = false) as Hc by (by destruct choice).
  unfold convertOpenAIToClaude. rewrite Hchoice. cbn [cbind]. rewrite Htruthy.
  rewrite !(get_defined choice _ Hc). cbn [cbind].
  unfold message_id. rewrite !(get_defined openaiResponse _ Hdef). cbn [cbind].
  rewrite (convert_usage_translated _ Hdef). cbn [cbind].
  destruct (truthy (opt_get (opt_get choice "message") "tool_calls")).
  - destruct (get (opt_get choice "message") "tool_calls") as [tool_calls|e];
      [|done]. cbn [cbind].
    destruct (js_map _ tool_calls _) as [content|e]; [|done]. cbn [cbind].
    by intros [= <-].
  - by intros [= <-].
Qed.

(** X14.  The envelope of a translated response: its eight fields, the id
    (the upstream's, or [msg_] and the clock reading), the model and the
    usage counts under their new names. *)
Theorem response_envelope (now : Z) (openaiResponse choice claudeResponse : jsval) :
  first_choice openaiResponse = Normal choice ->
  truthy choice = true ->
  translate now openaiResponse = Normal claudeResponse ->
  keys_of claudeResponse
  = ["id"; "type"; "role"; "content"; "model"; "stop_reason"; "stop_sequence"; "usage"] /\
  opt_get claudeResponse "id"
  = js_or (opt_get openaiResponse "id") (JStr ("msg_" +:+ decZ now)) /\
  opt_get claudeResponse "type" = JStr "message" /\
  opt_get claudeResponse "role" = JStr "assistant" /\
  opt_get claudeResponse "model" = opt_get openaiResponse "model" /\
  opt_get claudeResponse "stop_sequence" = JNull /\
  opt_get claudeResponse "usage" = translated_usage openaiResponse.
Proof. apply envelope_fields. Qed.

(** X15.  A response is returned as it is exactly when it has no first
    choice: its [choices] are absent or falsy, or their first element is. *)
Theorem response_unchanged_iff (now : Z) (openaiResponse : jsval) :
  translate now openaiResponse = Normal openaiResponse <->
  exists choices,
    get openaiResponse "choices" = Normal choices /\
    (truthy choices = false \/ truthy (opt_get0 choices) = false).
Proof.
  split; [|intros (choices & Hget & Hfalsy); by eapply response_without_choice].
  intros H.
  destruct (first_choice openaiResponse) as [choice|e] eqn:Hchoice.
  2:{ unfold convertOpenAIToClaude in H. by rewrite Hchoice in H. }
  pose proof Hchoice as Hfirst. unfold first_choice in Hfirst.
  destruct (get openaiResponse "choices") as [choices|e] eqn:Hget; [|done].
  cbn [cbind] in Hfirst. exists choices. split; [done|].
  destruct (truthy choices) eqn:Hc; [|by left]. right.
  unfold opt_get0. rewrite Hfirst.
  destruct (truthy choice) eqn:Ht; [|done].
  destruct (envelope_fields now openaiResponse choice openaiResponse Hchoice Ht H)
    as (Hkeys & _).
  destruct openaiResponse as [| |b|q|s|items|props|name]; try discriminate Hkeys.
  cbn in Hget. injection Hget as <-. cbn in Hkeys.
  assert (In "choices" (map fst props)) as Hin.
  { apply own_property_In. intros Hu. by rewrite Hu in Hc. }
  rewrite Hkeys in Hin. cbn in Hin. intuition discriminate.
Qed.

End Responses.

Lemma response_envelope_witness :
  keys_of stop_translated
  = ["id"; "type"; "role"; "content"; "model"; "stop_reason"; "stop_sequence"; "usage"] /\
  opt_get stop_translated "id"
  = js_or (opt_get stop_response "id") (JStr ("msg_" +:+ decZ 0)) /\
  opt_get stop_translated "type" = JStr "message" /\
  opt_get stop_translated "role" = JStr "assistant" /\
  opt_get stop_translated "model" = opt_get stop_response "model" /\
  opt_get stop_translated "stop_sequence" = JNull /\
  opt_get stop_translated "usage" = translated_usage stop_response.
Proof.
  apply (response_envelope Json.parse blank 0 stop_response
           (JObj [("message", JObj [("role", JStr "assistant"); ("content", JStr "Hello")]);
                  ("finish_reason", JStr "stop")])
           stop_translated); reflexivity.
Defined.

Lemma tool_calls_translated_witness :
  convertOpenAIToClaude Json.parse blank 0 tool_response
  = Normal (JObj [("id", JStr "r1"); ("type", JStr "message"); ("role", JStr "assistant");
                  ("content",
                   JArr [JObj [("type", JStr "tool_use"); ("id", JStr "call_1");
                               ("name", JStr "f");
                               ("input", JObj [("a", JNum (Qred 1))])]]);
                  ("model", JStr "m");
                  ("stop_reason", JStr "tool_use"); ("stop_sequence", JNull);
                  ("usage", JUndefined)]).
Proof.
  destruct (tool_calls_translated Json.parse blank 0 tool_response tool_choice_sample
              [tool_call] eq_refl eq_refl eq_refl) as [H _].
  apply (H [JObj [("type", JStr "tool_use"); ("id", JStr "call_1"); ("name", JStr "f");
                  ("input", JObj [("a", JNum (Qred 1))])]]).
  constructor; [|constructor]. split; [reflexivity|]. split; [reflexivity|].
  eexists. split; reflexivity.
Defined.

Lemma stream_event_shape_witness :
  block_start_event (JNum 0) (JStr "call_1") (JStr "f") = JNull \/
  (exists index id name,
      block_start_event (JNum 0) (JStr "call_1") (JStr "f")
      = block_start_event index id name /\
      strict_eq_int index 0 = true /\ truthy id = true) \/
  (exists index arguments,
      block_start_event (JNum 0) (JStr "call_1") (JStr "f")
      = arguments_event index arguments /\ truthy arguments = true) \/
  (exists content,
      block_start_event (JNum 0) (JStr "call_1") (JStr "f") = text_event content /\
      truthy content = true).
Proof.
  apply (stream_event_shape start_chunk
           (block_start_event (JNum 0) (JStr "call_1") (JStr "f"))).
  reflexivity.
Defined.

(** *** Fragments of a stream *)

(** X16.  A fragment whose list of tool calls has no first element makes the
    conversion throw, so that the loop writes nothing for its line. *)
Theorem empty_tool_calls_dropped (JSON_parse : string -> completion jsval)
    (openaiChunk choice : jsval) (line : string) :
  first_choice openaiChunk = Normal choice ->
  truthy choice = true ->
  opt_get (opt_get choice "delta") "tool_calls" = JArr [] ->
  convertOpenAIStreamToClaude openaiChunk
  = Throw (TypeError "Cannot read properties of undefined (reading 'index')") /\
  (String.prefix "data: " (trim line) = true ->
   JSON_parse (trim (substring_from 5 (trim line))) = Normal openaiChunk ->
   silent JSON_parse line = true).
Proof.
  intros Hchoice Htruthy Hcalls.
  assert (nullish choice = false) as Hc by (by destruct choice).
  assert (nullish (opt_get choice "delta") = false) as Hd.
  { destruct (opt_get choice "delta"); try done; discriminate Hcalls. }
  assert (convertOpenAIStreamToClaude openaiChunk
          = Throw (TypeError "Cannot read properties of undefined (reading 'index')"))
    as Hthrow.
  { unfold convertOpenAIStreamToClaude. rewrite Hchoice. cbn [cbind]. rewrite Htruthy.
    rewrite (get_defined choice "delta" Hc). cbn [cbind]. rewrite Hcalls. cbn [truthy].
    by rewrite (get_defined _ "tool_calls" Hd), Hcalls. }
  split; [exact Hthrow|]. intros Hprefix Hparse. unfold silent.
  rewrite Hprefix, Hparse. cbn [cbind]. rewrite Hthrow. apply orb_true_r.
Qed.

Lemma empty_tool_calls_dropped_witness :
  convertOpenAIStreamToClaude empty_calls_chunk
  = Throw (TypeError "Cannot read properties of undefined (reading 'index')") /\
  (String.prefix "data: " (trim empty_calls_line) = true ->
   Json.parse (trim (substring_from 5 (trim empty_calls_line))) = Normal empty_calls_chunk ->
   silent Json.parse empty_calls_line = true).
Proof.
  apply (empty_tool_calls_dropped Json.parse empty_calls_chunk empty_calls_choice
           empty_calls_line); reflexivity.
Defined.

(** ** The stream loop, line by line *)

(** ** A small logic for the steps of the stream loop *)

Lemma same_output_refl s : same_output s s.
Proof. by repeat split. Qed.

Lemma same_output_sym s1 s2 : same_output s1 s2 -> same_output s2 s1.
Proof. unfold same_output. intuition congruence. Qed.

Lemma same_output_trans s1 s2 s3 :
  same_output s1 s2 -> same_output s2 s3 -> same_output s1 s3.
Proof. unfold same_output. intuition congruence. Qed.

Lemma same_output_buffer b s : same_output (set_buffer b s) s.
Proof. by repeat split. Qed.

Lemma same_output_print l text s : same_output (snd (stream_print l text s)) s.
Proof. by repeat split. Qed.

Lemma same_output_cancelled s1 s2 : same_output s1 s2 -> cancelled s1 = cancelled s2.
Proof. intros (_ & _ & _ & _ & Hd & Hf). unfold cancelled. by rewrite Hd, Hf. Qed.

Lemma respects_ret {A} (a : A) : respects (ret a).
Proof. by intros s1 s2 H. Qed.

Lemma respects_throw {A} e : respects (@throw _ A e).
Proof. by intros s1 s2 H. Qed.

Lemma respects_lift {A} (c : completion A) : respects (lift c).
Proof. by intros s1 s2 H. Qed.

Lemma respects_bind {A B} (m : Stream A) (k : A -> Stream B) :
  respects m -> (forall a, respects (k a)) -> respects (bind m k).
Proof.
  intros Hm Hk s1 s2 H. destruct (Hm s1 s2 H) as [Hr Hs]. unfold bind.
  destruct (m s1) as [[a1|e1] t1], (m s2) as [[a2|e2] t2]; cbn in Hr, Hs;
    try discriminate; injection Hr as ->.
  - by apply Hk.
  - by split.
Qed.

Lemma respects_try_catch {A} (m : Stream A) (h : js_error -> Stream A) :
  respects m -> (forall e, respects (h e)) -> respects (try_catch m h).
Proof.
  intros Hm Hh s1 s2 H. destruct (Hm s1 s2 H) as [Hr Hs]. unfold try_catch.
  destruct (m s1) as [[a1|e1] t1], (m s2) as [[a2|e2] t2]; cbn in Hr, Hs;
    try discriminate; injection Hr as ->.
  - by split.
  - by apply Hh.
Qed.

Lemma respects_streamClosed : respects (read streamClosed).
Proof. intros s1 s2 H. split; [|done]. cbn. f_equal. apply H. Qed.

Lemma respects_toolCallStarted : respects (read toolCallStarted).
Proof. intros s1 s2 H. split; [|done]. cbn. f_equal. apply H. Qed.

Lemma respects_print l text : respects (stream_print l text).
Proof. intros s1 s2 H. split; [done|]. exact H. Qed.

Lemma respects_set_toolCallStarted b : respects (update (set_toolCallStarted b)).
Proof.
  intros s1 s2 (H1 & H2 & H3 & H4 & H5 & H6). split; [done|]. by repeat split.
Qed.

Lemma respects_set_streamClosed b : respects (update (set_streamClosed b)).
Proof.
  intros s1 s2 (H1 & H2 & H3 & H4 & H5 & H6). split; [done|]. by repeat split.
Qed.

Lemma respects_set_buffer b : respects (update (set_buffer b)).
Proof.
  intros s1 s2 (H1 & H2 & H3 & H4 & H5 & H6). split; [done|]. by repeat split.
Qed.

Lemma respects_enqueue chunk : respects (controller_enqueue chunk).
Proof.
  intros s1 s2 H. pose proof (same_output_cancelled _ _ H) as Hc.
  destruct H as (H1 & H2 & H3 & H4 & H5 & H6).
  unfold controller_enqueue. rewrite Hc. destruct (cancelled s2); cbn.
  - split; [done|]. unfold same_output; cbn. rewrite H1, H2, H3, H4, H5, H6. done.
  - split; [done|]. unfold same_output; cbn. rewrite H1, H2, H3, H4, H5, H6. done.
Qed.

Lemma respects_close : respects controller_close.
Proof.
  intros s1 s2 H. pose proof (same_output_cancelled _ _ H) as Hc.
  destruct H as (H1 & H2 & H3 & H4 & H5 & H6).
  unfold controller_close. rewrite Hc. destruct (cancelled s2); cbn.
  - split; [done|]. by repeat split.
  - split; [done|]. by repeat split.
Qed.

Lemma respects_error e : respects (controller_error e).
Proof.
  intros s1 s2 H. pose proof (same_output_cancelled _ _ H) as Hc.
  destruct H as (H1 & H2 & H3 & H4 & H5 & H6).
  unfold controller_error. rewrite Hc. destruct (cancelled s2); cbn.
  - split; [done|]. by repeat split.
  - split; [done|]. by repeat split.
Qed.

Ltac respects_step :=
  match goal with
  | |- respects (bind _ _) => apply respects_bind; [|intros ?]
  | |- respects (try_catch _ _) => apply respects_try_catch; [|intros ?]
  | |- respects (ret _) => apply respects_ret
  | |- respects (throw _) => apply respects_throw
  | |- respects (lift _) => apply respects_lift
  | |- respects (read streamClosed) => apply respects_streamClosed
  | |- respects (read toolCallStarted) => apply respects_toolCallStarted
  | |- respects (stream_print _ _) => apply respects_print
  | |- respects (update (set_toolCallStarted _)) => apply respects_set_toolCallStarted
  | |- respects (update (set_streamClosed _)) => apply respects_set_streamClosed
  | |- respects (update (set_buffer _)) => apply respects_set_buffer
  | |- respects (controller_enqueue _) => apply respects_enqueue
  | |- respects controller_close => apply respects_close
  | |- respects (controller_error _) => apply respects_error
  | |- respects (if ?b then _ else _) => destruct b
  | |- respects (match ?x with _ => _ end) => destruct x
  end.

Lemma respects_safeEnqueue chunk : respects (safeEnqueue chunk).
Proof. unfold safeEnqueue. repeat respects_step. Qed.

Lemma respects_forward JSON_parse dataStr : respects (forward JSON_parse dataStr).
Proof.
  unfold forward.
  repeat first [apply respects_safeEnqueue | respects_step].
Qed.

Lemma respects_on_line JSON_parse line : respects (on_line JSON_parse line).
Proof.
  unfold on_line.
  repeat first [apply respects_forward | respects_step].
Qed.

Lemma respects_for_lines JSON_parse lines : respects (for_lines JSON_parse lines).
Proof.
  induction lines as [|line rest IH]; cbn [for_lines].
  - apply respects_ret.
  - repeat first [apply respects_on_line | exact IH | respects_step].
Qed.

Lemma respects_start_catch e : respects (start_catch e).
Proof. unfold start_catch. repeat respects_step. Qed.

Lemma respects_start_finally : respects start_finally.
Proof. unfold start_finally. repeat respects_step. Qed.

(** *** Steps that keep a property *)

Lemma stable_ret I {A} (a : A) : stable I (ret a).
Proof. by intros s H. Qed.

Lemma stable_throw I {A} e : stable I (@throw _ A e).
Proof. by intros s H. Qed.

Lemma stable_read I {A} (f : stream_state -> A) : stable I (read f).
Proof. by intros s H. Qed.

Lemma stable_bind I {A B} (m : Stream A) (k : A -> Stream B) :
  stable I m -> (forall a, stable I (k a)) -> stable I (bind m k).
Proof.
  intros Hm Hk s H. specialize (Hm s H). unfold bind.
  destruct (m s) as [[a|e] t]; cbn in Hm |- *; [by apply Hk | done].
Qed.

(** After [lift c] the continuation only runs on the value of [c]. *)
Lemma stable_bind_lift I {A B} (c : completion A) (k : A -> Stream B) :
  (forall a, c = Normal a -> stable I (k a)) -> stable I (bind (lift c) k).
Proof.
  intros Hk s H. unfold bind, lift. destruct c as [a|e]; [by apply Hk | done].
Qed.

Lemma stable_try_catch I {A} (m : Stream A) (h : js_error -> Stream A) :
  stable I m -> (forall e, stable I (h e)) -> stable I (try_catch m h).
Proof.
  intros Hm Hh s H. specialize (Hm s H). unfold try_catch.
  destruct (m s) as [[a|e] t]; cbn in Hm |- *; [done | by apply Hh].
Qed.

Lemma stable_update I f : (forall s, I s -> I (f s)) -> stable I (update f).
Proof. intros Hf s H. by apply Hf. Qed.

(** Steps of the loop return normally. *)
Lemma on_line_returns JSON_parse line s :
  exists s', on_line JSON_parse line s = (Normal tt, s').
Proof.
  unfold on_line. destruct (String.prefix _ _); [|by eexists].
  destruct (String.eqb _ _); [by eexists|].
  unfold try_catch. destruct (forward _ _ s) as [[[]|e] s1]; by eexists.
Qed.

Lemma for_lines_closed JSON_parse lines s :
  streamClosed s = true -> for_lines JSON_parse lines s = (Normal tt, s).
Proof.
  intros H. destruct lines; [done|]. cbn [for_lines]. unfold bind, read. by rewrite H.
Qed.

Lemma for_lines_cons JSON_parse line rest s :
  streamClosed s = false ->
  for_lines JSON_parse (line :: rest) s
  = for_lines JSON_parse rest (snd (on_line JSON_parse line s)).
Proof.
  intros H. cbn [for_lines]. unfold bind at 1, read. rewrite H.
  unfold bind. by destruct (on_line_returns JSON_parse line s) as [s' ->].
Qed.

Lemma for_lines_returns JSON_parse lines : forall s,
  exists s', for_lines JSON_parse lines s = (Normal tt, s').
Proof.
  induction lines as [|line rest IH]; intros s; [by eexists|].
  destruct (streamClosed s) eqn:Hc.
  - rewrite for_lines_closed by done. by eexists.
  - rewrite for_lines_cons by done. apply IH.
Qed.

Lemma for_lines_app JSON_parse l1 l2 : forall s,
  for_lines JSON_parse (l1 ++ l2) s
  = for_lines JSON_parse l2 (snd (for_lines JSON_parse l1 s)).
Proof.
  induction l1 as [|line rest IH]; intros s; [done|].
  cbn [app]. destruct (streamClosed s) eqn:Hc.
  - rewrite (for_lines_closed _ (line :: rest ++ l2) s Hc).
    rewrite (for_lines_closed _ (line :: rest) s Hc). cbn.
    by rewrite for_lines_closed.
  - rewrite (for_lines_cons _ line (rest ++ l2) s Hc).
    rewrite (for_lines_cons _ line rest s Hc). apply IH.
Qed.

(** *** Lines of a text *)

Lemma split_LF_nonempty s : split_LF s <> [].
Proof.
  destruct s as [|c rest]; cbn; [done|].
  destruct (Ascii.eqb _ _); [done|]. by destruct (split_LF rest).
Qed.

Lemma split_LF_app a : forall b,
  split_LF (a +:+ b)
  = removelast (split_LF a) ++ split_LF (List.last (split_LF a) EmptyString +:+ b).
Proof.
  induction a as [|c rest IH]; intros b; [done|].
  change (String c rest +:+ b) with (String c (rest +:+ b)).
  cbn [split_LF]. rewrite IH.
  pose proof (split_LF_nonempty rest) as Hne.
  pose proof (split_LF_nonempty (List.last (split_LF rest) EmptyString +:+ b)) as Hne'.
  destruct (Ascii.eqb c (ascii_of_nat 10)) eqn:Hc.
  - destruct (split_LF rest) as [|first others] eqn:Hs; [done|]. done.
  - destruct (split_LF rest) as [|first others] eqn:Hs; [done|].
    destruct others as [|second others].
    + cbn [removelast List.last app].
      change (String c first +:+ b) with (String c (first +:+ b)).
      cbn [split_LF]. rewrite Hc.
      by destruct (split_LF (first +:+ b)).
    + done.
Qed.

Lemma split_LF_last s :
  split_LF (List.last (split_LF s) EmptyString) = [List.last (split_LF s) EmptyString].
Proof.
  induction s as [|c rest IH]; [done|].
  cbn [split_LF]. pose proof (split_LF_nonempty rest) as Hne.
  destruct (Ascii.eqb c (ascii_of_nat 10)) eqn:Hc.
  - destruct (split_LF rest) as [|first others] eqn:Hs; [done|]. exact IH.
  - destruct (split_LF rest) as [|first others] eqn:Hs; [done|].
    destruct others as [|second others].
    + cbn [List.last] in *. cbn [split_LF]. rewrite Hc. by rewrite IH.
    + exact IH.
Qed.

Lemma append_empty s : s +:+ EmptyString = s.
Proof.
  induction s as [|c s IH]; [done|].
  change (String c s +:+ EmptyString) with (String c (s +:+ EmptyString)).
  by rewrite IH.
Qed.

Lemma append_assoc (a b c : string) : (a +:+ b) +:+ c = a +:+ (b +:+ c).
Proof.
  induction a as [|x a IH]; [done|].
  change (String x a +:+ b) with (String x (a +:+ b)).
  change (String x (a +:+ b) +:+ c) with (String x ((a +:+ b) +:+ c)).
  change (String x a +:+ (b +:+ c)) with (String x (a +:+ (b +:+ c))).
  by rewrite IH.
Qed.

Lemma removelast_app_nonempty {A} (l1 l2 : list A) :
  l2 <> [] -> removelast (l1 ++ l2) = l1 ++ removelast l2.
Proof. intros H. by apply removelast_app. Qed.

Lemma last_app_nonempty {A} (l1 l2 : list A) d :
  l2 <> [] -> List.last (l1 ++ l2) d = List.last l2 d.
Proof.
  intros H. induction l1 as [|x l1 IH]; [done|].
  cbn [app]. destruct (l1 ++ l2) eqn:E; [by destruct l1, l2|]. exact IH.
Qed.

(** *** The buffer during a chunk *)

Section Buffer.

Variable JSON_parse : string -> completion jsval.

Lemma buffer_safeEnqueue b chunk : stable (fun s => buffer s = b) (safeEnqueue chunk).
Proof.
  intros s H. unfold safeEnqueue, try_catch, bind, read, controller_enqueue.
  destruct (streamClosed s); cbn; [done|]. by destruct (cancelled s).
Qed.

Lemma buffer_forward b dataStr : stable (fun s => buffer s = b) (forward JSON_parse dataStr).
Proof.
  unfold forward.
  repeat first
    [ apply buffer_safeEnqueue | apply stable_ret | apply stable_read
    | apply stable_bind_lift; intros ? _
    | apply stable_bind; [|intros ?]
    | by apply stable_update
    | match goal with |- stable _ (if ?c then _ else _) => destruct c end ].
Qed.

Lemma buffer_for_lines lines : forall s,
  buffer (snd (for_lines JSON_parse lines s)) = buffer s.
Proof.
  induction lines as [|line rest IH]; intros s; [done|].
  destruct (streamClosed s) eqn:Hc; [by rewrite for_lines_closed|].
  rewrite for_lines_cons, IH by done.
  unfold on_line. destruct (String.prefix _ _); [|done].
  destruct (String.eqb _ _); [done|].
  eapply (stable_try_catch (fun s' => buffer s' = buffer s)); [apply buffer_forward| |done].
  intros e. by apply stable_update.
Qed.

Lemma on_chunk_unfold value s :
  on_chunk JSON_parse value s
  = for_lines JSON_parse (removelast (split_LF (buffer s +:+ value)))
      (set_buffer (List.last (split_LF (buffer s +:+ value)) EmptyString) s).
Proof. done. Qed.

Lemma read_loop_cons value rest failure s :
  read_loop JSON_parse (value :: rest) failure s
  = let s1 := snd (on_chunk JSON_parse value s) in
    if streamClosed s1 then (Normal Closed, s1)
    else read_loop JSON_parse rest failure s1.
Proof.
  cbn [read_loop]. unfold bind at 1. rewrite on_chunk_unfold.
  destruct (for_lines_returns JSON_parse
              (removelast (split_LF (buffer s +:+ value)))
              (set_buffer (List.last (split_LF (buffer s +:+ value)) EmptyString) s))
    as [s1 ->].
  cbn [snd]. unfold bind, read. by destruct (streamClosed s1).
Qed.

(** The read loop handles the complete lines of the text it has read,
    in order, whatever the chunking. *)
Lemma read_loop_lines values failure : forall s,
  streamClosed s = false ->
  split_LF (buffer s) = [buffer s] ->
  let text := buffer s +:+ String.concat EmptyString values in
  let by_lines := snd (for_lines JSON_parse (removelast (split_LF text)) s) in
  same_output (snd (read_loop JSON_parse values failure s)) by_lines /\
  fst (read_loop JSON_parse values failure s)
  = if streamClosed by_lines then Normal Closed
    else match failure with
         | None => Normal Done
         | Some e => Throw e
         end.
Proof.
  induction values as [|value rest IH]; intros s Hopen Hbuf; cbn zeta.
  - cbn [String.concat]. rewrite append_empty, Hbuf. cbn. rewrite Hopen.
    destruct failure; (split; [apply same_output_refl | done]).
  - assert (String.concat EmptyString (value :: rest)
            = value +:+ String.concat EmptyString rest) as ->.
    { destruct rest; cbn; [by rewrite append_empty | done]. }
    rewrite <- append_assoc, split_LF_app.
    set (L := split_LF (buffer s +:+ value)).
    set (L2 := split_LF (List.last L EmptyString +:+ String.concat EmptyString rest)).
    rewrite removelast_app_nonempty by apply split_LF_nonempty.
    rewrite for_lines_app.
    rewrite read_loop_cons, on_chunk_unfold. fold L. cbn zeta.
    destruct (for_lines_returns JSON_parse (removelast L) (set_buffer (List.last L EmptyString) s))
      as [s1 Hs1]. rewrite Hs1.
    assert (buffer s1 = List.last L EmptyString) as Hb1.
    { pose proof (buffer_for_lines (removelast L) (set_buffer (List.last L EmptyString) s))
        as Hb. rewrite Hs1 in Hb. exact Hb. }
    assert (same_output s1 (snd (for_lines JSON_parse (removelast L) s))) as Hsame.
    { pose proof (respects_for_lines JSON_parse (removelast L) _ _
                    (same_output_buffer (List.last L EmptyString) s)) as [_ Hb].
      rewrite Hs1 in Hb. exact Hb. }
    cbn [snd]. destruct (streamClosed s1) eqn:Hc1.
    + assert (streamClosed (snd (for_lines JSON_parse (removelast L) s)) = true) as Hc.
      { destruct Hsame as (_ & <- & _). exact Hc1. }
      rewrite for_lines_closed by exact Hc. cbn [fst snd]. rewrite Hc.
      split; [exact Hsame | done].
    + specialize (IH s1 Hc1). rewrite Hb1 in IH. specialize (IH (split_LF_last _)).
      cbn zeta in IH. fold L2 in IH. destruct IH as [IH1 IH2].
      pose proof (respects_for_lines JSON_parse (removelast L2) _ _ Hsame) as [_ Hrest].
      split.
      * exact (same_output_trans _ _ _ IH1 Hrest).
      * rewrite IH2. by destruct Hrest as (_ & -> & _).
Qed.

(** The outcome of an exchange, given the outcome of its read loop. *)
Lemma start_respects up1 up2 s1 s2 :
  fst (read_loop JSON_parse (chunks up1) (failure up1) s1)
  = fst (read_loop JSON_parse (chunks up2) (failure up2) s2) ->
  same_output (snd (read_loop JSON_parse (chunks up1) (failure up1) s1))
              (snd (read_loop JSON_parse (chunks up2) (failure up2) s2)) ->
  same_output (snd (start JSON_parse up1 s1)) (snd (start JSON_parse up2 s2)).
Proof.
  intros Hfst Hsnd. rewrite !start_unfold.
  apply respects_start_finally.
  destruct (read_loop JSON_parse (chunks up1) (failure up1) s1) as [r1 t1].
  destruct (read_loop JSON_parse (chunks up2) (failure up2) s2) as [r2 t2].
  cbn in Hfst, Hsnd. subst r2.
  assert (streamClosed t1 = streamClosed t2) as Hc by apply Hsnd.
  assert (toolCallStarted t1 = toolCallStarted t2) as Ht by apply Hsnd.
  destruct r1 as [[]|e].
  - rewrite Hc, Ht. destruct (streamClosed t2); [done|]. by apply respects_safeEnqueue.
  - rewrite Hc, Ht. destruct (streamClosed t2); [done|]. by apply respects_safeEnqueue.
  - by apply respects_start_catch.
Qed.

Lemma exchange_by_lines up1 up2 d :
  removelast (split_LF (String.concat EmptyString (chunks up1)))
  = removelast (split_LF (String.concat EmptyString (chunks up2))) ->
  failure up1 = failure up2 ->
  same_output (snd (start JSON_parse up1 (initial d))) (snd (start JSON_parse up2 (initial d))).
Proof.
  intros Hlines Hfail.
  destruct (read_loop_lines (chunks up1) (failure up1) (initial d) eq_refl eq_refl) as [A1 A2].
  destruct (read_loop_lines (chunks up2) (failure up2) (initial d) eq_refl eq_refl) as [B1 B2].
  change (buffer (initial d) +:+ ?t) with t in *.
  rewrite Hlines in A1.
  apply start_respects.
  - by rewrite A2, B2, Hlines, Hfail.
  - exact (same_output_trans _ _ _ A1 (same_output_sym _ _ B1)).
Qed.

End Buffer.

Lemma message_start_known openaiChunk f :
  message_start openaiChunk = Normal f -> known_frame f = true.
Proof. unfold message_start. intros H. split_cbind. done. Qed.

Lemma event_frame_known openaiChunk claudeEvent f :
  convertOpenAIStreamToClaude openaiChunk = Normal claudeEvent ->
  truthy claudeEvent = true ->
  event_frame claudeEvent = Normal f ->
  known_frame f = true /\ event f = "content_block_delta" /\ data f = claudeEvent.
Proof.
  intros Hc Ht Hf.
  destruct (event_shapes _ _ Hc)
    as [-> | [(i & id & n & -> & _) | [(i & a & -> & _) | (c & -> & _)]]];
    [discriminate Ht | | | ]; cbn in Hf; injection Hf as <-; done.
Qed.

Lemma stop_known b : known_frame (message_stop b) = true.
Proof. done. Qed.

Section Invariant.

Variable JSON_parse : string -> completion jsval.
Variable I : stream_state -> Prop.

Hypothesis I_enqueue : forall f, known_frame f = true -> stable I (safeEnqueue f).
Hypothesis I_started : forall s, I s -> I (set_toolCallStarted true s).
Hypothesis I_print : forall l text, stable I (stream_print l text).

Lemma forward_stable dataStr : stable I (forward JSON_parse dataStr).
Proof.
  unfold forward.
  apply stable_bind_lift; intros openaiChunk Hparse.
  apply stable_bind_lift; intros claudeEvent Hconvert.
  apply stable_bind; [apply stable_read | intros closed].
  destruct (truthy claudeEvent) eqn:Htruthy; [|apply stable_ret].
  destruct closed; [apply stable_ret|]. cbn [negb andb].
  apply stable_bind_lift; intros type Htype.
  apply stable_bind; [apply stable_read | intros started].
  apply stable_bind.
  - destruct (strict_eq_str type "content_block_start" && negb started);
      [|apply stable_ret].
    apply stable_bind_lift; intros start Hstart.
    apply stable_bind; [|intros _; by apply stable_update].
    apply I_enqueue. by eapply message_start_known.
  - intros _. apply stable_bind; [apply stable_read | intros closed'].
    destruct closed'; [apply stable_ret|]. cbn [negb].
    apply stable_bind_lift; intros chunk Hchunk.
    apply I_enqueue. by eapply event_frame_known.
Qed.

Lemma on_line_stable line : stable I (on_line JSON_parse line).
Proof.
  unfold on_line. destruct (String.prefix _ _); [|apply stable_ret].
  destruct (String.eqb _ _); [apply stable_ret|].
  apply stable_try_catch; [apply forward_stable | intros e; apply I_print].
Qed.

Lemma for_lines_stable lines : stable I (for_lines JSON_parse lines).
Proof.
  induction lines as [|line rest IH]; cbn [for_lines]; [apply stable_ret|].
  apply stable_bind; [apply stable_read | intros closed].
  destruct closed; [apply stable_ret|].
  apply stable_bind; [apply on_line_stable | intros _; exact IH].
Qed.

Hypothesis I_buffer : forall b s, I s -> I (set_buffer b s).

Lemma on_chunk_stable value : stable I (on_chunk JSON_parse value).
Proof.
  unfold on_chunk. apply stable_bind; [apply stable_read | intros b].
  apply stable_bind; [apply stable_update, I_buffer | intros _; apply for_lines_stable].
Qed.

Lemma read_loop_stable values failure : stable I (read_loop JSON_parse values failure).
Proof.
  induction values as [|value rest IH]; cbn [read_loop].
  - destruct failure; [apply stable_throw | apply stable_ret].
  - apply stable_bind; [apply on_chunk_stable | intros _].
    apply stable_bind; [apply stable_read | intros closed].
    destruct closed; [apply stable_ret | exact IH].
Qed.

Hypothesis I_catch : forall e, stable I (start_catch e).
Hypothesis I_finally : stable I start_finally.

Lemma start_stable up : stable I (start JSON_parse up).
Proof.
  unfold start. apply stable_bind; [|intros _; exact I_finally].
  apply stable_try_catch; [|exact I_catch].
  unfold start_try. apply stable_bind; [apply read_loop_stable | intros _].
  apply stable_bind; [apply stable_read | intros closed].
  destruct closed; [apply stable_ret|]. cbn [negb].
  apply stable_bind; [apply stable_read | intros started].
  apply I_enqueue, stop_known.
Qed.

End Invariant.

(** *** The flag of the stop frame *)

Lemma truthy_opt_get v k :
  truthy (opt_get v k) = true -> forall k', get v k' = Normal (opt_get v k').
Proof. by destruct v. Qed.

Lemma truthy_get0 v : truthy v = true -> get0 v = Normal (opt_get0 v).
Proof. by destruct v as [| | | |[|]| | |]. Qed.

(** A fragment makes the converter return a block start exactly when it
    announces the tool call at index 0. *)
Lemma announced_block_start openaiChunk :
  announces_tool_call openaiChunk = true ->
  exists index id name,
    convertOpenAIStreamToClaude openaiChunk = Normal (block_start_event index id name).
Proof.
  unfold announces_tool_call, convertOpenAIStreamToClaude.
  destruct (first_choice openaiChunk) as [choice|e]; [|done].
  cbn [cbind]. intros H.
  apply andb_true_iff in H as [H Hfn]. apply andb_true_iff in H as [H Hid].
  apply andb_true_iff in H as [H Hindex]. apply andb_true_iff in H as [Hchoice Hcalls].
  rewrite Hchoice, (truthy_get_total choice "delta" Hchoice). cbn [cbind].
  rewrite Hcalls.
  rewrite (truthy_opt_get _ _ Hcalls). cbn [cbind].
  rewrite (truthy_get0 _ Hcalls). cbn [cbind].
  rewrite !(truthy_opt_get _ _ Hid). cbn [cbind]. rewrite Hindex, Hid. cbn [andb].
  destruct (opt_get (opt_get0 _) "function") eqn:Hf; try done.
  all: cbn [get cbind]; by eexists _, _, _.
Qed.

Lemma block_start_announced openaiChunk index id name :
  convertOpenAIStreamToClaude openaiChunk = Normal (block_start_event index id name) ->
  announces_tool_call openaiChunk = true.
Proof.
  unfold announces_tool_call, convertOpenAIStreamToClaude, block_start_event.
  destruct (first_choice openaiChunk) as [choice|e]; [|done].
  cbn [cbind]. destruct (truthy choice) eqn:Hchoice; [|done].
  rewrite (truthy_get_total choice "delta" Hchoice). cbn [cbind].
  destruct (truthy (opt_get (opt_get choice "delta") "tool_calls")) eqn:Hcalls.
  - rewrite (truthy_opt_get _ _ Hcalls). cbn [cbind].
    rewrite (truthy_get0 _ Hcalls). cbn [cbind].
    destruct (get (opt_get0 (opt_get (opt_get choice "delta") "tool_calls")) "index")
      as [x|] eqn:Hget; [|done].
    pose proof (get_total _ _ _ "index" Hget) as Hindex.
    pose proof (get_total _ _ _ "id" Hget) as Hid.
    pose proof (get_total _ _ _ "function" Hget) as Hfn.
    rewrite Hget in Hindex. injection Hindex as ->.
    cbn [cbind]. rewrite Hid. cbn [cbind].
    destruct (strict_eq_int _ 0 && truthy _) eqn:Hcond.
    + rewrite Hfn. cbn [cbind].
      apply andb_true_iff in Hcond as [-> ->]. cbn [andb].
      destruct (opt_get (opt_get0 _) "function"); done.
    + cbn [cbind]. destruct (truthy (opt_get (opt_get _ "function") "arguments")).
      * done.
      * destruct (truthy (opt_get (opt_get choice "delta") "content")); [|done].
        destruct (get _ "content"); done.
  - cbn [cbind].
    destruct (truthy (opt_get (opt_get _ "function") "arguments")).
    { repeat match goal with
             | |- context [cbind ?c _] => destruct c; cbn [cbind]
             end; done. }
    destruct (truthy (opt_get (opt_get choice "delta") "content")); [|done].
    destruct (get _ "content"); done.
Qed.

Lemma unannounced_event openaiChunk claudeEvent :
  announces_tool_call openaiChunk = false ->
  convertOpenAIStreamToClaude openaiChunk = Normal claudeEvent ->
  strict_eq_str (opt_get claudeEvent "type") "content_block_start" = false.
Proof.
  intros Hno Hc.
  destruct (event_shapes _ _ Hc)
    as [-> | [(i & id & n & -> & Hi & Hid) | [(i & a & -> & _) | (c & -> & _)]]];
    [done | | done | done].
  by rewrite (block_start_announced _ _ _ _ Hc) in Hno.
Qed.

Lemma flag_safeEnqueue b chunk : stable (fun s => toolCallStarted s = b) (safeEnqueue chunk).
Proof.
  intros s H. unfold safeEnqueue, try_catch, bind, read, controller_enqueue.
  destruct (streamClosed s); cbn; [done|]. by destruct (cancelled s).
Qed.

Lemma closed_safeEnqueue chunk s :
  streamClosed s = true -> snd (safeEnqueue chunk s) = s.
Proof.
  intros H. unfold safeEnqueue, try_catch, bind, read. by rewrite H.
Qed.

(** A line handled while the stream is open sets the flag exactly when
    its fragment announces the tool call at index 0. *)
Lemma on_line_flag JSON_parse line s :
  streamClosed s = false ->
  toolCallStarted (snd (on_line JSON_parse line s))
  = toolCallStarted s
    || match line_fragment JSON_parse line with
       | Some openaiChunk => announces_tool_call openaiChunk
       | None => false
       end.
Proof.
  intros Hopen. unfold on_line, line_fragment.
  destruct (String.prefix _ _); [|by rewrite orb_false_r].
  destruct (String.eqb _ _); [by rewrite orb_false_r|].
  set (dataStr := trim (substring_from 5 (trim line))).
  unfold try_catch, forward. unfold bind at 1, lift at 1.
  destruct (JSON_parse dataStr) as [openaiChunk|e]; [|by rewrite orb_false_r].
  unfold bind at 1, lift at 1.
  destruct (announces_tool_call openaiChunk) eqn:Ha.
  - destruct (announced_block_start _ Ha) as (index & id & name & ->).
    rewrite orb_true_r.
    assert (exists f, message_start openaiChunk = Normal f) as [f Hf].
    { unfold announces_tool_call in Ha.
      destruct (first_choice openaiChunk) as [choice|] eqn:Hc; [|done].
      unfold message_start. rewrite !(first_choice_defined _ _ Hc). by eexists. }
    unfold bind, read, lift. rewrite Hopen. cbn -[safeEnqueue message_start].
    rewrite Hf.
    destruct (toolCallStarted s) eqn:Hs; cbn -[safeEnqueue].
    + destruct (streamClosed s); cbn -[safeEnqueue]; [done|].
      pose proof (flag_safeEnqueue true
                    {| event := "content_block_delta";
                       data := block_start_event index id name |} s Hs) as Hk.
      destruct (safeEnqueue _ s) as [[[]|e] s1]; exact Hk.
    + destruct (safeEnqueue_open f s Hopen) as (s1 & E1 & _).
      rewrite E1. cbn -[safeEnqueue].
      destruct (streamClosed s1); cbn -[safeEnqueue]; [done|].
      pose proof (flag_safeEnqueue true
                    {| event := "content_block_delta";
                       data := block_start_event index id name |}
                    (set_toolCallStarted true s1) eq_refl) as Hk.
      destruct (safeEnqueue _ (set_toolCallStarted true s1)) as [[[]|e] s2]; exact Hk.
  - rewrite orb_false_r.
    destruct (convertOpenAIStreamToClaude openaiChunk) as [claudeEvent|e] eqn:Hc; [|done].
    pose proof (unannounced_event _ _ Ha Hc) as Htype.
    unfold bind, read, lift. rewrite Hopen. cbn -[safeEnqueue].
    destruct (truthy claudeEvent) eqn:Ht; cbn -[safeEnqueue]; [|done].
    rewrite (truthy_get_total _ "type" Ht). cbn -[safeEnqueue].
    rewrite Htype. cbn -[safeEnqueue]. rewrite Hopen. cbn -[safeEnqueue].
    unfold event_frame. rewrite (truthy_get_total _ "type" Ht). cbn -[safeEnqueue].
    match goal with
    | |- context [safeEnqueue ?f s] =>
        pose proof (flag_safeEnqueue (toolCallStarted s) f s eq_refl) as Hk;
        destruct (safeEnqueue f s) as [[[]|e] s1]; exact Hk
    end.
Qed.

(** The lines handled by a run that ends open set the flag when one of
    them announces the tool call. *)
Lemma for_lines_flag JSON_parse lines : forall s,
  streamClosed (snd (for_lines JSON_parse lines s)) = false ->
  toolCallStarted (snd (for_lines JSON_parse lines s))
  = toolCallStarted s || some_fragment JSON_parse announces_tool_call lines.
Proof.
  induction lines as [|line rest IH]; intros s Hend; [by rewrite orb_false_r|].
  destruct (streamClosed s) eqn:Hopen.
  { rewrite for_lines_closed in Hend by done. cbn in Hend. congruence. }
  rewrite for_lines_cons in Hend |- * by done.
  rewrite (IH _ Hend), (on_line_flag _ _ _ Hopen). cbn [some_fragment existsb].
  by rewrite orb_assoc.
Qed.

(** When the reader reports [done], the flag of the loop tells whether
    the upstream text announces the tool call on a complete line. *)
Lemma read_loop_flag JSON_parse up d :
  fst (read_loop JSON_parse (chunks up) (failure up) (initial d)) = Normal Done ->
  toolCallStarted (snd (read_loop JSON_parse (chunks up) (failure up) (initial d)))
  = tool_call_announced JSON_parse up.
Proof.
  intros Hdone.
  destruct (read_loop_lines JSON_parse (chunks up) (failure up) (initial d) eq_refl eq_refl)
    as [Hsame Hfst].
  change (buffer (initial d) +:+ ?t) with t in *. cbn zeta in *.
  fold (complete_lines (chunks up)) in *.
  rewrite Hdone in Hfst.
  destruct (streamClosed (snd (for_lines JSON_parse (complete_lines (chunks up)) (initial d))))
    eqn:Hopen; [done|].
  destruct Hsame as [-> _]. by rewrite (for_lines_flag _ _ _ Hopen).
Qed.

(** C2.  When the read loop of an exchange is left because the reader
    reported [done], the handler hands exactly one [message_stop] frame to
    the output, as the last frame, and the flag of the frame is true
    exactly when a complete line of the upstream text announces the tool
    call at index 0, which is also when a block start was forwarded.
    Every frame handed over is delivered unless the consumer cancelled
    just before the stop frame; a consumer that never cancels receives
    them all. *)
Theorem one_terminal_event (JSON_parse : string -> completion jsval)
    (up : upstream) (d : option nat) :
  fst (read_loop JSON_parse (chunks up) (failure up) (initial d)) = Normal Done ->
  let s := snd (start JSON_parse up (initial d)) in
  exists body,
    offered s = body ++ [message_stop (tool_call_announced JSON_parse up)] /\
    existsb is_message_stop body = false /\
    existsb is_block_start body = tool_call_announced JSON_parse up /\
    ((enqueued s = offered s /\ streamClosed s = false) \/
     (enqueued s = body /\ streamClosed s = true)) /\
    (d = None -> enqueued s = offered s).
Proof.
  intros Hdone s.
  destruct (stop_frame_handed JSON_parse up d Hdone) as (Hoff & Hstart & Hstop & Hcase & Hall).
  rewrite (read_loop_flag JSON_parse up d Hdone) in Hoff, Hstart.
  by exists (offered (snd (read_loop JSON_parse (chunks up) (failure up) (initial d)))).
Qed.

Lemma one_terminal_event_witness :
  let s := snd (start Json.parse tool_call_stream (initial (Some 4%nat))) in
  exists body,
    offered s = body ++ [message_stop true] /\
    existsb is_message_stop body = false /\
    existsb is_block_start body = true /\
    ((enqueued s = offered s /\ streamClosed s = false) \/
     (enqueued s = body /\ streamClosed s = true)) /\
    (Some 4%nat = None -> enqueued s = offered s).
Proof.
  apply (one_terminal_event Json.parse tool_call_stream (Some 4%nat)).
  vm_compute. reflexivity.
Defined.

(** C2 as stated fails: a stream whose only tool call has index 1
    forwards the arguments of the call and ends with the flag [false]. *)
Lemma tool_call_at_index_one_unreported :
  emitted Json.parse second_call_stream None
  = [second_call_arguments; message_stop false] /\
  tool_call_occurred Json.parse second_call_stream = true /\
  ~ stop_flag_reports_tool_calls Json.parse second_call_stream.
Proof.
  assert (Hrun : emitted Json.parse second_call_stream None
                 = [second_call_arguments; message_stop false])
    by (vm_compute; reflexivity).
  assert (Hcall : tool_call_occurred Json.parse second_call_stream = true)
    by (vm_compute; reflexivity).
  split; [exact Hrun|]. split; [exact Hcall|].
  intros Hclaim. specialize (Hclaim [second_call_arguments] false Hrun).
  rewrite Hcall in Hclaim. discriminate.
Qed.

(** *** Every frame written is one of the known frames *)


Lemma all_known_enqueue f : known_frame f = true -> stable all_known (safeEnqueue f).
Proof.
  intros Hf s [Ho He]. destruct (streamClosed s) eqn:Hc.
  - by rewrite safeEnqueue_closed.
  - destruct (safeEnqueue_open f s Hc) as (s' & -> & Ho' & _ & _ & _ & Hcase).
    cbn [snd]. split.
    + rewrite Ho'. apply Forall_app. split; [done | by constructor].
    + destruct Hcase as [(-> & _) | (-> & _)]; [|done].
      apply Forall_app. split; [done | by constructor].
Qed.

Lemma all_known_exchange JSON_parse up d :
  all_known (snd (start JSON_parse up (initial d))).
Proof.
  apply (start_stable JSON_parse all_known).
  - apply all_known_enqueue.
  - by intros s H.
  - by intros l text s H.
  - by intros b s H.
  - intros e s H. destruct (catch_frame e s) as (s' & -> & Ho & He).
    unfold all_known. cbn [snd]. by rewrite Ho, He.
  - intros s H. destruct (finally_frame s) as (Ho & He & _).
    unfold all_known. by rewrite Ho, He.
  - by split.
Qed.

(** *** At most one frame is refused *)


Lemma one_refused_enqueue f : stable one_refused (safeEnqueue f).
Proof.
  intros s [Hopen Hcase]. destruct (streamClosed s) eqn:Hc.
  - rewrite safeEnqueue_closed by done. cbn [snd]. split; [congruence | done].
  - destruct (safeEnqueue_open f s Hc) as (s' & -> & Ho' & _ & _ & _ & Hs').
    cbn [snd]. specialize (Hopen eq_refl). unfold one_refused.
    destruct Hs' as [(He' & Hc' & _) | (He' & Hc' & _)]; rewrite Ho', He', Hc', Hopen.
    + split; [done | by left].
    + split; [done | right; by exists f].
Qed.

Lemma one_refused_exchange JSON_parse up d :
  one_refused (snd (start JSON_parse up (initial d))).
Proof.
  apply (start_stable JSON_parse one_refused).
  - intros f _. apply one_refused_enqueue.
  - by intros s H.
  - by intros l text s H.
  - by intros b s H.
  - intros e s [Hopen Hcase]. destruct (catch_frame e s) as (s' & Hrun & Ho & He).
    rewrite Hrun. cbn [snd]. unfold one_refused. rewrite Ho, He.
    split; [|done]. intros Hc. apply Hopen.
    revert Hrun Hc. unfold start_catch, bind, stream_print, update, read; cbn.
    destruct (streamClosed s) eqn:Hcs; cbn; [|done].
    intros [= <-]. cbn. congruence.
  - intros s [Hopen Hcase]. destruct (finally_frame s) as (Ho & He & Hc).
    unfold one_refused. by rewrite Ho, He, Hc.
  - split; [done | by left].
Qed.

(** *** How an exchange ends *)


Lemma closed_by_cancel_enqueue f : stable closed_by_cancel (safeEnqueue f).
Proof.
  intros s H. unfold safeEnqueue, try_catch, bind, read, controller_enqueue.
  destruct (streamClosed s) eqn:Hc; cbn; [exact H|].
  destruct (cancelled s) eqn:Hx; cbn.
  - intros _. exact Hx.
  - unfold closed_by_cancel. cbn. by rewrite Hc.
Qed.

Lemma closed_by_cancel_loop JSON_parse values failure d :
  closed_by_cancel (snd (read_loop JSON_parse values failure (initial d))).
Proof.
  apply (read_loop_stable JSON_parse closed_by_cancel).
  - intros f _. apply closed_by_cancel_enqueue.
  - by intros s H.
  - by intros l text s H.
  - by intros b s H.
  - by intros H.
Qed.

Lemma start_finally_closed s : streamClosed s = true -> start_finally s = (Normal tt, s).
Proof. intros H. unfold start_finally, bind, read. by rewrite H. Qed.

Lemma start_finally_open s :
  streamClosed s = false ->
  exists s',
    start_finally s = (Normal tt, s') /\
    offered s' = offered s /\ enqueued s' = enqueued s /\
    toolCallStarted s' = toolCallStarted s /\ demand s' = demand s /\
    finished s' = (if cancelled s then finished s else Some None).
Proof.
  intros H. unfold start_finally, bind, read, try_catch, controller_close. rewrite H.
  cbn. destruct (cancelled s); by eexists.
Qed.

Lemma start_catch_open e s :
  streamClosed s = false ->
  exists s',
    start_catch e s = (Normal tt, s') /\
    offered s' = offered s /\ enqueued s' = enqueued s /\
    streamClosed s' = true /\ demand s' = demand s /\
    finished s' = (if cancelled s then finished s else Some (Some e)).
Proof.
  intros H.
  unfold start_catch, bind, read, try_catch, controller_error, stream_print, update.
  cbn. rewrite H. cbn.
  change (cancelled _) with (cancelled s).
  destruct (cancelled s); by eexists.
Qed.

Lemma cancelled_finished s e : finished s = Some e -> cancelled s = true.
Proof. unfold cancelled. intros ->. by destruct (demand s) as [[|n]|]. Qed.

Lemma not_cancelled s : demand s = None -> finished s = None -> cancelled s = false.
Proof. unfold cancelled. by intros -> ->. Qed.

Lemma cancelled_same s s' :
  demand s' = demand s -> finished s' = finished s -> cancelled s' = cancelled s.
Proof. unfold cancelled. by intros -> ->. Qed.

(** An upstream that ends without failure is read to its end when the
    consumer never cancels. *)
Lemma read_to_the_end JSON_parse up :
  failure up = None ->
  fst (read_loop JSON_parse (chunks up) (failure up) (initial None)) = Normal Done.
Proof.
  intros Hfail.
  destruct (read_loop_tracked JSON_parse (chunks up) (failure up) (initial None)
              (tracked_initial None) eq_refl) as [[_ [Hfin Hdem]] Hend].
  pose proof (closed_by_cancel_loop JSON_parse (chunks up) (failure up) None) as Hcan.
  destruct (fst (read_loop JSON_parse (chunks up) (failure up) (initial None)))
    as [[|]|e]; [done | | ].
  - specialize (Hcan Hend). rewrite not_cancelled in Hcan; [done | by apply Hdem | done].
  - destruct Hend as [Hsome _]. congruence.
Qed.

Lemma exchange_terminal JSON_parse up d :
  let s := snd (start JSON_parse up (initial d)) in
  cancelled s = true /\
  (finished s = Some None ->
   failure up = None /\
   exists body, enqueued s = body ++ [message_stop (toolCallStarted s)]) /\
  (forall e, finished s = Some (Some e) ->
   failure up = Some e /\ existsb is_message_stop (offered s) = false) /\
  (d = None -> finished s = Some (failure up)).
Proof.
  cbn zeta. rewrite start_unfold.
  pose proof (read_loop_tracked JSON_parse (chunks up) (failure up) (initial d)
                (tracked_initial d) eq_refl) as [[Htr [Hfin Hdem]] Hexit].
  pose proof (closed_by_cancel_loop JSON_parse (chunks up) (failure up) d) as Hcbc.
  destruct (read_loop JSON_parse (chunks up) (failure up) (initial d)) as [r s1].
  cbn [fst snd] in *. change (finished (initial d)) with (@None (option js_error)) in Hfin.
  change (demand (initial d)) with d in Hdem.
  assert (forall s2, streamClosed s2 = true -> finished s2 = None ->
                     cancelled s2 = true -> demand s2 = demand s1 \/ d <> None ->
            cancelled s2 = true /\
            (finished s2 = Some None ->
             failure up = None /\
             exists body, enqueued s2 = body ++ [message_stop (toolCallStarted s2)]) /\
            (forall e, finished s2 = Some (Some e) ->
             failure up = Some e /\ existsb is_message_stop (offered s2) = false) /\
            (d = None -> finished s2 = Some (failure up))) as Hcancelled.
  { intros s2 Hc2 Hf2 Hx2 Hd2. split; [done|]. rewrite Hf2.
    split; [done|]. split; [done|]. intros ->.
    destruct Hd2 as [Hd2|Hd2]; [|done].
    rewrite (not_cancelled s2) in Hx2; [done| |done]. rewrite Hd2. by apply Hdem. }
  destruct r as [[]|e].
  - (* the reader reported done *)
    destruct Hexit as [Hfail Hopen]. rewrite Hopen.
    destruct (safeEnqueue_open (message_stop (toolCallStarted s1)) s1 Hopen)
      as (s2 & Hrun & Ho2 & Ht2 & Hf2 & Hd2 & Hcase).
    pose proof (closed_by_cancel_enqueue (message_stop (toolCallStarted s1)) s1 Hcbc) as Hcbc2.
    rewrite Hrun in Hcbc2 |- *. cbn [snd] in *.
    destruct Hcase as [(He2 & Hc2 & Hx1) | (He2 & Hc2 & Hx1)].
    + destruct (start_finally_open s2 Hc2) as (s3 & -> & Ho3 & He3 & Ht3 & Hd3 & Hf3).
      cbn [snd]. destruct (cancelled s2) eqn:Hx2.
      * split; [rewrite (cancelled_same s2 s3); [done | done | congruence]|].
        rewrite Hf3, Hf2, Hfin. split; [done|]. split; [done|]. intros ->.
        rewrite (not_cancelled s2) in Hx2; [done | by apply Hd2, Hdem | congruence].
      * split; [by eapply cancelled_finished|]. rewrite Hf3.
        split; [|split; [done | by rewrite Hfail]].
        intros _. split; [done|]. exists (enqueued s1). by rewrite He3, He2, Ht3, Ht2.
    + rewrite start_finally_closed by done. cbn [snd].
      apply Hcancelled; [done | congruence | by apply Hcbc2 |].
      destruct d; [by right|]. left. rewrite Hd2; [by rewrite Hdem | by apply Hdem].
  - (* the loop was left because the stream is closed *)
    rewrite Hexit. rewrite start_finally_closed by done. cbn [snd].
    apply Hcancelled; [done | done | by apply Hcbc | by left].
  - (* a read failed *)
    destruct Hexit as [Hfail Hopen].
    destruct (start_catch_open e s1 Hopen) as (s2 & -> & Ho2 & He2 & Hc2 & Hd2 & Hf2).
    cbn [snd]. rewrite start_finally_closed by done. cbn [snd].
    destruct (cancelled s1) eqn:Hx1.
    + apply Hcancelled; [done | congruence | | by left].
      rewrite (cancelled_same s1 s2); [done | done | congruence].
    + split; [by eapply cancelled_finished|]. rewrite Hf2.
      split; [done|]. split; [|by rewrite Hfail].
      intros e' [= <-]. split; [done|]. rewrite Ho2. apply Htr.
Qed.

(** *** Cancellation cuts the exchange short *)

Lemma stable_lift I {A} (c : completion A) : stable I (lift c).
Proof. by intros s H. Qed.

Lemma aside_ret {A} (a : A) : aside (ret a).
Proof. intros E. split; apply stable_ret. Qed.

Lemma aside_lift {A} (c : completion A) : aside (lift c).
Proof. intros E. split; apply stable_lift. Qed.

Lemma aside_read {A} (f : stream_state -> A) : aside (read f).
Proof. intros E. split; apply stable_read. Qed.

Lemma aside_bind {A B} (m : Stream A) (k : A -> Stream B) :
  aside m -> (forall a, aside (k a)) -> aside (bind m k).
Proof.
  intros Hm Hk E. split; (apply stable_bind; [apply Hm | intros a; apply Hk]).
Qed.

Lemma aside_try_catch {A} (m : Stream A) (h : js_error -> Stream A) :
  aside m -> (forall e, aside (h e)) -> aside (try_catch m h).
Proof.
  intros Hm Hh E. split; (apply stable_try_catch; [apply Hm | intros e; apply Hh]).
Qed.

Lemma aside_print l text : aside (stream_print l text).
Proof. intros E. split; by intros s H. Qed.

Lemma aside_started b : aside (update (set_toolCallStarted b)).
Proof. intros E. split; by intros s H. Qed.

Lemma aside_buffer b : aside (update (set_buffer b)).
Proof. intros E. split; by intros s H. Qed.

Lemma aside_safeEnqueue f : aside (safeEnqueue f).
Proof.
  intros E. split; intros s H.
  - destruct H as [Hc He]. by rewrite safeEnqueue_closed.
  - destruct H as [rest He]. destruct (streamClosed s) eqn:Hc.
    + rewrite safeEnqueue_closed by done. by exists rest.
    + destruct (safeEnqueue_open f s Hc) as (s' & -> & _ & _ & _ & _ & Hcase).
      cbn [snd]. destruct Hcase as [(He' & _) | (He' & _)].
      * exists (rest ++ [f]). by rewrite He', He, app_assoc.
      * exists rest. by rewrite He'.
Qed.

Ltac aside_step :=
  match goal with
  | |- aside (bind _ _) => apply aside_bind; [|intros ?]
  | |- aside (try_catch _ _) => apply aside_try_catch; [|intros ?]
  | |- aside (ret _) => apply aside_ret
  | |- aside (lift _) => apply aside_lift
  | |- aside (read _) => apply aside_read
  | |- aside (stream_print _ _) => apply aside_print
  | |- aside (update (set_toolCallStarted _)) => apply aside_started
  | |- aside (update (set_buffer _)) => apply aside_buffer
  | |- aside (safeEnqueue _) => apply aside_safeEnqueue
  | |- aside (if ?b then _ else _) => destruct b
  | |- aside (match ?x with _ => _ end) => destruct x
  end.

Lemma aside_on_line JSON_parse line : aside (on_line JSON_parse line).
Proof. unfold on_line, forward. repeat aside_step. Qed.

Lemma aside_for_lines JSON_parse lines : aside (for_lines JSON_parse lines).
Proof.
  induction lines as [|line rest IH]; cbn [for_lines]; [apply aside_ret|].
  repeat first [apply aside_on_line | exact IH | aside_step].
Qed.

Lemma aside_read_loop JSON_parse values failure :
  aside (read_loop JSON_parse values failure).
Proof.
  induction values as [|value rest IH]; cbn [read_loop].
  - destruct failure; [|apply aside_ret]. intros E. split; apply stable_throw.
  - unfold on_chunk. repeat first [apply aside_for_lines | exact IH | aside_step].
Qed.

Section Pair.

Variable n : nat.

Lemma parted_after {A} (m1 m2 : Stream A) s1 s2 :
  aside m1 -> aside m2 -> parted n s1 s2 -> parted n (snd (m1 s1)) (snd (m2 s2)).
Proof.
  intros H1 H2 (E & HE & Hcut & Hgo). exists E. split; [done|].
  split; [by apply H1 | by apply H2].
Qed.

Lemma in_pair_ret {A} (a : A) : in_pair n (ret a).
Proof. intros s1 s2 H. by left. Qed.

Lemma in_pair_lift {A} (c : completion A) : in_pair n (lift c).
Proof. intros s1 s2 H. by left. Qed.

Lemma in_pair_throw {A} e : in_pair n (@throw _ A e).
Proof. intros s1 s2 H. by left. Qed.

Lemma in_pair_streamClosed : in_pair n (read streamClosed).
Proof.
  intros s1 s2 H. left. split; [|done]. cbn. destruct H as (_ & -> & -> & _). done.
Qed.

Lemma in_pair_toolCallStarted : in_pair n (read toolCallStarted).
Proof.
  intros s1 s2 H. left. split; [|done]. cbn. destruct H as (_ & _ & _ & -> & _). done.
Qed.

Lemma in_pair_buffer : in_pair n (read buffer).
Proof.
  intros s1 s2 H. left. split; [|done]. cbn. destruct H as (-> & _). done.
Qed.

Lemma in_pair_set_buffer b : in_pair n (update (set_buffer b)).
Proof.
  intros s1 s2 (H0 & H1 & H2 & H3 & H4 & H5 & H6 & H7 & H8). left. split; [done|].
  by repeat split.
Qed.

Lemma in_pair_print l text : in_pair n (stream_print l text).
Proof. intros s1 s2 H. left. split; [done|]. exact H. Qed.

Lemma in_pair_started b : in_pair n (update (set_toolCallStarted b)).
Proof.
  intros s1 s2 (H0 & H1 & H2 & H3 & H4 & H5 & H6 & H7 & H8). left. split; [done|].
  by repeat split.
Qed.

Lemma in_pair_bind {A B} (m : Stream A) (k : A -> Stream B) :
  in_pair n m -> (forall a, in_pair n (k a)) -> (forall a, aside (k a)) ->
  in_pair n (bind m k).
Proof.
  intros Hm Hk Ha s1 s2 H. destruct (Hm s1 s2 H) as [[Hr Hs] | Hp].
  - unfold bind. destruct (m s1) as [[a1|e1] t1], (m s2) as [[a2|e2] t2];
      cbn in Hr, Hs; try discriminate; injection Hr as ->.
    + by apply Hk.
    + left. by split.
  - right. destruct Hp as (E & HE & Hcut & Hgo). exists E. split; [done|].
    unfold bind. split.
    + destruct (m s1) as [[a1|e1] t1]; cbn in Hcut |- *; [by apply Ha | done].
    + destruct (m s2) as [[a2|e2] t2]; cbn in Hgo |- *; [by apply Ha | done].
Qed.

Lemma in_pair_try_catch {A} (m : Stream A) (h : js_error -> Stream A) :
  in_pair n m -> (forall e, in_pair n (h e)) -> (forall e, aside (h e)) ->
  in_pair n (try_catch m h).
Proof.
  intros Hm Hh Ha s1 s2 H. destruct (Hm s1 s2 H) as [[Hr Hs] | Hp].
  - unfold try_catch. destruct (m s1) as [[a1|e1] t1], (m s2) as [[a2|e2] t2];
      cbn in Hr, Hs; try discriminate; injection Hr as ->.
    + left. by split.
    + by apply Hh.
  - right. destruct Hp as (E & HE & Hcut & Hgo). exists E. split; [done|].
    unfold try_catch. split.
    + destruct (m s1) as [[a1|e1] t1]; cbn in Hcut |- *; [done | by apply Ha].
    + destruct (m s2) as [[a2|e2] t2]; cbn in Hgo |- *; [done | by apply Ha].
Qed.

Lemma in_pair_safeEnqueue f : in_pair n (safeEnqueue f).
Proof.
  intros s1 s2 (Hb & Hc1 & Hc2 & Ht & He & (m & Hd1 & Hm) & Hd2 & Hf1 & Hf2).
  unfold safeEnqueue, try_catch, bind, read, controller_enqueue.
  rewrite Hc1, Hc2. cbn [negb].
  assert (cancelled s2 = false) as -> by by apply not_cancelled.
  assert (cancelled s1 = match m with O => true | S _ => false end) as ->.
  { unfold cancelled. rewrite Hd1, Hf1. by destruct m. }
  destruct m as [|m].
  - right. exists (enqueued s1). split; [done|]. cbn. split; [done|].
    exists [f]. by rewrite He.
  - left. cbn. split; [done|]. unfold in_step. cbn. rewrite Hd1, Hd2, He, Ht, Hb.
    repeat split; try done. exists m. split; [done|]. rewrite length_app. cbn.
    rewrite <- He. lia.
Qed.

Ltac aside_solve :=
  repeat first [apply aside_for_lines | apply aside_on_line | apply aside_read_loop
               | aside_step].

Ltac pair_step :=
  match goal with
  | |- in_pair _ (bind _ _) =>
      apply in_pair_bind; [ | intros ? | intros ?; aside_solve ]
  | |- in_pair _ (try_catch _ _) =>
      apply in_pair_try_catch; [ | intros ? | intros ?; aside_solve ]
  | |- in_pair _ (ret _) => apply in_pair_ret
  | |- in_pair _ (lift _) => apply in_pair_lift
  | |- in_pair _ (throw _) => apply in_pair_throw
  | |- in_pair _ (read streamClosed) => apply in_pair_streamClosed
  | |- in_pair _ (read toolCallStarted) => apply in_pair_toolCallStarted
  | |- in_pair _ (read buffer) => apply in_pair_buffer
  | |- in_pair _ (stream_print _ _) => apply in_pair_print
  | |- in_pair _ (update (set_toolCallStarted _)) => apply in_pair_started
  | |- in_pair _ (update (set_buffer _)) => apply in_pair_set_buffer
  | |- in_pair _ (safeEnqueue _) => apply in_pair_safeEnqueue
  | |- in_pair _ (if ?b then _ else _) => destruct b
  | |- in_pair _ (match ?x with _ => _ end) => destruct x
  end.

Lemma in_pair_on_line JSON_parse line : in_pair n (on_line JSON_parse line).
Proof. unfold on_line, forward. repeat pair_step. Qed.

Lemma in_pair_for_lines JSON_parse lines : in_pair n (for_lines JSON_parse lines).
Proof.
  induction lines as [|line rest IH]; cbn [for_lines]; [apply in_pair_ret|].
  repeat first [apply in_pair_on_line | exact IH | pair_step].
Qed.

Lemma in_pair_read_loop JSON_parse values failure :
  in_pair n (read_loop JSON_parse values failure).
Proof.
  induction values as [|value rest IH]; cbn [read_loop].
  - destruct failure; [apply in_pair_throw | apply in_pair_ret].
  - unfold on_chunk. repeat first [apply in_pair_for_lines | exact IH | pair_step].
Qed.

End Pair.

Lemma in_step_initial n : in_step n (initial (Some n)) (initial None).
Proof. repeat split; try done. exists n. cbn. split; [done | lia]. Qed.

Lemma finally_enqueued s : enqueued (snd (start_finally s)) = enqueued s.
Proof. by destruct (finally_frame s) as (_ & -> & _). Qed.

Lemma catch_enqueued e s : enqueued (snd (start_catch e s)) = enqueued s.
Proof. destruct (catch_frame e s) as (s' & -> & _ & He). exact He. Qed.

Lemma catch_stays_closed e s :
  streamClosed s = true -> streamClosed (snd (start_catch e s)) = true.
Proof.
  intros H. unfold start_catch, bind, read, stream_print, update. cbn. by rewrite H.
Qed.

Lemma in_step_take n s1 s2 : in_step n s1 s2 -> enqueued s1 = take n (enqueued s2).
Proof.
  intros (_ & _ & _ & _ & He & (m & _ & Hm) & _). rewrite <- He.
  rewrite take_ge; [done | lia].
Qed.

Lemma parted_take n s1 s2 : parted n s1 s2 -> enqueued s1 = take n (enqueued s2).
Proof.
  intros (E & HE & [_ ->] & [rest ->]). rewrite take_app_length'; done.
Qed.

(** X17.  A consumer that cancels after [n] frames has received the first [n]
    frames that a consumer who never cancels receives from the same
    upstream. *)
Theorem cancellation_cuts (JSON_parse : string -> completion jsval) (up : upstream)
    (n : nat) :
  emitted JSON_parse up (Some n) = take n (emitted JSON_parse up None).
Proof.
  unfold emitted. rewrite !start_unfold, !finally_enqueued.
  pose proof (in_pair_read_loop n JSON_parse (chunks up) (failure up) _ _
                (in_step_initial n)) as Hloop.
  destruct (read_loop JSON_parse (chunks up) (failure up) (initial (Some n))) as [r1 s1].
  destruct (read_loop JSON_parse (chunks up) (failure up) (initial None)) as [r2 s2].
  cbn [fst snd] in Hloop. destruct Hloop as [[<- Hstep] | Hparted].
  - destruct r1 as [exit|e].
    + assert (enqueued (if streamClosed s1 then s1
                        else snd (safeEnqueue (message_stop (toolCallStarted s1)) s1))
              = take n (enqueued (if streamClosed s2 then s2
                                  else snd (safeEnqueue
                                              (message_stop (toolCallStarted s2)) s2))))
        as Hstop.
      { pose proof Hstep as (_ & -> & -> & Ht & _). rewrite <- Ht.
        destruct (in_pair_safeEnqueue n (message_stop (toolCallStarted s1)) s1 s2 Hstep)
          as [[_ H] | H]; [by apply in_step_take | by apply parted_take]. }
      by destruct exit.
    + rewrite !catch_enqueued. by apply in_step_take.
  - apply parted_take.
    assert (forall r : completion loop_exit, aside
              (fun s => (Normal tt,
                 match r with
                 | Normal _ =>
                     if streamClosed s then s
                     else snd (safeEnqueue (message_stop (toolCallStarted s)) s)
                 | Throw e => snd (start_catch e s)
                 end))) as Hg.
    { intros r E. split.
      - intros s [Hc He]. cbn [snd]. destruct r as [exit|e].
        + by rewrite Hc.
        + split; [by apply catch_stays_closed | by rewrite catch_enqueued].
      - intros s [rest He]. cbn [snd]. destruct r as [exit|e].
        + destruct (streamClosed s); [by exists rest|].
          apply (aside_safeEnqueue (message_stop (toolCallStarted s)) E).
          by exists rest.
        + exists rest. by rewrite catch_enqueued. }
    pose proof (parted_after n _ _ s1 s2 (Hg r1) (Hg r2) Hparted) as H. cbn [snd] in H.
    by destruct r1 as [[]|], r2 as [[]|].
Qed.

(** *** Texts and their lines *)

Lemma one_line_cons c text : one_line (String c text) -> Ascii.eqb c (ascii_of_nat 10) = false /\ one_line text.
Proof.
  unfold one_line. cbn [split_LF]. pose proof (split_LF_nonempty text) as Hne.
  destruct (Ascii.eqb c (ascii_of_nat 10)).
  - intros H. discriminate H.
  - destruct (split_LF text) as [|first others] eqn:Hs; [done|].
    intros H. injection H as -> ->. done.
Qed.

Lemma split_LF_one_line line : one_line line -> forall rest,
  split_LF (line +:+ rest)
  = match split_LF rest with
    | first :: others => (line +:+ first) :: others
    | [] => []
    end.
Proof.
  induction line as [|c line IH]; intros Hline rest.
  - change (EmptyString +:+ rest) with rest. by destruct (split_LF rest).
  - apply one_line_cons in Hline as [Hc Hline].
    change (String c line +:+ rest) with (String c (line +:+ rest)).
    cbn [split_LF]. rewrite Hc, (IH Hline).
    pose proof (split_LF_nonempty rest) as Hne.
    by destruct (split_LF rest).
Qed.

Lemma concat_cons (x : string) xs :
  String.concat EmptyString (x :: xs) = x +:+ String.concat EmptyString xs.
Proof. destruct xs; cbn; [by rewrite append_empty | done]. Qed.

Lemma split_lines_text lines :
  Forall one_line lines -> split_LF (lines_text lines) = lines ++ [EmptyString].
Proof.
  induction 1 as [|line rest Hline Hrest IH]; [done|].
  unfold lines_text in *. cbn [map]. rewrite concat_cons, append_assoc.
  rewrite (split_LF_one_line line Hline).
  change (LF +:+ ?t) with (String (ascii_of_nat 10) t). cbn [split_LF].
  rewrite Ascii.eqb_refl, IH, append_empty. done.
Qed.

Lemma complete_lines_text lines :
  Forall one_line lines -> removelast (split_LF (lines_text lines)) = lines.
Proof. intros H. rewrite split_lines_text by done. apply removelast_last. Qed.

Section Lines.

Variable JSON_parse : string -> completion jsval.

Lemma on_line_silent line s :
  silent JSON_parse line = true -> same_output (snd (on_line JSON_parse line s)) s.
Proof.
  unfold silent, on_line. destruct (String.prefix _ _); [|intros _; apply same_output_refl].
  destruct (String.eqb _ _); [intros _; apply same_output_refl|]. cbn [orb].
  unfold try_catch, forward, bind, lift, read.
  destruct (JSON_parse _) as [openaiChunk|e]; cbn [cbind].
  - destruct (convertOpenAIStreamToClaude openaiChunk) as [claudeEvent|e].
    + intros H. apply negb_true_iff in H. rewrite H. apply same_output_refl.
    + intros _. apply same_output_print.
  - intros _. apply same_output_print.
Qed.

Lemma for_lines_silent lines : forall s1 s2,
  same_output s1 s2 ->
  same_output (snd (for_lines JSON_parse lines s1))
    (snd (for_lines JSON_parse
            (List.filter (fun line => negb (silent JSON_parse line)) lines) s2)).
Proof.
  induction lines as [|line rest IH]; intros s1 s2 Hs; [done|].
  assert (streamClosed s1 = streamClosed s2) as Hc by apply Hs.
  destruct (streamClosed s1) eqn:Hc1.
  - by rewrite !for_lines_closed.
  - rewrite for_lines_cons by done. cbn [List.filter].
    destruct (silent JSON_parse line) eqn:Hsilent; cbn [negb].
    + apply IH. exact (same_output_trans _ _ _ (on_line_silent line s1 Hsilent) Hs).
    + rewrite for_lines_cons by done. apply IH. by apply respects_on_line.
Qed.

(** Two exchanges whose complete lines have the same effect. *)
Lemma exchange_by_effect up1 up2 d :
  let l1 := removelast (split_LF (String.concat EmptyString (chunks up1))) in
  let l2 := removelast (split_LF (String.concat EmptyString (chunks up2))) in
  same_output (snd (for_lines JSON_parse l1 (initial d)))
              (snd (for_lines JSON_parse l2 (initial d))) ->
  failure up1 = failure up2 ->
  same_output (snd (start JSON_parse up1 (initial d))) (snd (start JSON_parse up2 (initial d))).
Proof.
  intros l1 l2 Hlines Hfail.
  destruct (read_loop_lines JSON_parse (chunks up1) (failure up1) (initial d) eq_refl eq_refl)
    as [A1 A2].
  destruct (read_loop_lines JSON_parse (chunks up2) (failure up2) (initial d) eq_refl eq_refl)
    as [B1 B2].
  change (buffer (initial d) +:+ ?t) with t in *. fold l1 in A1, A2. fold l2 in B1, B2.
  apply start_respects.
  - rewrite A2, B2, Hfail. by destruct Hlines as (_ & -> & _).
  - exact (same_output_trans _ _ _ A1
             (same_output_trans _ _ _ Hlines (same_output_sym _ _ B1))).
Qed.

End Lines.

(** X18.  The frames delivered depend on the upstream text, not on how the
    reads cut it. *)
Theorem frames_independent_of_chunking (JSON_parse : string -> completion jsval)
    (chunks1 chunks2 : list string) (outcome : option js_error) (d : option nat) :
  String.concat EmptyString chunks1 = String.concat EmptyString chunks2 ->
  let s1 := snd (start JSON_parse {| chunks := chunks1; failure := outcome |} (initial d)) in
  let s2 := snd (start JSON_parse {| chunks := chunks2; failure := outcome |} (initial d)) in
  emitted JSON_parse {| chunks := chunks1; failure := outcome |} d
  = emitted JSON_parse {| chunks := chunks2; failure := outcome |} d /\
  offered s1 = offered s2 /\ finished s1 = finished s2.
Proof.
  intros Htext s1 s2.
  assert (same_output s1 s2) as (_ & _ & Ho & He & _ & Hf).
  { apply exchange_by_lines; cbn [chunks failure]; [by rewrite Htext | done]. }
  done.
Qed.

Lemma frames_independent_of_chunking_witness :
  String.concat EmptyString ["da"; "ta: [DONE]" +:+ LF; "x"]
  = String.concat EmptyString ["data: [DO"; "NE]" +:+ LF +:+ "x"] /\
  emitted Json.parse {| chunks := ["da"; "ta: [DONE]" +:+ LF; "x"]; failure := None |} None
  = emitted Json.parse {| chunks := ["data: [DO"; "NE]" +:+ LF +:+ "x"]; failure := None |} None.
Proof.
  split; [reflexivity|].
  apply (frames_independent_of_chunking Json.parse
           ["da"; "ta: [DONE]" +:+ LF; "x"] ["data: [DO"; "NE]" +:+ LF +:+ "x"] None None).
  reflexivity.
Defined.

(** X19.  What follows the last line feed of the upstream text is never
    handled. *)
Theorem unterminated_line_dropped (JSON_parse : string -> completion jsval)
    (lines : list string) (tail : string) (outcome : option js_error) (d : option nat) :
  Forall one_line lines -> one_line tail ->
  emitted JSON_parse {| chunks := [lines_text lines +:+ tail]; failure := outcome |} d
  = emitted JSON_parse {| chunks := [lines_text lines]; failure := outcome |} d.
Proof.
  intros Hlines Htail.
  assert (same_output
            (snd (start JSON_parse {| chunks := [lines_text lines +:+ tail];
                                      failure := outcome |} (initial d)))
            (snd (start JSON_parse {| chunks := [lines_text lines];
                                      failure := outcome |} (initial d))))
    as (_ & _ & _ & He & _); [|exact He].
  apply exchange_by_lines; cbn [chunks failure]; [|done].
  rewrite !concat_cons. cbn [String.concat]. rewrite !append_empty.
  rewrite split_LF_app, split_lines_text by done.
  rewrite removelast_last, last_last. change (EmptyString +:+ tail) with tail.
  rewrite Htail. cbn [removelast]. by rewrite removelast_last.
Qed.

Lemma unterminated_line_dropped_witness :
  Forall one_line [dq "data: {'choices':[{'delta':{'content':'hi'}}]}"] /\
  one_line (dq "data: {'choices':[{'delta':{'content':'lost'}}]}") /\
  emitted Json.parse
    {| chunks := [lines_text [dq "data: {'choices':[{'delta':{'content':'hi'}}]}"]
                  +:+ dq "data: {'choices':[{'delta':{'content':'lost'}}]}"];
       failure := None |} None
  = emitted Json.parse
      {| chunks := [lines_text [dq "data: {'choices':[{'delta':{'content':'hi'}}]}"]];
         failure := None |} None.
Proof.
  assert (Forall one_line [dq "data: {'choices':[{'delta':{'content':'hi'}}]}"]) as H1.
  { repeat constructor. }
  assert (one_line (dq "data: {'choices':[{'delta':{'content':'lost'}}]}")) as H2.
  { reflexivity. }
  split; [exact H1|]. split; [exact H2|].
  exact (unterminated_line_dropped Json.parse _ _ None None H1 H2).
Defined.

(** X20.  Lines that carry no event leave no trace in the output. *)
Theorem silent_lines_skipped (JSON_parse : string -> completion jsval)
    (lines : list string) (outcome : option js_error) (d : option nat) :
  Forall one_line lines ->
  emitted JSON_parse {| chunks := [lines_text lines]; failure := outcome |} d
  = emitted JSON_parse
      {| chunks := [lines_text (List.filter (fun line => negb (silent JSON_parse line)) lines)];
         failure := outcome |} d.
Proof.
  intros Hlines.
  assert (Forall one_line (List.filter (fun line => negb (silent JSON_parse line)) lines))
    as Hkept.
  { induction Hlines as [|line rest Hline Hrest IH]; cbn [List.filter]; [constructor|].
    destruct (negb _); [by constructor | done]. }
  match goal with |- emitted _ ?up1 _ = emitted _ ?up2 _ =>
    assert (same_output (snd (start JSON_parse up1 (initial d)))
                        (snd (start JSON_parse up2 (initial d))))
      as (_ & _ & _ & He & _); [|exact He] end.
  apply exchange_by_effect; cbn [chunks failure]; [|done].
  rewrite !concat_cons. cbn [String.concat]. rewrite !append_empty.
  rewrite !complete_lines_text by done.
  apply for_lines_silent, same_output_refl.
Qed.

Lemma silent_lines_skipped_witness :
  let lines := ["data: [DONE]"; ": ping";
                dq "data: {'choices':[{'delta':{'content':'hi'}}]}"] in
  emitted Json.parse {| chunks := [lines_text lines]; failure := None |} None
  = emitted Json.parse
      {| chunks := [lines_text (List.filter (fun line => negb (silent Json.parse line))
                                  lines)];
         failure := None |} None.
Proof.
  apply (silent_lines_skipped Json.parse
           ["data: [DONE]"; ": ping"; dq "data: {'choices':[{'delta':{'content':'hi'}}]}"]
           None None).
  repeat constructor.
Defined.

Lemma known_frame_event f : known_frame f = true -> event f <> "message_delta".
Proof.
  unfold known_frame. intros H Hevent. rewrite Hevent in H. discriminate H.
Qed.

(** X21.  Every frame of an exchange is a [message_start], a [message_stop] or
    a [content_block_delta] frame around a block start or a block delta;
    the event name [message_delta] never occurs. *)
Theorem only_known_frames (JSON_parse : string -> completion jsval) (up : upstream)
    (d : option nat) :
  Forall (fun f => known_frame f = true /\ event f <> "message_delta")
    (offered (snd (start JSON_parse up (initial d)))) /\
  Forall (fun f => known_frame f = true /\ event f <> "message_delta")
    (emitted JSON_parse up d).
Proof.
  destruct (all_known_exchange JSON_parse up d) as [Ho He].
  split; (eapply Forall_impl; [eassumption|]); intros f Hf;
    (split; [done | by apply known_frame_event]).
Qed.

(** X22.  How an exchange ends.  The output is left finished or cancelled,
    never open.  It is closed only after the stop frame was delivered on
    an upstream that ended; it is errored, with the error of the failed
    read and without stop frame, only when a read failed; a consumer
    that never cancels sees one or the other.  At most one frame was
    handed over without being accepted. *)
Theorem exchange_end (JSON_parse : string -> completion jsval) (up : upstream)
    (d : option nat) :
  let s := snd (start JSON_parse up (initial d)) in
  cancelled s = true /\
  (finished s = Some None ->
   failure up = None /\
   exists body, enqueued s = body ++ [message_stop (toolCallStarted s)]) /\
  (forall e, finished s = Some (Some e) ->
   failure up = Some e /\ existsb is_message_stop (offered s) = false) /\
  (d = None -> finished s = Some (failure up)) /\
  (offered s = enqueued s \/ exists f, offered s = enqueued s ++ [f]).
Proof.
  destruct (exchange_terminal JSON_parse up d) as (H1 & H2 & H3 & H4).
  destruct (one_refused_exchange JSON_parse up d) as [_ H5].
  cbn zeta in *. split; [exact H1|]. split; [exact H2|]. split; [exact H3|].
  split; [exact H4 | exact H5].
Qed.

(** ** The configured keys *)

Lemma trimStart_fixed c rest : is_space c = false -> trimStart (String c rest) = String c rest.
Proof. intros H. cbn. by rewrite H. Qed.

Lemma trimStart_head s :
  trimStart s = EmptyString \/
  exists c rest, trimStart s = String c rest /\ is_space c = false.
Proof.
  induction s as [|c rest IH]; [by left|]. cbn [trimStart].
  destruct (is_space c) eqn:E; [exact IH|]. right. by exists c, rest.
Qed.

Lemma trimEnd_head c rest :
  is_space c = false -> exists rest', trimEnd (String c rest) = String c rest'.
Proof.
  intros H. cbn [trimEnd]. rewrite H. destruct (trimEnd rest); by eexists.
Qed.

Lemma trimEnd_twice s : trimEnd (trimEnd s) = trimEnd s.
Proof.
  induction s as [|c rest IH]; [done|]. cbn [trimEnd].
  destruct (trimEnd rest) as [|c' rest'] eqn:E.
  - destruct (is_space c) eqn:Hc; [done|]. cbn. by rewrite Hc.
  - cbn [trimEnd]. cbn [trimEnd] in IH. by rewrite IH.
Qed.

Lemma trim_twice s : trim (trim s) = trim s.
Proof.
  unfold trim. destruct (trimStart_head s) as [-> | (c & rest & -> & Hc)]; [done|].
  destruct (trimEnd_head c rest Hc) as [rest' Hrest]. rewrite Hrest.
  rewrite trimStart_fixed by done. rewrite <- Hrest. apply trimEnd_twice.
Qed.


Lemma split_comma_nonempty s : split_comma s <> [].
Proof.
  destruct s as [|c rest]; cbn; [done|].
  destruct (Ascii.eqb _ _); [done|]. by destruct (split_comma rest).
Qed.

Lemma comma_free_split s : comma_free s = true <-> split_comma s = [s].
Proof.
  induction s as [|c rest IH]; [done|]. cbn [comma_free split_comma].
  pose proof (split_comma_nonempty rest) as Hne.
  destruct (Ascii.eqb c ","%char); cbn [negb andb].
  - split; [done|]. intros H. discriminate H.
  - rewrite IH. destruct (split_comma rest) as [|first others]; [done|]. split.
    + by intros [= -> ->].
    + intros [= -> ->]. done.
Qed.

Lemma split_comma_parts s : Forall (fun part => comma_free part = true) (split_comma s).
Proof.
  induction s as [|c rest IH]; [by repeat constructor|]. cbn [split_comma].
  pose proof (split_comma_nonempty rest) as Hne.
  destruct (Ascii.eqb c ","%char) eqn:E; [by constructor|].
  destruct (split_comma rest) as [|first others]; [done|].
  apply Forall_cons in IH as [H1 H2]. constructor; [|done]. cbn. by rewrite E.
Qed.

Lemma comma_free_trimStart s : comma_free s = true -> comma_free (trimStart s) = true.
Proof.
  induction s as [|c rest IH]; [done|]. cbn [trimStart]. intros H.
  destruct (is_space c); [|done]. apply IH. cbn in H. by apply andb_true_iff in H as [_ ?].
Qed.

Lemma comma_free_trimEnd s : comma_free s = true -> comma_free (trimEnd s) = true.
Proof.
  induction s as [|c rest IH]; [done|]. cbn [trimEnd comma_free].
  intros [Hc Hrest]%andb_true_iff. specialize (IH Hrest).
  destruct (trimEnd rest) as [|c' rest'].
  - destruct (is_space c); [done|]. cbn. by rewrite Hc.
  - cbn [comma_free] in *. by rewrite Hc, IH.
Qed.

Lemma length_positive (s : string) : (0 <? String.length s)%nat = true <-> s <> EmptyString.
Proof. destruct s; cbn; [by split | split; done]. Qed.

(** X23.  Every configured key is not empty, has no white space around it
    and holds no comma, whatever the variable holds. *)
Theorem configured_keys_clean (VERCEL_API_KEYS_ENV : option string) :
  Forall clean_key (VERCEL_API_KEYS VERCEL_API_KEYS_ENV).
Proof.
  unfold VERCEL_API_KEYS. destruct VERCEL_API_KEYS_ENV as [text|]; [|constructor].
  destruct (String.eqb text ""); [constructor|].
  pose proof (split_comma_parts text) as Hparts.
  induction Hparts as [|part rest Hpart Hrest IH]; [constructor|].
  cbn [map List.filter]. destruct (0 <? String.length (trim part))%nat eqn:E; [|exact IH].
  constructor; [|exact IH]. split; [by apply length_positive|].
  split; [apply trim_twice|]. apply comma_free_split.
  by apply comma_free_trimEnd, comma_free_trimStart.
Qed.

Lemma split_comma_head key : comma_free key = true -> forall rest,
  split_comma (key +:+ rest)
  = match split_comma rest with
    | first :: others => (key +:+ first) :: others
    | [] => []
    end.
Proof.
  induction key as [|c key IH]; intros Hkey rest.
  - change (EmptyString +:+ rest) with rest. by destruct (split_comma rest).
  - cbn in Hkey. apply andb_true_iff in Hkey as [Hc Hkey]. apply negb_true_iff in Hc.
    change (String c key +:+ rest) with (String c (key +:+ rest)).
    cbn [split_comma]. rewrite Hc, (IH Hkey).
    pose proof (split_comma_nonempty rest) as Hne. by destruct (split_comma rest).
Qed.

Lemma split_comma_joined keys :
  keys <> [] -> Forall (fun key => comma_free key = true) keys ->
  split_comma (String.concat "," keys) = keys.
Proof.
  intros Hne Hkeys. induction Hkeys as [|key rest Hkey Hrest IH]; [done|].
  destruct rest as [|key' rest].
  - cbn. by apply comma_free_split.
  - change (String.concat "," (key :: key' :: rest))
      with (key +:+ String ","%char (String.concat "," (key' :: rest))).
    rewrite split_comma_head by done. cbn [split_comma].
    rewrite Ascii.eqb_refl. rewrite IH by done. by rewrite append_empty.
Qed.

Lemma clean_keys_kept keys :
  Forall clean_key keys ->
  List.filter (fun key => (0 <? String.length key)%nat) (map trim keys) = keys.
Proof.
  induction 1 as [|k ks (Hk & Ht & _) Hks IH]; [done|].
  cbn [map List.filter]. rewrite Ht. apply length_positive in Hk. by rewrite Hk, IH.
Qed.

(** X24.  Keys that are not empty, trimmed and free of commas are read back
    from their comma-separated list, in order. *)
Theorem configured_keys_round_trip (keys : list string) :
  Forall clean_key keys ->
  VERCEL_API_KEYS (Some (String.concat "," keys)) = keys.
Proof.
  intros Hkeys. unfold VERCEL_API_KEYS. destruct keys as [|key rest]; [done|].
  assert (String.concat "," (key :: rest) <> EmptyString) as Htext.
  { apply Forall_cons in Hkeys as [(Hk & _) _]. destruct rest; cbn; [done|].
    by destruct key. }
  apply String.eqb_neq in Htext. rewrite Htext.
  rewrite split_comma_joined; [by apply clean_keys_kept | done |].
  eapply Forall_impl; [exact Hkeys|]. intros k (_ & _ & Hc). by apply comma_free_split.
Qed.

Lemma configured_keys_round_trip_witness :
  VERCEL_API_KEYS (Some (String.concat "," ["k1"; "k2"])) = ["k1"; "k2"].
Proof.
  apply (configured_keys_round_trip ["k1"; "k2"]).
  repeat (constructor; [repeat split; done|]). constructor.
Defined.

(** ** The bearer token *)

Lemma prefix_split p : forall s,
  String.prefix p s = true -> s = p +:+ substring_from (String.length p) s.
Proof.
  induction p as [|c p IH]; intros s H; [by destruct s|].
  destruct s as [|c' s]; [done|]. cbn in H.
  destruct (Ascii.ascii_dec c c') as [->|]; [|done].
  change (String c' p +:+ ?t) with (String c' (p +:+ t)). cbn. f_equal. by apply IH.
Qed.

Lemma prefix_append p s : String.prefix p (p +:+ s) = true.
Proof.
  induction p as [|c p IH]; [by destruct s|].
  change (String c p +:+ s) with (String c (p +:+ s)). cbn.
  by destruct (Ascii.ascii_dec c c).
Qed.

Lemma substring_from_append p s : substring_from (String.length p) (p +:+ s) = s.
Proof. induction p as [|c p IH]; [by destruct s | exact IH]. Qed.

Lemma validateBearerToken_spec (CUSTOM_AUTH_KEY : option string) (r : request) :
  validateBearerToken CUSTOM_AUTH_KEY r = true <->
  CUSTOM_AUTH_KEY = None \/ CUSTOM_AUTH_KEY = Some EmptyString \/
  exists key, CUSTOM_AUTH_KEY = Some key /\
              header_Authorization r = Some ("Bearer " +:+ key).
Proof.
  unfold validateBearerToken. cbn zeta. destruct CUSTOM_AUTH_KEY as [key|]; [|by split; [left|]].
  destruct (String.eqb key "") eqn:Hkey.
  { apply String.eqb_eq in Hkey as ->. split; [by right; left | done]. }
  apply String.eqb_neq in Hkey.
  destruct (header_Authorization r) as [authHeader|].
  - destruct (String.eqb authHeader "") eqn:Hempty.
    { apply String.eqb_eq in Hempty as ->. split; [done|].
      intros [H|[[= H]|(k & [= <-] & [= H])]]; done. }
    destruct (String.prefix "Bearer " authHeader) eqn:Hprefix; cbn [negb].
    + split.
      * intros H%String.eqb_eq. subst key. right; right. eexists. split; [done|].
        f_equal. exact (prefix_split "Bearer " authHeader Hprefix).
      * intros [H|[[= H]|(k & [= <-] & [= ->])]]; [done | done |].
        apply String.eqb_eq. exact (substring_from_append "Bearer " key).
    + split; [done|]. intros [H|[[= H]|(k & [= <-] & [= ->])]]; [done | done |].
      by rewrite (prefix_append "Bearer " key) in Hprefix.
  - split; [done|]. intros [H|[[= H]|(k & _ & H)]]; done.
Qed.

(** X25.  The token check passes exactly when no key is configured (the
    variable is not set or empty) or the [Authorization] header is
    [Bearer ] followed by the key, character for character. *)
Theorem bearer_token_accepted (CUSTOM_AUTH_KEY : option string) (r : request) :
  validateBearerToken CUSTOM_AUTH_KEY r = true <->
  CUSTOM_AUTH_KEY = None \/ CUSTOM_AUTH_KEY = Some EmptyString \/
  exists key, CUSTOM_AUTH_KEY = Some key /\
              header_Authorization r = Some ("Bearer " +:+ key).
Proof. apply validateBearerToken_spec. Qed.

(** ** handleRequest *)

Section Handler.

Variable JSON_stringify : jsval -> string.
Variable JSON_parse : string -> completion jsval.
Variable ToString : jsval -> string.
Variable JSON_pretty : jsval -> string.
Variable CUSTOM_AUTH_KEY : option string.
Variable env : request_env.

Local Notation "'handle'" :=
  (handleRequest JSON_stringify JSON_parse ToString JSON_pretty CUSTOM_AUTH_KEY env)
  (only parsing).
Local Notation "'translate'" := (convertClaudeToOpenAI JSON_stringify ToString)
  (only parsing).

Lemma messages_catch_run error w :
  messages_catch error w
  = (Normal (Response 500 JSON_CORS
               (JSON_body (proxy_error error (getStats (keyManager w))))),
     evolve (keyManager w)
       [(ERROR, "Error: " +:+ err_message error);
        (LOG, "Current key stats: " +:+ stats_text (getStats (keyManager w)))] w).
Proof.
  unfold messages_catch, bind, print, gets, ret, evolve. cbn.
  by rewrite <- app_assoc.
Qed.

(** X26.  Every request is answered: the handler never throws. *)
Theorem handleRequest_answers (r : request) (w : world) :
  exists a w', handle r w = (Normal a, w').
Proof.
  unfold handleRequest. destruct (String.eqb (method r) "OPTIONS"); [by eexists _, _|].
  destruct (String.eqb (pathname r) "/health"); [by eexists _, _|].
  destruct (_ && _); [|by eexists _, _].
  destruct (negb _); [by eexists _, _|].
  unfold try_catch.
  destruct (messages_try _ _ _ _ _ _ w) as [[a|e] w1]; [by eexists _, _|].
  rewrite messages_catch_run. by eexists _, _.
Qed.

(** X27.  A request without the configured token reaches neither the key
    manager nor the upstream; on the messages route it is answered 401. *)
Theorem unauthorized_request_rejected (key : string) (r : request) (w : world) :
  CUSTOM_AUTH_KEY = Some key -> key <> EmptyString ->
  header_Authorization r <> Some ("Bearer " +:+ key) ->
  snd (handle r w) = w /\
  (method r = "POST" -> pathname r = "/v1/messages" ->
   fst (handle r w) = Normal (Response 401 JSON_CORS (JSON_body authentication_error))).
Proof.
  intros Hkey Hne Hheader.
  assert (validateBearerToken CUSTOM_AUTH_KEY r = false) as Hvalid.
  { apply not_true_iff_false. intros H. apply validateBearerToken_spec in H.
    destruct H as [H|[H|(k & H1 & H2)]]; [congruence | congruence |].
    rewrite Hkey in H1. injection H1 as <-. done. }
  unfold handleRequest. rewrite Hvalid. cbn [negb]. split.
  - destruct (String.eqb (method r) "OPTIONS"); [done|].
    destruct (String.eqb (pathname r) "/health"); [done|].
    by destruct (_ && _).
  - intros -> ->. done.
Qed.

Lemma translated_defined claudeRequest openaiRequest k :
  translate claudeRequest = Normal openaiRequest ->
  get claudeRequest k = Normal (opt_get claudeRequest k).
Proof.
  unfold convertClaudeToOpenAI. intros H.
  destruct (get claudeRequest "messages") as [messages|e] eqn:E; [|discriminate H].
  by eapply get_total.
Qed.

Lemma accepted_run r w :
  accepted CUSTOM_AUTH_KEY r ->
  handle r w
  = try_catch (messages_try JSON_stringify JSON_parse ToString JSON_pretty env r)
      messages_catch w.
Proof.
  intros (Hopt & Hpath & Hpost & Hvalid). unfold handleRequest.
  by rewrite Hopt, Hvalid, Hpath, Hpost.
Qed.

Lemma messages_try_translated r w text claudeRequest openaiRequest :
  request_body r = BodyText text ->
  JSON_parse text = Normal claudeRequest ->
  translate claudeRequest = Normal openaiRequest ->
  messages_try JSON_stringify JSON_parse ToString JSON_pretty env r w
  = match makeRequestWithRetry (attempts env) openaiRequest default_maxRetries
            (logged JSON_pretty claudeRequest openaiRequest w) with
    | (Throw e, w1) => (Throw e, w1)
    | (Normal response, w1) =>
        if negb (ok response) then (Normal (Relayed response), w1)
        else if truthy (opt_get claudeRequest "stream") then
          match body_reader env response with
          | None => (Throw not_readable, w1)
          | Some up => (Normal (Response 200 event_stream_headers (Stream_body up)), w1)
          end
        else
          match payload response with
          | BodyFails e => (Throw e, w1)
          | BodyText text' =>
              match JSON_parse text' with
              | Throw e => (Throw e, w1)
              | Normal openaiResponse =>
                  match convertOpenAIToClaude JSON_parse ToString (clock env)
                          openaiResponse with
                  | Throw e =>
                      (Throw e,
                       evolve (keyManager w1)
                         [(LOG, "Received OpenAI response: "
                                +:+ JSON_pretty openaiResponse)] w1)
                  | Normal claudeResponse =>
                      (Normal (Response 200 JSON_CORS (JSON_body claudeResponse)),
                       evolve (keyManager w1)
                         [(LOG, "Received OpenAI response: "
                                +:+ JSON_pretty openaiResponse);
                          (LOG, "Converted to Claude response: "
                                +:+ JSON_pretty claudeResponse)] w1)
                  end
              end
          end
    end.
Proof.
  intros Hbody Hparse Htranslate. unfold messages_try. rewrite Hbody.
  unfold bind at 1, ret at 1. unfold bind at 1, lift at 1. rewrite Hparse.
  unfold bind at 1, print at 1. unfold bind at 1, lift at 1. rewrite Htranslate.
  unfold bind at 1, print at 1. unfold bind at 1.
  match goal with |- context [makeRequestWithRetry _ _ _ ?w0] =>
    replace w0 with (logged JSON_pretty claudeRequest openaiRequest w)
      by (unfold logged, evolve; cbn; by rewrite <- app_assoc) end.
  destruct (makeRequestWithRetry _ _ _ _) as [[response|e] w1]; [|done].
  destruct (ok response); cbn [negb]; [|done].
  unfold bind at 1, lift at 1.
  rewrite (translated_defined _ _ "stream" Htranslate).
  destruct (truthy _); [by destruct (body_reader env response)|].
  unfold bind at 1, response_text. destruct (payload response) as [text'|e]; [|done].
  unfold ret at 1. unfold bind at 1, lift at 1.
  destruct (JSON_parse text') as [openaiResponse|e]; [|done].
  unfold bind at 1, print at 1. unfold bind at 1, lift at 1.
  destruct (convertOpenAIToClaude _ _ _ _) as [claudeResponse|e]; [|done].
  unfold bind, print, ret, evolve. cbn. by rewrite <- app_assoc.
Qed.

(** X28.  A body that is not JSON, or that does not translate, is answered
    500 before anything is asked of the key manager or the upstream. *)
Theorem malformed_request_answered (r : request) (w : world) (text : string)
    (error : js_error) :
  accepted CUSTOM_AUTH_KEY r ->
  request_body r = BodyText text ->
  (claudeRequest <-! JSON_parse text ;; translate claudeRequest) = Throw error ->
  fst (handle r w)
  = Normal (Response 500 JSON_CORS
              (JSON_body (proxy_error error (getStats (keyManager w))))) /\
  keyManager (snd (handle r w)) = keyManager w /\
  network (snd (handle r w)) = network w /\
  timers (snd (handle r w)) = timers w.
Proof.
  intros Hroute Hbody Hfail. rewrite (accepted_run r w Hroute).
  assert (exists w1, messages_try JSON_stringify JSON_parse ToString JSON_pretty env r w
                     = (Throw error, w1) /\
                     keyManager w1 = keyManager w /\ network w1 = network w /\
                     timers w1 = timers w) as (w1 & Hrun & Hk & Hn & Ht).
  { unfold messages_try. rewrite Hbody.
    unfold bind at 1, ret at 1. unfold bind at 1, lift at 1.
    destruct (JSON_parse text) as [claudeRequest|e]; cbn [cbind] in Hfail.
    - unfold bind at 1, print at 1. unfold bind at 1, lift at 1. rewrite Hfail.
      by eexists.
    - injection Hfail as ->. by eexists. }
  unfold try_catch. rewrite Hrun, messages_catch_run. cbn. by rewrite Hk, Hn, Ht.
Qed.

End Handler.

Lemma malformed_request_answered_witness :
  let r := sample_request "secret" "not json" in
  let w := boot ["k1"] in
  let after := handleRequest blank Json.parse blank blank (Some "secret")
                 (sample_env (http 200 "{}")) r w in
  fst after
  = Normal (Response 500 JSON_CORS
              (JSON_body (proxy_error (Json.SyntaxError "Unexpected token in JSON")
                            (getStats (keyManager w))))) /\
  keyManager (snd after) = keyManager w /\
  network (snd after) = network w /\
  timers (snd after) = timers w.
Proof.
  apply (malformed_request_answered blank Json.parse blank blank (Some "secret")
           (sample_env (http 200 "{}")) (sample_request "secret" "not json")
           (boot ["k1"]) "not json" (Json.SyntaxError "Unexpected token in JSON")).
  - repeat split; reflexivity.
  - reflexivity.
  - reflexivity.
Defined.

Lemma unauthorized_request_rejected_witness :
  let r := sample_request "guess" sample_body in
  let w := boot ["k1"] in
  snd (handleRequest blank Json.parse blank blank (Some "secret")
         (sample_env (http 200 "{}")) r w) = w /\
  (method r = "POST" -> pathname r = "/v1/messages" ->
   fst (handleRequest blank Json.parse blank blank (Some "secret")
          (sample_env (http 200 "{}")) r w)
   = Normal (Response 401 JSON_CORS (JSON_body authentication_error))).
Proof.
  apply (unauthorized_request_rejected blank Json.parse blank blank (Some "secret")
           (sample_env (http 200 "{}")) "secret" (sample_request "guess" sample_body)
           (boot ["k1"])).
  - reflexivity.
  - discriminate.
  - discriminate.
Defined.

(** When every earlier attempt fails and the last one meets a status
    that is not 2xx, the function answers that status and body. *)
Lemma retry_last_response env openaiRequest maxRetries w r text :
  (1 <= maxRetries)%nat ->
  keys (keyManager w) <> [] ->
  no_undefined (failedKeys (keyManager w)) ->
  (forall n c, (1 <= n < maxRetries)%nat -> fails (reply (env n) c) = true) ->
  (forall c, reply (env maxRetries) c = Resolves r) ->
  payload r = BodyText text -> ok r = false -> accepts_body (status r) = true ->
  fst (makeRequestWithRetry env openaiRequest maxRetries w)
  = Normal {| status := status r; payload := BodyText text; headers := CORS_JSON |}.
Proof.
  intros Hmax Hne Hwf Hfail Hr Hp Hok Hacc.
  destruct (retry_reaches_last env openaiRequest maxRetries Hfail maxRetries 1%nat "" w)
    as (k & w1 & Hloop); [lia | lia | lia | done | done |].
  unfold makeRequestWithRetry. rewrite Hloop. clear Hloop.
  destruct (decide (status r = 401 \/ status r = 403)) as [Hs | Hs].
  - destruct (attempt_unauthorized (env maxRetries) openaiRequest maxRetries maxRetries
                k w1 r text (Hr _) Hp Hs) as (lines & Hres).
    unfold bind. rewrite Hres. by rewrite Nat.eqb_refl.
  - destruct (attempt_other_status (env maxRetries) openaiRequest maxRetries maxRetries
                k w1 r text (Hr _) Hp Hok) as [lines Hres]; [tauto | tauto | done |].
    unfold bind. rewrite Hres. by rewrite Nat.eqb_refl.
Qed.

Section Exchange.

Variable JSON_stringify : jsval -> string.
Variable JSON_parse : string -> completion jsval.
Variable ToString : jsval -> string.
Variable JSON_pretty : jsval -> string.
Variable CUSTOM_AUTH_KEY : option string.
Variable env : request_env.

Local Notation "'handle'" :=
  (handleRequest JSON_stringify JSON_parse ToString JSON_pretty CUSTOM_AUTH_KEY env)
  (only parsing).
Local Notation "'translate'" := (convertClaudeToOpenAI JSON_stringify ToString)
  (only parsing).

Variables (r : request) (w : world) (text : string) (claudeRequest openaiRequest : jsval).

Hypothesis Hroute : accepted CUSTOM_AUTH_KEY r.
Hypothesis Hbody : request_body r = BodyText text.
Hypothesis Hparse : JSON_parse text = Normal claudeRequest.
Hypothesis Htranslate : translate claudeRequest = Normal openaiRequest.
Hypothesis Hdefined : no_undefined (failedKeys (keyManager w)).
Hypothesis Hpool : keys (keyManager w) <> [].

Lemma first_attempt_succeeds response :
  (forall c, reply (attempts env 1%nat) c = Resolves response) -> ok response = true ->
  exists k w1,
    makeRequestWithRetry (attempts env) openaiRequest default_maxRetries
      (logged JSON_pretty claudeRequest openaiRequest w) = (Normal response, w1) /\
    In k (keys (keyManager w)) /\
    network w1 = network w ++ [call_with k openaiRequest] /\
    timers w1 = timers w.
Proof.
  intros Hreply Hok.
  set (w0 := logged JSON_pretty claudeRequest openaiRequest w).
  destruct (retry_loop_first_success (attempts env) openaiRequest default_maxRetries
              1 response ltac:(intros n c Hn; exfalso; lia) Hreply Hok
              default_maxRetries 1%nat "" w0) as (Hres & Hlen & Htimers);
    [unfold default_maxRetries; lia | lia | unfold default_maxRetries; lia
    | exact Hdefined | exact Hpool |].
  destruct (retry_loop_accounting (attempts env) openaiRequest default_maxRetries
              default_maxRetries 1%nat "" w0)
    as (used & _ & _ & Hused & Hnet & _);
    [unfold default_maxRetries; lia | exact Hdefined | exact Hpool |].
  cbn zeta in *. fold (makeRequestWithRetry (attempts env) openaiRequest default_maxRetries)
    in Hres, Hlen, Htimers, Hnet.
  destruct (makeRequestWithRetry (attempts env) openaiRequest default_maxRetries w0)
    as [res w1]. cbn [fst snd] in *. subst res.
  rewrite Hnet, length_app, length_map in Hlen.
  destruct used as [|k [|k' used]]; cbn in Hlen; try lia.
  apply Forall_cons in Hused as [Hk _].
  exists k, w1. split; [done|]. split; [exact Hk|]. split; [exact Hnet|].
  rewrite Htimers. cbn. by rewrite app_nil_r.
Qed.

(** X29.  When the first attempt meets a 2xx response, one call is sent with
    a key of the pool and the translated body.  A request that does not
    ask for a stream is answered with the translated response body; one
    that does is answered with the event stream over the upstream body,
    or 500 when the upstream response has no body. *)
Theorem exchange_answered (response : response) :
  (forall c, reply (attempts env 1%nat) c = Resolves response) ->
  ok response = true ->
  (exists k, In k (keys (keyManager w)) /\
             network (snd (handle r w)) = network w ++ [call_with k openaiRequest] /\
             timers (snd (handle r w)) = timers w) /\
  (truthy (opt_get claudeRequest "stream") = false ->
   forall text' openaiResponse claudeResponse,
     payload response = BodyText text' ->
     JSON_parse text' = Normal openaiResponse ->
     convertOpenAIToClaude JSON_parse ToString (clock env) openaiResponse
     = Normal claudeResponse ->
     fst (handle r w) = Normal (Response 200 JSON_CORS (JSON_body claudeResponse))) /\
  (truthy (opt_get claudeRequest "stream") = true ->
   match body_reader env response with
   | Some up =>
       fst (handle r w) = Normal (Response 200 event_stream_headers (Stream_body up))
   | None =>
       exists s, fst (handle r w)
                 = Normal (Response 500 JSON_CORS (JSON_body (proxy_error not_readable s)))
   end).
Proof.
  intros Hreply Hok.
  destruct (first_attempt_succeeds response Hreply Hok) as (k & w1 & Hrun & Hk & Hn & Ht).
  rewrite (accepted_run _ _ _ _ _ _ r w Hroute). unfold try_catch.
  rewrite (messages_try_translated _ _ _ _ _ _ _ _ _ _ Hbody Hparse Htranslate).
  rewrite Hrun, Hok. cbn [negb]. split; [|split].
  - exists k. split; [done|].
    destruct (truthy (opt_get claudeRequest "stream")).
    + destruct (body_reader env response); [done|]. by rewrite messages_catch_run.
    + destruct (payload response) as [text'|e]; [|by rewrite messages_catch_run].
      destruct (JSON_parse text') as [openaiResponse|e]; [|by rewrite messages_catch_run].
      destruct (convertOpenAIToClaude _ _ _ _); [done|]. by rewrite messages_catch_run.
  - intros Hstream text' openaiResponse claudeResponse Hpayload Hparse' Hconvert.
    by rewrite Hstream, Hpayload, Hparse', Hconvert.
  - intros Hstream. rewrite Hstream. destruct (body_reader env response) as [up|]; [done|].
    rewrite messages_catch_run. by eexists.
Qed.

(** X30.  When the three attempts fail and the last one meets a status that
    is not 2xx, the client receives that status and body, whether or not
    it asked for a stream. *)
Theorem upstream_failure_relayed (response : response) (text' : string) :
  (forall n c, (1 <= n < default_maxRetries)%nat ->
               fails (reply (attempts env n) c) = true) ->
  (forall c, reply (attempts env default_maxRetries) c = Resolves response) ->
  payload response = BodyText text' -> ok response = false ->
  accepts_body (status response) = true ->
  fst (handle r w)
  = Normal (Relayed {| status := status response; payload := BodyText text';
                       headers := CORS_JSON |}).
Proof.
  intros Hfail Hreply Hpayload Hok Hacc.
  pose proof (retry_last_response (attempts env) openaiRequest default_maxRetries
                (logged JSON_pretty claudeRequest openaiRequest w) response text'
                ltac:(unfold default_maxRetries; lia) Hpool Hdefined Hfail Hreply
                Hpayload Hok Hacc) as Hrun.
  rewrite (accepted_run _ _ _ _ _ _ r w Hroute). unfold try_catch.
  rewrite (messages_try_translated _ _ _ _ _ _ _ _ _ _ Hbody Hparse Htranslate).
  destruct (makeRequestWithRetry _ _ _ _) as [res w1]. cbn [fst] in Hrun. subst res.
  unfold ok. cbn [status]. fold (ok response). by rewrite Hok.
Qed.

End Exchange.

Lemma upstream_failure_relayed_witness :
  fst (handleRequest blank Json.parse blank blank (Some "secret")
         (sample_env (http 500 "boom")) (sample_request "secret" sample_body)
         (boot ["k1"]))
  = Normal (Relayed {| status := 500; payload := BodyText "boom"; headers := CORS_JSON |}).
Proof.
  apply (upstream_failure_relayed blank Json.parse blank blank (Some "secret")
           (sample_env (http 500 "boom")) (sample_request "secret" sample_body)
           (boot ["k1"]) sample_body sample_claude sample_openai
           ltac:(repeat split; reflexivity) eq_refl eq_refl eq_refl eq_refl
           ltac:(discriminate)
           {| status := 500; payload := BodyText "boom"; headers := [] |} "boom");
    reflexivity.
Defined.

Lemma exchange_answered_witness :
  fst (handleRequest blank Json.parse blank blank (Some "secret")
         (sample_env (http 200 "{}")) (sample_request "secret" sample_body)
         (boot ["k1"]))
  = Normal (Response 200 JSON_CORS (JSON_body (JObj []))).
Proof.
  destruct (exchange_answered blank Json.parse blank blank (Some "secret")
              (sample_env (http 200 "{}")) (sample_request "secret" sample_body)
              (boot ["k1"]) sample_body sample_claude sample_openai
              ltac:(repeat split; reflexivity) eq_refl eq_refl eq_refl eq_refl
              ltac:(discriminate)
              {| status := 200; payload := BodyText "{}"; headers := [] |}
              (fun _ => eq_refl) eq_refl) as (_ & Hmessage & _).
  exact (Hmessage eq_refl "{}" (JObj []) (JObj []) eq_refl eq_refl eq_refl).
Defined.
